(** * Sector/portal raycaster and map editor: a shallow embedding

    The engine (helpers.cpp, main.cpp) computes on IEEE-754 binary64
    [double]s.  They are modelled bit-exactly by the [spec_float] type of the
    Standard Library with the binary64 parameters (precision 53, maximal
    exponent 1024): every arithmetic operation rounds to nearest-even, and
    comparisons with a NaN are false, exactly as the compiled code does.

    The editor (editor/edit.cpp) computes on [int] coordinates and [float]
    heights, and writes and reads the map file as text; the formatted input
    and output of the C++ streams is modelled character by character.

    Globals ([sectors], the player) become arguments and results; an access
    to a [std::vector] out of its range, and a read of a variable that was
    never written, make a function return [None]. *)

From Stdlib Require Import ZArith List Bool Lia.
From Stdlib Require String Ascii.
From Stdlib Require Import SpecFloat FloatOps.
Import ListNotations.

Local Open Scope Z_scope.

(** ** The range of [int] *)

Definition INT_MIN : Z := - 2 ^ 31.
Definition INT_MAX : Z := 2 ^ 31 - 1.

(** ** IEEE-754 binary64 arithmetic *)

Definition double : Type := spec_float.

Declare Scope double_scope.
Delimit Scope double_scope with D.
Bind Scope double_scope with double.

Definition dadd : double -> double -> double := SFadd prec emax.
Definition dsub : double -> double -> double := SFsub prec emax.
Definition dmul : double -> double -> double := SFmul prec emax.
Definition ddiv : double -> double -> double := SFdiv prec emax.
Definition dsqrt : double -> double := SFsqrt prec emax.
Definition fabs : double -> double := SFabs.
Definition dltb : double -> double -> bool := SFltb.
Definition dleb : double -> double -> bool := SFleb.
Definition deqb : double -> double -> bool := SFeqb.

Infix "+" := dadd : double_scope.
Infix "-" := dsub : double_scope.
Infix "*" := dmul : double_scope.
Infix "/" := ddiv : double_scope.
Infix "<?" := dltb : double_scope.
Infix "<=?" := dleb : double_scope.
Infix "=?" := deqb : double_scope.
(** [a >? b] and [a >=? b] are the C++ [a > b] and [a >= b]: the same
    comparison with the operands exchanged (false on a NaN either way). *)
Notation "a >? b" := (dltb b a) (at level 70, only parsing) : double_scope.
Notation "a >=? b" := (dleb b a) (at level 70, only parsing) : double_scope.

(** An [int] converted to [double]: exact below 2^53. *)
Definition d_of_Z (z : Z) : double := binary_normalize prec emax z 0 false.

(** A decimal literal [n/d] of the source text, with [n] and [d] both exactly
    representable: the correctly rounded quotient is the double nearest to
    the decimal value, which is what the compiler stores for the literal. *)
Definition dlit (n d : Z) : double := (d_of_Z n / d_of_Z d)%D.

Definition dzero : double := d_of_Z 0.
Definition done : double := d_of_Z 1.
Definition infinity : double := S754_infinity false.

(** A rank that orders the non-NaN values as [<?] does: the class first
    (-inf, negative, zero, positive, +inf), then exponent and mantissa. *)
Definition drank (d : double) : option (Z * Z * Z) :=
  match d with
  | S754_nan => None
  | S754_infinity true => Some (-2, 0, 0)
  | S754_infinity false => Some (2, 0, 0)
  | S754_zero _ => Some (0, 0, 0)
  | S754_finite true m e => Some (-1, - e, - Zpos m)
  | S754_finite false m e => Some (1, e, Zpos m)
  end.

Definition rank_lt (k1 k2 : Z * Z * Z) : Prop :=
  let '(a1, b1, c1) := k1 in
  let '(a2, b2, c2) := k2 in
  a1 < a2 \/ (a1 = a2 /\ (b1 < b2 \/ (b1 = b2 /\ c1 < c2))).

(** ** Formatted text input and output of the C++ streams

    Both programs read the map with [std::getline] and [operator>>] and the
    editor writes it with [operator<<], all in the default ("C") locale and
    with the default format flags: decimal integers, and floating-point
    values in the [%g] style with 6 significant digits. *)

Module Text.
Import Ascii.

Definition text : Type := list ascii.

Definition newline : ascii := ascii_of_nat 10.
Definition space : ascii := ascii_of_nat 32.

Definition code (c : ascii) : Z := Z.of_nat (nat_of_ascii c).

(** [isspace] in the C locale: space, \t, \n, \v, \f, \r. *)
Definition isspace (c : ascii) : bool :=
  (code c =? 32) || ((9 <=? code c) && (code c <=? 13)).

Definition isdigit (c : ascii) : bool := (48 <=? code c) && (code c <=? 57).

Definition digitVal (c : ascii) : Z := code c - 48.
Definition digitChar (d : Z) : ascii := ascii_of_nat (Z.to_nat (48 + d)).

Definition is_char (a c : ascii) : bool := code a =? code c.

(** *** Lines: the successive results of [getline] *)

(** The lines [getline] hands out one after the other until it fails: the
    text is cut at each newline, and a last line needs no newline. *)
Fixpoint lines (s : text) : list text :=
  match s with
  | [] => []
  | c :: s' =>
      if is_char c newline then [] :: lines s'
      else match lines s' with
           | [] => [[c]]
           | l :: ls => (c :: l) :: ls
           end
  end.

(** Whether the stream is still good when [getline] first fails: the text
    is empty or its last line is closed by a newline.  [getline] then
    empties its string argument; otherwise (the end of the text was met
    while reading the last line) it leaves the argument as it is. *)
Definition endsClean (s : text) : bool :=
  match rev s with
  | [] => true
  | c :: _ => is_char c newline
  end.

(** *** Extraction *)

Fixpoint skipws (s : text) : text :=
  match s with
  | c :: s' => if isspace c then skipws s' else s
  | [] => []
  end.

(** The longest prefix of digits, and what follows it. *)
Fixpoint spanDigits (s : text) : text * text :=
  match s with
  | c :: s' =>
      if isdigit c then let '(ds, rest) := spanDigits s' in (c :: ds, rest)
      else ([], s)
  | [] => ([], [])
  end.

Definition digitsValue (ds : text) : Z :=
  fold_left (fun acc c => 10 * acc + digitVal c) ds 0.

(** An optional sign: whether it is a minus, and what follows it. *)
Definition takeSign (s : text) : bool * text :=
  match s with
  | c :: s' =>
      if is_char c "-" then (true, s')
      else if is_char c "+" then (false, s')
      else (false, s)
  | [] => (false, [])
  end.

(** The outcome of one [operator>>]. *)
Inductive extraction (A : Type) : Type :=
| Got (v : A) (rest : text)  (* the value is stored, the stream goes on *)
| Bad (v : A)                (* failbit; [v] is what is stored *)
| Eof.                       (* failbit at the end of the input; nothing
                                is stored *)
Arguments Got {A} v rest.
Arguments Bad {A} v.
Arguments Eof {A}.

(** [stream >> i] for an [int]: white space, an optional sign, decimal
    digits.  No digit stores 0 and fails; a value that does not fit stores
    the nearest bound and fails. *)
Definition extractInt (s : text) : extraction Z :=
  match skipws s with
  | [] => Eof
  | s0 =>
      let '(neg, s1) := takeSign s0 in
      let '(ds, rest) := spanDigits s1 in
      match ds with
      | [] => Bad 0
      | _ =>
          let v := if neg then - digitsValue ds else digitsValue ds in
          if v <? INT_MIN then Bad INT_MIN
          else if INT_MAX <? v then Bad INT_MAX
          else Got v rest
      end
  end.

Section Floating.
(** The format read: precision and exponent bound of [float] (24, 128) or
    [double] (53, 1024). *)
Variables prec emax : Z.

(** The value [strtof]/[strtod] returns for the decimal [m * 10^e10],
    [m >= 0]: the nearest value of the format, ties to even. *)
Definition decimalToFloat (neg : bool) (m e10 : Z) : spec_float :=
  if m =? 0 then S754_zero neg
  else if 0 <=? e10 then
    binary_normalize prec emax ((if neg then - m else m) * 10 ^ e10) 0 false
  else
    SFdiv prec emax (S754_finite neg (Z.to_pos m) 0)
                    (S754_finite false (Z.to_pos (10 ^ (- e10))) 0).

(** The largest finite value of the format. *)
Definition maxFloat (neg : bool) : spec_float :=
  S754_finite neg (Z.to_pos (2 ^ prec - 1)) (emax - prec).

(** Whether [m * 10^e10] is out of range, that is whether it rounds to
    infinity: it reaches the midpoint between the largest finite value and
    [2^emax].  [strtof] and [strtod] then return [HUGE_VAL]. *)
Definition overflows (m e10 : Z) : bool :=
  let threshold := 2 ^ emax - 2 ^ (emax - prec - 1) in
  if 0 <=? e10 then threshold <=? m * 10 ^ e10
  else threshold * 10 ^ (- e10) <=? m.

(** The exponent part after an [e]: an optional sign and digits. *)
Definition takeExponent (s : text) : option (Z * text) :=
  let '(eneg, s1) := takeSign s in
  let '(es, rest) := spanDigits s1 in
  match es with
  | [] => None
  | _ => Some (if eneg then - digitsValue es else digitsValue es, rest)
  end.

(** [stream >> x] for a floating-point [x]: white space, an optional sign,
    digits with at most one decimal point, and, after at least one digit,
    an optional exponent.  The characters taken must form a complete
    number, else 0 is stored and the extraction fails; a number beyond the
    range stores the largest finite value and fails. *)
Definition extractFloat (s : text) : extraction spec_float :=
  match skipws s with
  | [] => Eof
  | s0 =>
      let '(neg, s1) := takeSign s0 in
      let '(ip, s2) := spanDigits s1 in
      let '(fp, s3) :=
        match s2 with
        | c :: s2' => if is_char c "." then spanDigits s2' else ([], s2)
        | [] => ([], [])
        end in
      match ip ++ fp with
      | [] => Bad (S754_zero false)
      | mant =>
          let finish (e : Z) (rest : text) :=
            let m := digitsValue mant in
            let e10 := e - Z.of_nat (length fp) in
            if overflows m e10 then Bad (maxFloat neg)
            else Got (decimalToFloat neg m e10) rest in
          match s3 with
          | c :: s4 =>
              if is_char c "e" || is_char c "E" then
                match takeExponent s4 with
                | Some (e, rest) => finish e rest
                | None => Bad (S754_zero false)
                end
              else finish 0 s3
          | [] => finish 0 []
          end
      end
  end.

End Floating.

(** A text that cannot continue a number: it is empty or starts with white
    space. *)
Definition delimited (s : text) : Prop :=
  match s with
  | [] => True
  | c :: _ => isspace c = true
  end.

(** A text whose first character, if any, is no digit. *)
Definition stops (s : text) : Prop :=
  match s with
  | [] => True
  | c :: _ => isdigit c = false
  end.

(** *** Insertion *)

(** The decimal digits of [n >= 0], most significant first, put in front of
    [acc]; [fuel] bounds their number. *)
Fixpoint digitsFuel (fuel : nat) (n : Z) (acc : text) : text :=
  match fuel with
  | O => acc
  | S fuel' =>
      let acc' := digitChar (n mod 10) :: acc in
      if n / 10 =? 0 then acc' else digitsFuel fuel' (n / 10) acc'
  end.

(** [out << n] for an unsigned [n]. *)
Definition showNat (n : Z) : text :=
  digitsFuel (S (Z.to_nat (Z.log2 n))) n [].

(** [out << i] for an [int]. *)
Definition showInt (i : Z) : text :=
  if i <? 0 then "-"%char :: showNat (- i) else showNat i.

(** [out << b] for a [bool], without [boolalpha]. *)
Definition showBool (b : bool) : text := showNat (if b then 1 else 0).

(** Exactly [k] decimal digits of [n], most significant first. *)
Fixpoint fixedDigits (k : nat) (n : Z) : text :=
  match k with
  | O => []
  | S k' => fixedDigits k' (n / 10) ++ [digitChar (n mod 10)]
  end.

Definition stripZeros (ds : text) : text :=
  let fix drop (r : text) : text :=
    match r with
    | c :: r' => if is_char c "0" then drop r' else r
    | [] => []
    end in
  rev (drop (rev ds)).

(** The pieces of a printed number. *)
Record FloatText := mkFloatText {
  ft_neg : bool;
  ft_int : text;                     (* digits before the point *)
  ft_frac : text;                    (* digits after it; none: no point *)
  ft_exp : option (bool * text)      (* sign and digits of the exponent *)
}.

Definition render (t : FloatText) : text :=
  (if ft_neg t then ["-"%char] else [])
  ++ ft_int t
  ++ (match ft_frac t with [] => [] | _ :: _ => "."%char :: ft_frac t end)
  ++ (match ft_exp t with
      | None => []
      | Some (eneg, es) =>
          "e"%char :: (if eneg then "-"%char else "+"%char) :: es
      end).

(** [10^x <= num / den], for positive [num] and [den]. *)
Definition pow10_le (x num den : Z) : bool :=
  if 0 <=? x then 10 ^ x * den <=? num else den <=? num * 10 ^ (- x).

(** The decimal exponent of [num / den]: the [x] with
    [10^x <= num/den < 10^(x+1)]. *)
Definition decimalExponent (num den : Z) : Z :=
  let cand := Z.of_nat (length (showNat num))
              - Z.of_nat (length (showNat den)) in
  if pow10_le cand num den then cand else cand - 1.

(** [num / den] rounded to an integer, ties to even. *)
Definition roundHalfEven (num den : Z) : Z :=
  let q := num / den in
  let r := num mod den in
  if 2 * r <? den then q
  else if den <? 2 * r then q + 1
  else if Z.even q then q else q + 1.

(** [num / den] rounded to 6 significant digits: the digits as a number
    in [100000, 999999] and the decimal exponent of the first one. *)
Definition sixDigits (num den : Z) : Z * Z :=
  let x := decimalExponent num den in
  let k := 5 - x in
  let d := if 0 <=? k then roundHalfEven (num * 10 ^ k) den
           else roundHalfEven num (den * 10 ^ (- k)) in
  if d =? 1000000 then (100000, x + 1) else (d, x).

(** The [%g] layout with precision 6: plain notation when the decimal
    exponent [x] lies in [-4, 6), scientific notation otherwise, trailing
    zeros removed in both. *)
Definition layout (neg : bool) (d x : Z) : FloatText :=
  let ds := fixedDigits 6 d in
  if (-4 <=? x) && (x <? 6) then
    if 0 <=? x then
      mkFloatText neg (firstn (Z.to_nat (x + 1)) ds)
        (stripZeros (skipn (Z.to_nat (x + 1)) ds)) None
    else
      mkFloatText neg ["0"%char]
        (repeat "0"%char (Z.to_nat (- x - 1)) ++ stripZeros ds) None
  else
    mkFloatText neg (firstn 1 ds) (stripZeros (skipn 1 ds))
      (Some (x <? 0,
             if Z.abs x <? 10 then "0"%char :: showNat (Z.abs x)
             else showNat (Z.abs x))).

(** [out << x] for a floating-point [x], default flags. *)
Definition showFloat (x : spec_float) : text :=
  match x with
  | S754_nan => ["n"; "a"; "n"]%char
  | S754_infinity sg =>
      (if sg then ["-"%char] else []) ++ ["i"; "n"; "f"]%char
  | S754_zero sg => render (mkFloatText sg ["0"%char] [] None)
  | S754_finite sg m e =>
      let '(num, den) :=
        if 0 <=? e then (Zpos m * 2 ^ e, 1) else (Zpos m, 2 ^ (- e)) in
      let '(d, x) := sixDigits num den in
      render (layout sg d x)
  end.

(** A character that does not end a line. *)
Definition inline (c : ascii) : Prop := is_char c newline = false.

(** A printed number as the reader takes it: digits before the point, only
    digits after it, and a non-empty exponent if any. *)
Definition wellFormed (t : FloatText) : Prop :=
  ft_int t <> []
  /\ Forall (fun c => isdigit c = true) (ft_int t)
  /\ Forall (fun c => isdigit c = true) (ft_frac t)
  /\ match ft_exp t with
     | None => True
     | Some (_, es) => es <> [] /\ Forall (fun c => isdigit c = true) es
     end.

(** The decimal [m * 10^e10] a printed number denotes, as [(m, e10)]. *)
Definition textValue (t : FloatText) : Z * Z :=
  (digitsValue (ft_int t ++ ft_frac t),
   match ft_exp t with
   | None => 0
   | Some (eneg, es) => if eneg then - digitsValue es else digitsValue es
   end - Z.of_nat (length (ft_frac t))).

End Text.

(** ** Engine: map model and geometry kernel (helpers.h, helpers.cpp) *)

Module Engine.

Record Wall := mkWall {
  x1 : double; y1 : double; x2 : double; y2 : double;
  isPortal : bool;
  adjoiningSector : Z   (* -1 if solid wall *)
}.

Record Sector := mkSector {
  walls : list Wall;
  floorHeight : double;
  ceilingHeight : double
}.

(** The literal [1e-6] of the parallel test and of the crossing test. *)
Definition EPS : double := dlit 1 1000000.

(** The two numerators and the denominator of the parametric solution;
    [intersectRayWithSegment] computes exactly these three values. *)
Definition ray_denom (rayDX rayDY x1 y1 x2 y2 : double) : double :=
  (let sdx := x2 - x1 in let sdy := y2 - y1 in
   rayDX * sdy - rayDY * sdx)%D.

Definition ray_t (rayX rayY rayDX rayDY x1 y1 x2 y2 : double) : double :=
  (let sdx := x2 - x1 in let sdy := y2 - y1 in
   let dx := x1 - rayX in let dy := y1 - rayY in
   (dx * sdy - dy * sdx) / ray_denom rayDX rayDY x1 y1 x2 y2)%D.

Definition ray_u (rayX rayY rayDX rayDY x1 y1 x2 y2 : double) : double :=
  (let dx := x1 - rayX in let dy := y1 - rayY in
   (dx * rayDY - dy * rayDX) / ray_denom rayDX rayDY x1 y1 x2 y2)%D.

(** [intersectRayWithSegment]: [Some t] stands for [return true] with
    [outDist = t], [None] for [return false] ([outDist] is then untouched
    and never read by the caller). *)
Definition intersectRayWithSegment
    (rayX rayY rayDX rayDY x1 y1 x2 y2 : double) : option double :=
  let denom := ray_denom rayDX rayDY x1 y1 x2 y2 in
  if (fabs denom <? EPS)%D then None
  else
    let t := ray_t rayX rayY rayDX rayDY x1 y1 x2 y2 in
    let u := ray_u rayX rayY rayDX rayDY x1 y1 x2 y2 in
    if (t >? dzero)%D && (u >=? dzero)%D && (u <=? done)%D
    then Some t else None.

(** The condition under which one wall increments [crossings]. *)
Definition wallCrosses (x y : double) (w : Wall) : bool :=
  (negb (Bool.eqb (y1 w >? y) (y2 w >? y))
   && (x <? (x2 w - x1 w) * (y - y1 w) / (y2 w - y1 w + EPS) + x1 w))%D.

(** The inner loop of [getSectorForPosition]: the value of [crossings]
    after the walls of one sector. *)
Definition crossings (x y : double) (ws : list Wall) : Z :=
  fold_left (fun c w => if wallCrosses x y w then c + 1 else c) ws 0.

(** [crossings % 2 == 1] *)
Definition containsPoint (x y : double) (s : Sector) : bool :=
  Z.rem (crossings x y (walls s)) 2 =? 1.

(** The outer loop, from index [i] on; [-1] when it runs off the end. *)
Fixpoint getSectorFrom (i : Z) (ss : list Sector) (x y : double) : Z :=
  match ss with
  | [] => -1
  | s :: rest => if containsPoint x y s then i
                 else getSectorFrom (i + 1) rest x y
  end.

Definition getSectorForPosition (sectors : list Sector) (x y : double) : Z :=
  getSectorFrom 0 sectors x y.

Definition pointToSegmentDistance (px py x1 y1 x2 y2 : double) : double :=
  (let dx := x2 - x1 in
   let dy := y2 - y1 in
   if (dx =? dzero) && (dy =? dzero) then
     let dx := px - x1 in
     let dy := py - y1 in
     dsqrt (dx * dx + dy * dy)
   else
     let t := ((px - x1) * dx + (py - y1) * dy) / (dx * dx + dy * dy) in
     let t := if t <? dzero then dzero
              else if t >? done then done else t in
     let closestX := x1 + t * dx in
     let closestY := y1 + t * dy in
     let dx := px - closestX in
     let dy := py - closestY in
     dsqrt (dx * dx + dy * dy))%D.

Definition COLLISION_RADIUS : double := dlit 1 10.

(** The test one wall contributes to [isMovementBlocked]. *)
Definition wallBlocks (newX newY : double) (w : Wall) : bool :=
  negb (isPortal w)
  && (pointToSegmentDistance newX newY (x1 w) (y1 w) (x2 w) (y2 w)
      <? COLLISION_RADIUS)%D.

(** [sectors[i]] on a [std::vector]: undefined behaviour out of range,
    which the embedding reports as [None]. *)
Definition sector_at (sectors : list Sector) (i : Z) : option Sector :=
  if i <? 0 then None else nth_error sectors (Z.to_nat i).

(** [isMovementBlocked]: [None] would be an out-of-range access to
    [sectors]. *)
Definition isMovementBlocked (sectors : list Sector) (newX newY : double)
  : option bool :=
  let sector := getSectorForPosition sectors newX newY in
  if sector =? -1 then Some true
  else match sector_at sectors sector with
       | None => None
       | Some s => Some (existsb (wallBlocks newX newY) (walls s))
       end.

(** ** Engine: portal raycaster (main.cpp) *)

(** [(int)d]: the value truncated toward zero.  The conversion is undefined
    in C++ when the truncated value does not fit an [int] (or [d] is a NaN);
    the model then yields [INT_MIN], the "integer indefinite" value that the
    x86-64 conversion instruction produces. *)
Definition truncate (d : double) : option Z :=
  match d with
  | S754_zero _ => Some 0
  | S754_finite s m e =>
      let v := match e with
               | Zneg p => Z.shiftr (Zpos m) (Zpos p)
               | _ => Z.shiftl (Zpos m) e
               end in
      Some (if s then - v else v)
  | _ => None
  end.

Definition int_of_double (d : double) : Z :=
  match truncate d with
  | Some z => if (INT_MIN <=? z) && (z <=? INT_MAX) then z else INT_MIN
  | None => INT_MIN
  end.

Definition SCREEN_WIDTH : Z := 1080.
Definition SCREEN_HEIGHT : Z := 720.
Definition playerEyeHeightOffset : double := d_of_Z 1.
Definition MAX_PORTAL_DEPTH : nat := 10.

(** The player globals [posX], [posY], [dirX], [dirY], [planeX], [planeY]. *)
Record Player := mkPlayer {
  posX : double; posY : double;
  dirX : double; dirY : double;
  planeX : double; planeY : double
}.

(** [SDL_MapRGB(surface->format, r, g, b)] *)
Definition Color : Type := (Z * Z * Z)%type.
Definition ceilingColor : Color := (100, 100, 255).
Definition floorColor : Color := (100, 255, 100).
Definition wallColor (hitIsPortal : bool) : Color :=
  (if hitIsPortal then 0 else 255, 105, 180).

(** One call [drawVerticalLine(surface, x, start, end, color)]. *)
Record Span := mkSpan {
  spanX : Z; spanStart : Z; spanEnd : Z; spanColor : Color
}.

(** [Wall* hitWall]: a pointer into [sectors[si].walls], that is the place
    of the wall and, the map being constant during a frame, the wall it
    points to. *)
Record WallPtr := mkWallPtr {
  ptrSector : Z; ptrWall : nat; target : Wall
}.

(** The three locals of the nearest-hit scan. *)
Record Scan := mkScan {
  closestDist : double;
  hitWall : option WallPtr;     (* [None] is [nullptr] *)
  hitSectorIndex : Z
}.

Definition scanStart : Scan := mkScan infinity None (-1).

Section Ray.
Variables rayX rayY rayDirX rayDirY : double.

(** The body of the inner loop, for the wall at place [wi] of sector [si]. *)
Definition scanWall (si : Z) (wi : nat) (wall : Wall) (st : Scan) : Scan :=
  match intersectRayWithSegment rayX rayY rayDirX rayDirY
          (x1 wall) (y1 wall) (x2 wall) (y2 wall) with
  | Some dist =>
      if (dist <? closestDist st)%D
      then mkScan dist (Some (mkWallPtr si wi wall)) si
      else st
  | None => st
  end.

Fixpoint scanWalls (si : Z) (wi : nat) (ws : list Wall) (st : Scan) : Scan :=
  match ws with
  | [] => st
  | wall :: rest => scanWalls si (S wi) rest (scanWall si wi wall st)
  end.

Fixpoint scanSectors (si : Z) (ss : list Sector) (st : Scan) : Scan :=
  match ss with
  | [] => st
  | sector :: rest => scanSectors (si + 1) rest (scanWalls si 0 (walls sector) st)
  end.

End Ray.

(** The places the two nested loops visit, in the order they visit them:
    sector after sector, and wall after wall within a sector. *)
Fixpoint wallsFrom (si : Z) (wi : nat) (ws : list Wall) : list WallPtr :=
  match ws with
  | [] => []
  | wall :: rest => mkWallPtr si wi wall :: wallsFrom si (S wi) rest
  end.

Fixpoint wallsInOrderFrom (si : Z) (ss : list Sector) : list WallPtr :=
  match ss with
  | [] => []
  | sector :: rest =>
      wallsFrom si 0 (walls sector) ++ wallsInOrderFrom (si + 1) rest
  end.

Definition wallsInOrder (sectors : list Sector) : list WallPtr :=
  wallsInOrderFrom 0 sectors.

(** The ray test of the wall a pointer designates. *)
Definition hitOf (rayX rayY rayDirX rayDirY : double) (p : WallPtr)
  : option double :=
  intersectRayWithSegment rayX rayY rayDirX rayDirY
    (x1 (target p)) (y1 (target p)) (x2 (target p)) (y2 (target p)).

(** The loop body at the wall a pointer designates. *)
Definition scanPtr (rayX rayY rayDirX rayDirY : double)
    (st : Scan) (p : WallPtr) : Scan :=
  scanWall rayX rayY rayDirX rayDirY (ptrSector p) (ptrWall p) (target p) st.

(** What the three locals hold once the walls [seen] have been tested:
    nothing while every hit so far lies at +infinity; otherwise a wall
    strictly nearer than every hit before it and not farther than any hit
    after it. *)
Definition ScanInv (rayX rayY rayDirX rayDirY : double)
    (seen : list WallPtr) (st : Scan) : Prop :=
  match hitWall st with
  | None =>
      closestDist st = infinity
      /\ forall q d, In q seen ->
           hitOf rayX rayY rayDirX rayDirY q = Some d -> d = infinity
  | Some p =>
      exists before after,
        seen = before ++ p :: after
        /\ hitSectorIndex st = ptrSector p
        /\ hitOf rayX rayY rayDirX rayDirY p = Some (closestDist st)
        /\ (dzero <? closestDist st)%D = true
        /\ (forall q d, In q before ->
              hitOf rayX rayY rayDirX rayDirY q = Some d ->
              (closestDist st <? d)%D = true)
        /\ (forall q d, In q after ->
              hitOf rayX rayY rayDirX rayDirY q = Some d ->
              (d <? closestDist st)%D = false)
  end.

(** Lines 35-53: the nearest wall over all sectors. *)
Definition nearestHit (sectors : list Sector)
    (rayX rayY rayDirX rayDirY : double) : Scan :=
  scanSectors rayX rayY rayDirX rayDirY 0 sectors scanStart.

(** Lines 63-83: the three [drawVerticalLine] calls of one depth step.
    The [int] operations are written without wrap-around, which they never
    need: [drawStart] is positive only for [lineHeight < 722], and then
    [drawStart + lineHeight] stays far below 2^31. *)
Definition drawSpans (x : Z) (playerHeight totalDist : double)
    (sector : Sector) (hitIsPortal : bool) : list Span :=
  let floorHeight := floorHeight sector in
  let ceilingHeight := ceilingHeight sector in
  let H := d_of_Z SCREEN_HEIGHT in
  let ceilingScreenY :=
    int_of_double (H / d_of_Z 2
                   - (ceilingHeight - playerHeight) * H / totalDist)%D in
  let floorScreenY :=
    int_of_double (H / d_of_Z 2
                   + (playerHeight - floorHeight) * H / totalDist)%D in
  let ceilingScreenY := Z.max 0 ceilingScreenY in
  let floorScreenY := Z.min (SCREEN_HEIGHT - 1) floorScreenY in
  let lineHeight := int_of_double (H / totalDist)%D in
  let drawStart := ceilingScreenY in
  let drawEnd := floorScreenY in
  let '(drawStart, drawEnd) :=
    if drawEnd <? drawStart then
      let drawStart := Z.max 0 (Z.quot SCREEN_HEIGHT 2 - Z.quot lineHeight 2) in
      (drawStart, Z.min (SCREEN_HEIGHT - 1) (drawStart + lineHeight))
    else (drawStart, drawEnd) in
  [ mkSpan x 0 ceilingScreenY ceilingColor;
    mkSpan x drawStart drawEnd (wallColor hitIsPortal);
    mkSpan x floorScreenY SCREEN_HEIGHT floorColor ].

(** What one iteration of the depth loop draws: the wall hit, the sector it
    belongs to, the distance of this hop, the accumulated distance used as
    the projection divisor, and the three calls issued. *)
Record Segment := mkSegment {
  segWall : WallPtr;
  segSector : Z;
  segDist : double;
  segTotalDist : double;
  segSpans : list Span
}.

(** Lines 34-92: the depth loop of one screen column, with [n] iterations
    left.  [None] would be an out-of-range access to [sectors]. *)
Fixpoint portalLoop (sectors : list Sector) (x : Z)
    (playerHeight rayDirX rayDirY : double) (n : nat)
    (rayX rayY totalDist : double) : option (list Segment) :=
  match n with
  | O => Some []
  | S n' =>
      let scan := nearestHit sectors rayX rayY rayDirX rayDirY in
      match hitWall scan with
      | None => Some []                                  (* break *)
      | Some hw =>
          let totalDist := (totalDist + closestDist scan)%D in
          match sector_at sectors (hitSectorIndex scan) with
          | None => None
          | Some sector =>
              let seg :=
                mkSegment hw (hitSectorIndex scan) (closestDist scan) totalDist
                  (drawSpans x playerHeight totalDist sector
                     (isPortal (target hw))) in
              if negb (isPortal (target hw)) then Some [seg]        (* break *)
              else
                let rayX := (rayX + rayDirX * (closestDist scan + dlit 1 100))%D in
                let rayY := (rayY + rayDirY * (closestDist scan + dlit 1 100))%D in
                let currentSector := adjoiningSector (target hw) in
                if (currentSector <? 0)
                   || (currentSector >=? Z.of_nat (length sectors))
                then Some [seg]                                     (* break *)
                else
                  match portalLoop sectors x playerHeight rayDirX rayDirY n'
                          rayX rayY totalDist with
                  | None => None
                  | Some rest => Some (seg :: rest)
                  end
          end
      end
  end.

(** Lines 22-31: the ray of screen column [x]. *)
Definition cameraX (x : Z) : double :=
  (d_of_Z 2 * d_of_Z x / d_of_Z SCREEN_WIDTH - d_of_Z 1)%D.

Definition renderColumnDepth (depth : nat) (sectors : list Sector)
    (p : Player) (playerHeight : double) (x : Z) : option (list Segment) :=
  let rayDirX := (dirX p + planeX p * cameraX x)%D in
  let rayDirY := (dirY p + planeY p * cameraX x)%D in
  portalLoop sectors x playerHeight rayDirX rayDirY depth
    (posX p) (posY p) dzero.

Definition renderColumn : list Sector -> Player -> double -> Z
                          -> option (list Segment) :=
  renderColumnDepth MAX_PORTAL_DEPTH.

(** The [drawVerticalLine] calls of a column, in the order issued. *)
Definition drawCalls (segs : list Segment) : list Span :=
  flat_map segSpans segs.

(** [renderFrame] up to the minimap overlay: the segments of every column,
    from column 0 to column [SCREEN_WIDTH - 1]; nothing is drawn when the
    player stands outside every sector. *)
Fixpoint renderColumns (sectors : list Sector) (p : Player)
    (playerHeight : double) (x : Z) (n : nat)
  : option (list (list Segment)) :=
  match n with
  | O => Some []
  | S n' =>
      match renderColumn sectors p playerHeight x with
      | None => None
      | Some col =>
          match renderColumns sectors p playerHeight (x + 1) n' with
          | None => None
          | Some cols => Some (col :: cols)
          end
      end
  end.

Definition renderFrame (sectors : list Sector) (p : Player)
  : option (list (list Segment)) :=
  let playerSector := getSectorForPosition sectors (posX p) (posY p) in
  if playerSector =? -1 then Some []
  else match sector_at sectors playerSector with
       | None => None
       | Some s =>
           let playerHeight := (floorHeight s + playerEyeHeightOffset)%D in
           renderColumns sectors p playerHeight 0 (Z.to_nat SCREEN_WIDTH)
       end.

(** ** Engine: map loader (helpers.cpp) *)

Section Loader.
Import Ascii Text.

Definition dprec : Z := 53.
Definition demax : Z := 1024.

(** [ss >> sectorId >> wallCount >> floorHeight >> ceilingHeight], tested as
    a whole. *)
Definition parseHeader (line : text) : option (Z * Z * double * double) :=
  match extractInt line with
  | Got sectorId r1 =>
      match extractInt r1 with
      | Got wallCount r2 =>
          match extractFloat dprec demax r2 with
          | Got floorHeight r3 =>
              match extractFloat dprec demax r3 with
              | Got ceilingHeight _ =>
                  Some (sectorId, wallCount, floorHeight, ceilingHeight)
              | _ => None
              end
          | _ => None
          end
      | _ => None
      end
  | _ => None
  end.

(** [wallSS >> x1 >> y1 >> x2 >> y2 >> isPortalInt >> adjoining], not
    tested.  The six variables are uninitialised locals: a failed
    extraction stores 0 (or a bound) in its own variable or nothing at all,
    and leaves the later ones unwritten.  [None] stands for a wall built
    from a variable that was never written, which is undefined. *)
Definition parseWall (line : text) : option Wall :=
  match extractFloat dprec demax line with
  | Got x1 r1 =>
      match extractFloat dprec demax r1 with
      | Got y1 r2 =>
          match extractFloat dprec demax r2 with
          | Got x2 r3 =>
              match extractFloat dprec demax r3 with
              | Got y2 r4 =>
                  match extractInt r4 with
                  | Got isPortalInt r5 =>
                      match extractInt r5 with
                      | Got adjoining _ | Bad adjoining =>
                          Some (mkWall x1 y1 x2 y2
                                  (negb (isPortalInt =? 0)) adjoining)
                      | Eof => None
                      end
                  | _ => None
                  end
              | _ => None
              end
          | _ => None
          end
      | _ => None
      end
  | _ => None
  end.

(** [line.empty() || line[0] == '#'] *)
Definition skipped (line : text) : bool :=
  match line with
  | [] => true
  | c :: _ => is_char c "#"%char
  end.

Section WallLoop.
(** The outer loop, to go back to after a record. *)
Variable loadLines : list text -> list Sector -> option (list Sector).
(** Whether the text ends cleanly (see [endsClean]). *)
Variable clean : bool.
Variable wallCount : Z.
Variables floorHeight ceilingHeight : double.
Variable sectors : list Sector.

(** The wall loop of one record, from iteration [i] on, and what follows it
    in the body of the outer loop.  [line] is the string last read and [ws]
    the walls pushed so far.  The [getline] of the wall loop is not tested:
    once the lines are used up, every further iteration reads the wall from
    the string [getline] left behind. *)
Fixpoint wallLoop (i : Z) (rest : list text) (line : text) (ws : list Wall)
    {struct rest} : option (list Sector) :=
  if i <? wallCount then
    match rest with
    | l :: rest' =>
        match parseWall l with
        | Some wall => wallLoop (i + 1) rest' l (ws ++ [wall])
        | None => None
        end
    | [] =>
        match parseWall (if clean then [] else line) with
        | Some wall =>
            Some (sectors
                  ++ [mkSector (ws ++ repeat wall (Z.to_nat (wallCount - i)))
                        floorHeight ceilingHeight])
        | None => None
        end
    end
  else
    loadLines rest (sectors ++ [mkSector ws floorHeight ceilingHeight]).

End WallLoop.

(** The [while (getline(file, line))] loop over the lines left, with the
    collection built so far. *)
Fixpoint loadLines (clean : bool) (ls : list text) (sectors : list Sector)
  : option (list Sector) :=
  match ls with
  | [] => Some sectors
  | line :: rest =>
      if skipped line then loadLines clean rest sectors
      else
        match parseHeader line with
        | None => loadLines clean rest sectors              (* continue *)
        | Some (_, wallCount, floorHeight, ceilingHeight) =>
            wallLoop (loadLines clean) clean wallCount
              floorHeight ceilingHeight sectors 0 rest line []
        end
  end.

(** [loadMapFromFile]: [file] is the content of the file, [None] when it
    cannot be opened; the result is the new value of the global [sectors].
    The function returns nothing to its caller. *)
Definition loadMapFromFile (file : option text) (sectors : list Sector)
  : option (list Sector) :=
  match file with
  | None => Some sectors
  | Some content => loadLines (endsClean content) (lines content) []
  end.

End Loader.

End Engine.

(** ** Editor: map model, save, load and sector deletion (editor/edit.cpp) *)

Module Editor.
Import Ascii Text.

Definition GRID_SIZE : Z := 32.

(** Heights are [float]s: IEEE-754 binary32. *)
Definition float : Type := spec_float.
Definition fprec : Z := 24.
Definition femax : Z := 128.
Definition f_of_Z (z : Z) : float := binary_normalize fprec femax z 0 false.

Record Point := mkPoint { px : Z; py : Z }.

Record Wall := mkWall {
  p1 : Point; p2 : Point;
  isPortal : bool;
  adjoiningSector : Z
}.

Record Sector := mkSector {
  walls : list Wall;
  floorHeight : float;
  ceilingHeight : float
}.

(** [int] arithmetic: the value wrapped to 32 bits in two's complement
    (what the compiled multiplication leaves; the overflow itself is
    undefined in C++). *)
Definition wrap (z : Z) : Z := (z + 2 ^ 31) mod 2 ^ 32 - 2 ^ 31.

(** *** saveMap *)

Definition wallLine (w : Wall) : text :=
  showInt (Z.quot (px (p1 w)) GRID_SIZE) ++ [space]
  ++ showInt (Z.quot (py (p1 w)) GRID_SIZE) ++ [space]
  ++ showInt (Z.quot (px (p2 w)) GRID_SIZE) ++ [space]
  ++ showInt (Z.quot (py (p2 w)) GRID_SIZE) ++ [space]
  ++ showBool (isPortal w) ++ [space]
  ++ showInt (adjoiningSector w).

Definition headerLine (i : Z) (sec : Sector) : text :=
  showNat i ++ [space]
  ++ showNat (Z.of_nat (length (walls sec))) ++ [space]
  ++ showFloat (floorHeight sec) ++ [space]
  ++ showFloat (ceilingHeight sec).

(** The records written from sector [i] on. *)
Fixpoint saveFrom (i : Z) (ss : list Sector) : text :=
  match ss with
  | [] => []
  | sec :: rest =>
      headerLine i sec ++ [newline]
      ++ flat_map (fun w => wallLine w ++ [newline]) (walls sec)
      ++ [newline]
      ++ saveFrom (i + 1) rest
  end.

(** The text [saveMap] writes to the file. *)
Definition saveMap (sectors : list Sector) : text := saveFrom 0 sectors.

(** *** loadMap *)

(** [header >> sectorID >> wallCount >> floorH >> ceilH] *)
Definition parseHeader (line : text) : option (Z * Z * float * float) :=
  match extractInt line with
  | Got sectorID r1 =>
      match extractInt r1 with
      | Got wallCount r2 =>
          match extractFloat fprec femax r2 with
          | Got floorH r3 =>
              match extractFloat fprec femax r3 with
              | Got ceilH _ => Some (sectorID, wallCount, floorH, ceilH)
              | _ => None
              end
          | _ => None
          end
      | _ => None
      end
  | _ => None
  end.

(** [wallLine >> x1 >> y1 >> x2 >> y2 >> isPortalInt >> adjoiningSector]
    and the wall built from the six values. *)
Definition parseWall (line : text) : option Wall :=
  match extractInt line with
  | Got x1 r1 =>
      match extractInt r1 with
      | Got y1 r2 =>
          match extractInt r2 with
          | Got x2 r3 =>
              match extractInt r3 with
              | Got y2 r4 =>
                  match extractInt r4 with
                  | Got isPortalInt r5 =>
                      match extractInt r5 with
                      | Got adjoiningSector _ =>
                          Some (mkWall
                                  (mkPoint (wrap (x1 * GRID_SIZE))
                                           (wrap (y1 * GRID_SIZE)))
                                  (mkPoint (wrap (x2 * GRID_SIZE))
                                           (wrap (y2 * GRID_SIZE)))
                                  (negb (isPortalInt =? 0)) adjoiningSector)
                      | _ => None
                      end
                  | _ => None
                  end
              | _ => None
              end
          | _ => None
          end
      | _ => None
      end
  | _ => None
  end.

Section WallLoop.
(** The outer loop, to go back to after a record. *)
Variable loadLines : list text -> list Sector -> bool * list Sector.
Variable wallCount : Z.
Variables floorH ceilH : float.
Variable sectors : list Sector.

(** The wall loop of one record, from iteration [i] on, with the walls [ws]
    pushed so far, and what follows it in the body of the outer loop:
    the sector is pushed and one more line, the blank one after a record,
    is read and dropped. *)
Fixpoint wallLoop (i : Z) (rest : list text) (ws : list Wall)
    {struct rest} : bool * list Sector :=
  if i <? wallCount then
    match rest with
    | [] => (false, sectors)                         (* unexpected EOF *)
    | l :: rest' =>
        match parseWall l with
        | None => (false, sectors)               (* malformed wall line *)
        | Some w => wallLoop (i + 1) rest' (ws ++ [w])
        end
    end
  else
    let sectors := sectors ++ [mkSector ws floorH ceilH] in
    match rest with
    | [] => (true, sectors)
    | _ :: rest' => loadLines rest' sectors
    end.

End WallLoop.

(** The [while (std::getline(in, line))] loop over the lines left, with the
    collection built so far; the result is the value returned and the
    collection left behind. *)
Fixpoint loadLines (ls : list text) (sectors : list Sector)
  : bool * list Sector :=
  match ls with
  | [] => (true, sectors)
  | line :: rest =>
      match line with
      | [] => loadLines rest sectors                 (* line.empty() *)
      | _ =>
          match parseHeader line with
          | None => (false, sectors)          (* malformed sector header *)
          | Some (_, wallCount, floorH, ceilH) =>
              wallLoop loadLines wallCount floorH ceilH sectors 0 rest []
          end
      end
  end.

(** [loadMap]: [file] is the content of the file, [None] when it cannot be
    opened; [sectors] is the global collection on entry.  The result is the
    value returned and the collection on exit. *)
Definition loadMap (file : option text) (sectors : list Sector)
  : bool * list Sector :=
  match file with
  | None => (false, sectors)
  | Some content => loadLines (lines content) []         (* sectors.clear() *)
  end.

(** *** What a save followed by a load does to a sector *)

(** The finite values of the type [float]. *)
Definition isFloat (h : float) : bool :=
  match h with
  | S754_zero _ => true
  | S754_finite _ m e => bounded fprec femax m e
  | _ => false
  end.

(** A height written by [saveMap] and read by [loadMap]: the value of its
    6-digit text. *)
Definition reread (h : float) : float :=
  match extractFloat fprec femax (showFloat h) with
  | Got v _ => v
  | _ => h
  end.

Definition requantized (sec : Sector) : Sector :=
  mkSector (walls sec) (reread (floorHeight sec)) (reread (ceilingHeight sec)).

(** A coordinate as [loadMap] stores it: an [int] on the grid. *)
Definition gridCoord (z : Z) : Prop :=
  z mod GRID_SIZE = 0 /\ INT_MIN <= z <= INT_MAX.

Definition wallOK (w : Wall) : Prop :=
  gridCoord (px (p1 w)) /\ gridCoord (py (p1 w))
  /\ gridCoord (px (p2 w)) /\ gridCoord (py (p2 w))
  /\ INT_MIN <= adjoiningSector w <= INT_MAX.

(** A sector as [loadMap] builds it. *)
Definition sectorOK (sec : Sector) : Prop :=
  Forall wallOK (walls sec) /\ Z.of_nat (length (walls sec)) <= INT_MAX.

(** The heights of a sector are finite values of the type [float]. *)
Definition heightsOK (sec : Sector) : Prop :=
  isFloat (floorHeight sec) = true /\ isFloat (ceilingHeight sec) = true.

(** The lines of the text [saveFrom] writes. *)
Fixpoint linesFrom (i : Z) (ss : list Sector) : list text :=
  match ss with
  | [] => []
  | sec :: rest =>
      headerLine i sec :: map wallLine (walls sec)
      ++ [] :: linesFrom (i + 1) rest
  end.

(** *** deleteSector *)

(** The first pass over a wall: unlink the portals to the deleted sector,
    shift the references above it. *)
Definition unlink (sectorIndex : Z) (w : Wall) : Wall :=
  if isPortal w && (adjoiningSector w =? sectorIndex) then
    mkWall (p1 w) (p2 w) false (-1)
  else if isPortal w && (sectorIndex <? adjoiningSector w) then
    mkWall (p1 w) (p2 w) (isPortal w) (adjoiningSector w - 1)
  else w.

(** The pass after the removal. *)
Definition shiftDown (sectorIndex : Z) (w : Wall) : Wall :=
  if isPortal w && (sectorIndex <? adjoiningSector w) then
    mkWall (p1 w) (p2 w) (isPortal w) (adjoiningSector w - 1)
  else w.

Definition mapWalls (f : Wall -> Wall) (sec : Sector) : Sector :=
  mkSector (map f (walls sec)) (floorHeight sec) (ceilingHeight sec).

(** [sectors.erase(sectors.begin() + k)] *)
Definition erase (k : nat) (ss : list Sector) : list Sector :=
  firstn k ss ++ skipn (S k) ss.

Definition deleteSector (sectorIndex : Z) (sectors : list Sector)
  : list Sector :=
  if (sectorIndex <? 0) || (sectorIndex >=? Z.of_nat (length sectors))
  then sectors
  else
    let sectors := map (mapWalls (unlink sectorIndex)) sectors in
    let sectors := erase (Z.to_nat sectorIndex) sectors in
    map (mapWalls (shiftDown sectorIndex)) sectors.

(** What the two passes together do to a wall that survives the deletion
    of sector [k]. *)
Definition renumbered (k : Z) (w : Wall) : Wall :=
  if negb (isPortal w) then w
  else if adjoiningSector w =? k then mkWall (p1 w) (p2 w) false (-1)
  else if adjoiningSector w =? k + 1 then
    mkWall (p1 w) (p2 w) true (adjoiningSector w - 1)
  else if k + 1 <? adjoiningSector w then
    mkWall (p1 w) (p2 w) true (adjoiningSector w - 2)
  else w.

End Editor.

(** ** Fixtures: the maps of the test scenarios *)

Module Fixtures.
Import Engine.

Definition solid (xa ya xb yb : Z) : Wall :=
  mkWall (d_of_Z xa) (d_of_Z ya) (d_of_Z xb) (d_of_Z yb) false (-1).

Definition portal (xa ya xb yb : Z) (adjoining : Z) : Wall :=
  mkWall (d_of_Z xa) (d_of_Z ya) (d_of_Z xb) (d_of_Z yb) true adjoining.

(** A sector with the default heights of helpers.h. *)
Definition room (ws : list Wall) : Sector := mkSector ws (d_of_Z 0) (d_of_Z 3).

(** A 5x5 room whose west wall runs from (0,0) to (0,5). *)
Definition squareRoom : Sector :=
  room [solid 0 0 0 5; solid 0 5 5 5; solid 5 5 5 0; solid 5 0 0 0].

(** The same room with the west wall turned into a portal. *)
Definition squareRoomPortal : Sector :=
  room [portal 0 0 0 5 1; solid 0 5 5 5; solid 5 5 5 0; solid 5 0 0 0].

(** Two overlapping rooms and a third apart: [0,4]x[0,4], [2,6]x[0,4] and
    [10,12]x[0,4]. *)
Definition overlapping : list Sector :=
  [ room [solid 0 0 4 0; solid 4 0 4 4; solid 4 4 0 4; solid 0 4 0 0];
    room [solid 2 0 6 0; solid 6 0 6 4; solid 6 4 2 4; solid 2 4 2 0];
    room [solid 10 0 12 0; solid 12 0 12 4; solid 12 4 10 4; solid 10 4 10 0] ].

(** Two square rooms that share the portal wall x = 2; the solid east wall
    of the second room lies 2 units behind it. *)
Definition roomA : Sector :=
  room [solid 0 0 2 0; portal 2 0 2 2 1; solid 2 2 0 2; solid 0 2 0 0].
Definition roomB : Sector :=
  room [solid 2 0 4 0; solid 4 0 4 2; solid 4 2 2 2; portal 2 2 2 0 0].
Definition twoRooms : list Sector := [roomA; roomB].

(** A viewer at [(px/2, py/2)] looking along +x, with the camera plane of
    main.cpp. *)
Definition viewerAt (px py : Z) : Player :=
  mkPlayer (dlit px 2) (dlit py 2) (d_of_Z 1) (d_of_Z 0)
    (d_of_Z 0) (dlit 66 100).

(** The middle column of the screen: its ray is the view direction. *)
Definition middle : Z := 540.

(** A room whose east wall is a portal to a sector that does not exist. *)
Definition danglingRoom : list Sector :=
  [ room [solid 0 0 2 0; portal 2 0 2 2 7; solid 2 2 0 2; solid 0 2 0 0] ].

(** A corridor of [n] unit cells [k, k+1] x [0, 1], each linked to the next
    through its east wall; the east wall of the last cell is solid. *)
Definition cell (n k : Z) : Sector :=
  room [ solid k 0 (k + 1) 0;
         (if k + 1 <? n then portal (k + 1) 0 (k + 1) 1 (k + 1)
          else solid (k + 1) 0 (k + 1) 1);
         solid (k + 1) 1 k 1;
         (if 0 <? k then portal k 1 k 0 (k - 1) else solid k 1 k 0) ].

Definition corridor (n : nat) : list Sector :=
  map (fun k => cell (Z.of_nat n) (Z.of_nat k)) (seq 0 n).

(** Editor maps.  Four sectors; the first has a portal to sector 3, one to
    sector 2 and one to sector 1. *)
Definition edge (xa ya xb yb : Z) (portal : bool) (adjoining : Z)
  : Editor.Wall :=
  Editor.mkWall (Editor.mkPoint xa ya) (Editor.mkPoint xb yb) portal adjoining.

Definition plain (ws : list Editor.Wall) : Editor.Sector :=
  Editor.mkSector ws (Editor.f_of_Z 0) (Editor.f_of_Z 4).

Definition fourSectors : list Editor.Sector :=
  [ plain [edge 0 0 32 0 true 3; edge 32 0 32 32 true 2;
           edge 32 32 0 32 true 1; edge 0 32 0 0 false (-1)];
    plain [edge 0 32 32 32 true 0];
    plain [edge 32 0 64 0 true 0];
    plain [edge 0 0 32 0 true 0] ].

End Fixtures.

(** ** Fixtures: map files *)

Module Files.
Import Ascii String.

(** A file given by its lines, each closed by a newline. *)
Definition file (ls : list string) : Text.text :=
  flat_map (fun l => list_ascii_of_string l ++ [Text.newline]) ls.

Local Open Scope string_scope.

(** Two sectors in the format of the editor, the first with two walls, one
    of them a portal; the heights are written with at most six digits. *)
Definition twoSectorFile : Text.text :=
  file [ "0 2 0.5 4"; "0 0 1 0 0 -1"; "1 0 1 1 1 1"; "";
         "1 1 -2 3.25"; "1 0 1 1 1 0"; "" ].

(** One sector without walls whose floor height has seven digits. *)
Definition sevenDigitFile : Text.text := file [ "0 0 1234567 4" ].

(** A file whose first line is no sector header. *)
Definition garbageFile : Text.text := file [ "garbage" ].

(** A record that announces three walls and has one. *)
Definition truncatedFile : Text.text :=
  file [ "0 1 0 4"; "0 0 1 0 0 -1"; ""; "1 3 0 4"; "0 0 1 0 0 -1" ].

End Files.

(** ** Finite values *)

(** The values of a floating-point type that are neither infinite nor a
    NaN. *)
Definition finite (d : double) : bool :=
  match d with
  | S754_zero _ | S754_finite _ _ _ => true
  | _ => false
  end.

(** ** [int] arithmetic *)

(** The operations on [int] as the compiled code performs them: the exact
    result wrapped to 32 bits. *)
Module Int.

Definition add (a b : Z) : Z := Editor.wrap (a + b).
Definition sub (a b : Z) : Z := Editor.wrap (a - b).
Definition mul (a b : Z) : Z := Editor.wrap (a * b).
Definition neg (a : Z) : Z := Editor.wrap (- a).
Definition abs (a : Z) : Z := Editor.wrap (Z.abs a).

End Int.

(** ** Engine: writing pixels (helpers.cpp) *)

Module Surface.
Import Engine.

(** What a drawing routine does to the surface, in the order it does it. *)
Inductive Draw :=
| Fill (x y w h : Z) (color : Color)   (* [SDL_FillRect] on a rectangle *)
| Store (index : Z) (color : Color).   (* [pixels[index] = color] *)

(** [y * (surface->pitch / 4) + x] *)
Definition pixelIndex (stride x y : Z) : Z := Int.add (Int.mul y stride) x.

(** The loop of [drawVerticalLine] from row [y] on, with [n] rows left. *)
Fixpoint column (stride x : Z) (color : Color) (y : Z) (n : nat) : list Draw :=
  match n with
  | O => []
  | S n' => Store (pixelIndex stride x y) color
            :: column stride x color (y + 1) n'
  end.

(** [drawVerticalLine(surface, x, start, end, color)] on a surface whose
    rows are [pitch] bytes apart. *)
Definition drawVerticalLine (pitch x start end_ : Z) (color : Color)
  : list Draw :=
  column (Z.quot pitch 4) x color start (Z.to_nat (end_ - start)).

(** One recorded call carried out. *)
Definition paint (pitch : Z) (s : Span) : list Draw :=
  drawVerticalLine pitch (spanX s) (spanStart s) (spanEnd s) (spanColor s).

(** The three calls of one depth step on column [x]: the ceiling from row 0
    down, the wall within the rows of the screen, the floor down to the last
    row. *)
Definition spansOfColumn (x : Z) (spans : list Span) : Prop :=
  exists ceilingEnd drawStart drawEnd floorStart hitIsPortal,
    spans = [ mkSpan x 0 ceilingEnd ceilingColor;
              mkSpan x drawStart drawEnd (wallColor hitIsPortal);
              mkSpan x floorStart SCREEN_HEIGHT floorColor ]
    /\ 0 <= ceilingEnd
    /\ 0 <= drawStart /\ drawEnd <= SCREEN_HEIGHT - 1
    /\ floorStart <= SCREEN_HEIGHT - 1.

(** A store into the pixel buffer of a surface of [h] rows. *)
Definition inBuffer (stride h : Z) (d : Draw) : Prop :=
  exists i color, d = Store i color /\ 0 <= i < stride * h.

(** *** The minimap *)

Definition MINIMAP_SIZE : Z := 150.
Definition MINIMAP_MARGIN : Z := 10.
Definition MINIMAP_SCALE : double := d_of_Z 5.

Definition backgroundColor : Color := (30, 30, 30).
Definition portalColor : Color := (0, 255, 255).
Definition solidColor : Color := (255, 255, 255).
Definition playerColor : Color := (255, 0, 0).

(** The guard in front of every pixel the minimap writes. *)
Definition inMinimap (cx cy : Z) : bool :=
  (MINIMAP_MARGIN <=? cx) && (cx <? MINIMAP_MARGIN + MINIMAP_SIZE)
  && (MINIMAP_MARGIN <=? cy) && (cy <? MINIMAP_MARGIN + MINIMAP_SIZE).

Definition plot (stride : Z) (color : Color) (cx cy : Z) : list Draw :=
  if inMinimap cx cy then [Store (pixelIndex stride cx cy) color] else [].

Section Line.
Variable stride : Z.
Variable color : Color.
Variables x2 y2 dx dy sx sy : Z.

(** The [while (true)] loop that draws a line, at the point [(cx, cy)] with
    the error term [err].  [fuel] bounds the number of iterations; [None]
    means that the loop has not reached its [break] within that bound. *)
Fixpoint lineLoop (fuel : nat) (cx cy err : Z) : option (list Draw) :=
  match fuel with
  | O => None
  | S fuel' =>
      let here := plot stride color cx cy in
      if (cx =? x2) && (cy =? y2) then Some here
      else
        let e2 := Int.mul 2 err in
        let '(err, cx) :=
          if e2 >=? dy then (Int.add err dy, Int.add cx sx) else (err, cx) in
        let '(err, cy) :=
          if e2 <=? dx then (Int.add err dx, Int.add cy sy) else (err, cy) in
        match lineLoop fuel' cx cy err with
        | None => None
        | Some rest => Some (here ++ rest)
        end
  end.

End Line.

(** The line from [(x1, y1)] to [(x2, y2)]: the set-up in front of the loop
    and the loop.  [renderMinimap] has this code twice, for the walls and for
    the direction of the player. *)
Definition drawLine (fuel : nat) (stride : Z) (color : Color)
    (x1 y1 x2 y2 : Z) : option (list Draw) :=
  let dx := Int.abs (Int.sub x2 x1) in
  let sx := if x1 <? x2 then 1 else -1 in
  let dy := Int.neg (Int.abs (Int.sub y2 y1)) in
  let sy := if y1 <? y2 then 1 else -1 in
  let err := Int.add dx dy in
  lineLoop stride color x2 y2 dx dy sx sy fuel x1 y1 err.

(** [(int)(v * MINIMAP_SCALE) + MINIMAP_MARGIN] *)
Definition toMinimap (v : double) : Z :=
  Int.add (int_of_double (v * MINIMAP_SCALE)%D) MINIMAP_MARGIN.

Definition drawWall (fuel : nat) (stride : Z) (wall : Wall)
  : option (list Draw) :=
  drawLine fuel stride (if isPortal wall then portalColor else solidColor)
    (toMinimap (x1 wall)) (toMinimap (y1 wall))
    (toMinimap (x2 wall)) (toMinimap (y2 wall)).

(** The loop over the walls of every sector. *)
Fixpoint drawWalls (fuel : nat) (stride : Z) (ws : list Wall)
  : option (list Draw) :=
  match ws with
  | [] => Some []
  | wall :: rest =>
      match drawWall fuel stride wall with
      | None => None
      | Some a =>
          match drawWalls fuel stride rest with
          | None => None
          | Some b => Some (a ++ b)
          end
      end
  end.

(** The values [-radius .. radius] of the two loops of the circle. *)
Definition radius : Z := 4.
Definition offsets : list Z :=
  map (fun k => Z.of_nat k - radius) (seq 0 (Z.to_nat (2 * radius + 1))).

(** The filled circle at the place of the player. *)
Definition drawPlayer (stride px py : Z) : list Draw :=
  flat_map (fun w =>
    flat_map (fun h =>
      if Int.add (Int.mul w w) (Int.mul h h) <=? Int.mul radius radius
      then plot stride playerColor (Int.add px w) (Int.add py h)
      else []) offsets) offsets.

Definition lineLength : Z := 10.

(** [renderMinimap]: the background, the walls, the player and the
    direction line. *)
Definition renderMinimap (fuel : nat) (pitch : Z) (sectors : list Sector)
    (p : Player) : option (list Draw) :=
  let stride := Z.quot pitch 4 in
  let background :=
    Fill MINIMAP_MARGIN MINIMAP_MARGIN MINIMAP_SIZE MINIMAP_SIZE
      backgroundColor in
  match drawWalls fuel stride (flat_map walls sectors) with
  | None => None
  | Some lines =>
      let px := toMinimap (posX p) in
      let py := toMinimap (posY p) in
      let dx := int_of_double (dirX p * d_of_Z lineLength)%D in
      let dy := int_of_double (dirY p * d_of_Z lineLength)%D in
      let xEnd := Int.add px dx in
      let yEnd := Int.add py dy in
      match drawLine fuel stride playerColor px py xEnd yEnd with
      | None => None
      | Some direction =>
          Some (background :: lines ++ drawPlayer stride px py ++ direction)
      end
  end.

(** *** What the minimap keeps to *)

(** A coordinate of the minimap far enough from the bounds of [int] for the
    line loop not to wrap around. *)
Definition fits (z : Z) : Prop := - 2 ^ 28 <= z <= 2 ^ 28.

Definition wallFits (w : Wall) : Prop :=
  fits (toMinimap (x1 w)) /\ fits (toMinimap (y1 w))
  /\ fits (toMinimap (x2 w)) /\ fits (toMinimap (y2 w)).

(** A store of the line from [(x1, y1)] to [(x2, y2)]: a pixel of the
    minimap inside the bounding box of the two end points. *)
Definition onLine (stride : Z) (color : Color) (x1 y1 x2 y2 : Z)
    (d : Draw) : Prop :=
  exists cx cy,
    d = Store (pixelIndex stride cx cy) color
    /\ inMinimap cx cy = true
    /\ Z.min x1 x2 <= cx <= Z.max x1 x2
    /\ Z.min y1 y2 <= cy <= Z.max y1 y2.

(** A store to a pixel of the square of the minimap. *)
Definition inSquare (stride : Z) (d : Draw) : Prop :=
  exists cx cy color,
    d = Store (pixelIndex stride cx cy) color
    /\ MINIMAP_MARGIN <= cx < MINIMAP_MARGIN + MINIMAP_SIZE
    /\ MINIMAP_MARGIN <= cy < MINIMAP_MARGIN + MINIMAP_SIZE.

End Surface.

(** ** Engine: the main loop (main.cpp) *)

Module Game.
Import Engine.

Definition moveSpeed : double := dlit 2 10.
Definition rotSpeed : double := dlit 1 10.

(** The keys of [SDL_GetKeyboardState] the loop looks at. *)
Record Keys := mkKeys { keyW : bool; keyS : bool; keyA : bool; keyD : bool }.

(** The two guarded assignments of a step forward or backward: each axis
    moves on its own.  [None] would be an out-of-range access to
    [sectors]. *)
Definition step (sectors : list Sector) (newX newY : double) (p : Player)
  : option Player :=
  match isMovementBlocked sectors newX (posY p) with
  | None => None
  | Some blockedX =>
      let p := if blockedX then p
               else mkPlayer newX (posY p) (dirX p) (dirY p)
                      (planeX p) (planeY p) in
      match isMovementBlocked sectors (posX p) newY with
      | None => None
      | Some blockedY =>
          Some (if blockedY then p
                else mkPlayer (posX p) newY (dirX p) (dirY p)
                       (planeX p) (planeY p))
      end
  end.

Definition forward (sectors : list Sector) (p : Player) : option Player :=
  step sectors (posX p + dirX p * moveSpeed)%D
    (posY p + dirY p * moveSpeed)%D p.

Definition backward (sectors : list Sector) (p : Player) : option Player :=
  step sectors (posX p - dirX p * moveSpeed)%D
    (posY p - dirY p * moveSpeed)%D p.

Section Libm.
(** [cos] and [sin] of the C library. *)
Variables cos sin : double -> double.

(** The rotation of the direction and of the camera plane by [angle]. *)
Definition turn (angle : double) (p : Player) : Player :=
  (let oldDirX := dirX p in
   let dirX' := dirX p * cos angle - dirY p * sin angle in
   let dirY' := oldDirX * sin angle + dirY p * cos angle in
   let oldPlaneX := planeX p in
   let planeX' := planeX p * cos angle - planeY p * sin angle in
   let planeY' := oldPlaneX * sin angle + planeY p * cos angle in
   mkPlayer (posX p) (posY p) dirX' dirY' planeX' planeY')%D.

(** The part of one iteration of the main loop that reads the keys. *)
Definition update (sectors : list Sector) (keys : Keys) (p : Player)
  : option Player :=
  match (if keyW keys then forward sectors p else Some p) with
  | None => None
  | Some p =>
      match (if keyS keys then backward sectors p else Some p) with
      | None => None
      | Some p =>
          let p := if keyA keys then turn rotSpeed p else p in
          let p := if keyD keys then turn (SFopp rotSpeed) p else p in
          Some p
      end
  end.

(** The player after the iterations of the main loop that saw the key
    states [inputs], one after the other. *)
Fixpoint play (sectors : list Sector) (inputs : list Keys) (p : Player)
  : option Player :=
  match inputs with
  | [] => Some p
  | keys :: rest =>
      match update sectors keys p with
      | None => None
      | Some p' => play sectors rest p'
      end
  end.

End Libm.

End Game.

(** ** Editor: picking, portals and new sectors (editor/edit.cpp) *)

Module Tools.
Import Editor.

Definition SCREEN_WIDTH : Z := 800.
Definition SCREEN_HEIGHT : Z := 600.
Definition HIT_RADIUS : float := f_of_Z 6.

(** [gridSnap]: [int] division truncates toward zero. *)
Definition gridSnap (x y : Z) : Point :=
  mkPoint (Int.mul (Z.quot x GRID_SIZE) GRID_SIZE)
          (Int.mul (Z.quot y GRID_SIZE) GRID_SIZE).

Definition wallsExactlyMatch (a b : Wall) : bool :=
  ((px (p1 a) =? px (p1 b)) && (py (p1 a) =? py (p1 b))
   && (px (p2 a) =? px (p2 b)) && (py (p2 a) =? py (p2 b)))
  || ((px (p1 a) =? px (p2 b)) && (py (p1 a) =? py (p2 b))
      && (px (p2 a) =? px (p1 b)) && (py (p2 a) =? py (p1 b))).

(** *** Arithmetic on [float] *)

Definition fadd : float -> float -> float := SFadd fprec femax.
Definition fsub : float -> float -> float := SFsub fprec femax.
Definition fmul : float -> float -> float := SFmul fprec femax.
Definition fdiv : float -> float -> float := SFdiv fprec femax.

(** A [double] converted to [float]: rounded to nearest, ties to even. *)
Definition float_of_double (d : double) : float :=
  match d with
  | S754_finite s m e => binary_round fprec femax s m e
  | _ => d
  end.

(** [std::min] and [std::max] on [float]s, which return their first
    argument unless the comparison says otherwise. *)
Definition fmin (a b : float) : float := if SFltb b a then b else a.
Definition fmax (a b : float) : float := if SFltb a b then b else a.

(** *** Picking a wall *)

Section Libm.
(** [std::pow] and [std::hypot] on [double]s and [std::hypot] on [float]s,
    from the C library. *)
Variable pow : double -> double -> double.
Variable hypot : double -> double -> double.
Variable hypotf : float -> float -> float.

Definition distanceToSegment (p v w : Point) : float :=
  let l2 :=
    float_of_double
      (pow (d_of_Z (Int.sub (px w) (px v))) (d_of_Z 2)
       + pow (d_of_Z (Int.sub (py w) (py v))) (d_of_Z 2))%D in
  if SFeqb l2 (f_of_Z 0) then
    float_of_double (hypot (d_of_Z (Int.sub (px p) (px v)))
                           (d_of_Z (Int.sub (py p) (py v))))
  else
    let t :=
      fdiv (f_of_Z (Int.add
                      (Int.mul (Int.sub (px p) (px v)) (Int.sub (px w) (px v)))
                      (Int.mul (Int.sub (py p) (py v)) (Int.sub (py w) (py v)))))
           l2 in
    let t := fmax (f_of_Z 0) (fmin (f_of_Z 1) t) in
    let projX :=
      fadd (f_of_Z (px v)) (fmul t (f_of_Z (Int.sub (px w) (px v)))) in
    let projY :=
      fadd (f_of_Z (py v)) (fmul t (f_of_Z (Int.sub (py w) (py v)))) in
    hypotf (fsub (f_of_Z (px p)) projX) (fsub (f_of_Z (py p)) projY).

(** The test both picking functions apply to a wall. *)
Definition hits (p : Point) (wall : Wall) : bool :=
  SFltb (distanceToSegment p (p1 wall) (p2 wall)) HIT_RADIUS.

(** [WallRef]: the wall is given by its place in the walls of sector
    [sectorIndex]; [None] is [nullptr]. *)
Record WallRef := mkWallRef { wall : option nat; sectorIndex : Z }.

(** The inner loop of [findWallAt], from the wall at place [j] on. *)
Fixpoint firstHit (p : Point) (j : nat) (ws : list Wall) : option nat :=
  match ws with
  | [] => None
  | wall :: rest => if hits p wall then Some j else firstHit p (S j) rest
  end.

Fixpoint findWallFrom (p : Point) (i : Z) (ss : list Sector) : WallRef :=
  match ss with
  | [] => mkWallRef None (-1)
  | sector :: rest =>
      match firstHit p 0 (walls sector) with
      | Some j => mkWallRef (Some j) i
      | None => findWallFrom p (i + 1) rest
      end
  end.

Definition findWallAt (sectors : list Sector) (x y : Z) : WallRef :=
  findWallFrom (mkPoint x y) 0 sectors.

Fixpoint findHoveredFrom (mouseP : Point) (i : Z) (ss : list Sector) : Z :=
  match ss with
  | [] => -1
  | sec :: rest =>
      if existsb (hits mouseP) (walls sec) then i
      else findHoveredFrom mouseP (i + 1) rest
  end.

Definition findHoveredSector (sectors : list Sector) (mx my : Z) : Z :=
  findHoveredFrom (mkPoint mx my) 0 sectors.

End Libm.

(** *** Overlapping walls *)

(** The expression [cross] returns, which is computed on [int]s. *)
Definition crossInt (a b c : Point) : Z :=
  Int.sub (Int.mul (Int.sub (px b) (px a)) (Int.sub (py c) (py a)))
          (Int.mul (Int.sub (py b) (py a)) (Int.sub (px c) (px a))).

(** [cross]: the [int] converted to the [float] returned. *)
Definition cross (a b c : Point) : float := f_of_Z (crossInt a b c).

(** Coordinates small enough for [crossInt] not to wrap around. *)
Definition small (p : Point) : Prop :=
  Z.abs (px p) < 2 ^ 14 /\ Z.abs (py p) < 2 ^ 14.

(** The literal [0.1f]. *)
Definition tenth : float := fdiv (f_of_Z 1) (f_of_Z 10).

Definition segmentsOverlap (p1 q1 p2 q2 : Point) : bool :=
  if SFltb tenth (SFabs (cross p1 q1 p2)) then false
  else if SFltb tenth (SFabs (cross p1 q1 q2)) then false
  else
    let xOverlap :=
      negb ((Z.max (px p1) (px q1) <? Z.min (px p2) (px q2))
            || (Z.max (px p2) (px q2) <? Z.min (px p1) (px q1))) in
    let yOverlap :=
      negb ((Z.max (py p1) (py q1) <? Z.min (py p2) (py q2))
            || (Z.max (py p2) (py q2) <? Z.min (py p1) (py q1))) in
    xOverlap && yOverlap.

(** *** Linking a portal *)

(** [sectors[i]]: [None] out of range. *)
Definition sector_at (sectors : list Sector) (i : Z) : option Sector :=
  if i <? 0 then None else nth_error sectors (Z.to_nat i).

(** What a [Wall*] into [sectors[i].walls] points to. *)
Definition wall_at (sectors : list Sector) (i : Z) (k : nat) : option Wall :=
  match sector_at sectors i with
  | Some sector => nth_error (walls sector) k
  | None => None
  end.

(** An element of a vector changed in place. *)
Fixpoint updateAt {A : Type} (i : nat) (f : A -> A) (l : list A) : list A :=
  match l, i with
  | [], _ => []
  | x :: rest, O => f x :: rest
  | x :: rest, S i' => x :: updateAt i' f rest
  end.

(** [v.erase(v.begin() + k)] followed by
    [v.insert(v.begin() + k, new.begin(), new.end())]. *)
Definition replaceAt {A : Type} (k : nat) (new l : list A) : list A :=
  firstn k l ++ new ++ skipn (S k) l.

Definition setWalls (f : list Wall -> list Wall) (sector : Sector) : Sector :=
  mkSector (f (walls sector)) (floorHeight sector) (ceilingHeight sector).

(** The two end points in the order the code normalises them to. *)
Definition normalized (a1 a2 : Point) : Point * Point :=
  if (px a2 <? px a1) || ((px a1 =? px a2) && (py a2 <? py a1))
  then (a2, a1) else (a1, a2).

(** The walls that replace a wall from [e1] to [e2]: the portal over the
    overlap, and a solid wall on each side where the wall extends beyond
    it. *)
Definition pieces (e1 e2 overlapStart overlapEnd : Point) (link : Z)
  : list Wall :=
  (if negb ((px e1 =? px overlapStart) && (py e1 =? py overlapStart))
   then [mkWall e1 overlapStart false (-1)] else [])
  ++ [mkWall overlapStart overlapEnd true link]
  ++ (if negb ((px e2 =? px overlapEnd) && (py e2 =? py overlapEnd))
      then [mkWall overlapEnd e2 false (-1)] else []).

(** The test the search applies to another wall. *)
Definition candidate (wall otherWall : Wall) : bool :=
  negb (isPortal otherWall)
  && segmentsOverlap (p1 wall) (p2 wall) (p1 otherWall) (p2 otherWall).

(** The inner loop of the search, from the wall at place [j] on: the first
    wall that is no portal and overlaps [wall]. *)
Fixpoint partnerIn (wall : Wall) (j : nat) (ws : list Wall)
  : option (nat * Wall) :=
  match ws with
  | [] => None
  | otherWall :: rest =>
      if isPortal otherWall then partnerIn wall (S j) rest
      else if segmentsOverlap (p1 wall) (p2 wall) (p1 otherWall) (p2 otherWall)
      then Some (j, otherWall)
      else partnerIn wall (S j) rest
  end.

(** The outer loop, from sector [i] on; the sector of the wall itself is
    passed over. *)
Fixpoint partnerFrom (wall : Wall) (sectorIndex : Z) (i : nat)
    (ss : list Sector) : option (nat * nat * Wall) :=
  match ss with
  | [] => None
  | otherSector :: rest =>
      if Z.of_nat i =? sectorIndex
      then partnerFrom wall sectorIndex (S i) rest
      else
        match partnerIn wall 0 (walls otherSector) with
        | Some (j, otherWall) => Some (i, j, otherWall)
        | None => partnerFrom wall sectorIndex (S i) rest
        end
  end.

(** [tryAutoLinkPortal(wall, sectorIndex)], [wall] being the wall at place
    [k] of sector [sectorIndex].  [None] is an access out of range. *)
Definition tryAutoLinkPortal (sectors : list Sector) (sectorIndex : Z)
    (k : nat) : option (list Sector) :=
  match wall_at sectors sectorIndex k with
  | None => None
  | Some wall =>
      match partnerFrom wall sectorIndex 0 sectors with
      | None => Some sectors
      | Some (i, j, otherWall) =>
          let '(a1, a2) := normalized (p1 wall) (p2 wall) in
          let '(b1, b2) := normalized (p1 otherWall) (p2 otherWall) in
          let overlapStart :=
            mkPoint (Z.max (px a1) (px b1)) (Z.max (py a1) (py b1)) in
          let overlapEnd :=
            mkPoint (Z.min (px a2) (px b2)) (Z.min (py a2) (py b2)) in
          let newWalls :=
            pieces a1 a2 overlapStart overlapEnd (Z.of_nat i) in
          let sectors :=
            updateAt (Z.to_nat sectorIndex)
              (setWalls (replaceAt k newWalls)) sectors in
          let newOtherWalls :=
            pieces b1 b2 overlapStart overlapEnd sectorIndex in
          Some (updateAt i (setWalls (replaceAt j newOtherWalls)) sectors)
      end
  end.

(** *** The mouse and the keys (main) *)

Definition setPortal (w : Wall) : Wall :=
  mkWall (p1 w) (p2 w) true (adjoiningSector w).

Definition clearPortal (w : Wall) : Wall := mkWall (p1 w) (p2 w) false (-1).

(** The loop over the walls of the linked sector. *)
Definition unlinkFrom (sectorIndex : Z) (w : Wall) : Wall :=
  if (adjoiningSector w =? sectorIndex) && isPortal w then clearPortal w
  else w.

(** A right click on the wall at place [k] of sector [sectorIndex]: a solid
    wall becomes a portal and is linked if it can be, a portal is unset on
    both sides. *)
Definition togglePortal (sectors : list Sector) (sectorIndex : Z) (k : nat)
  : option (list Sector) :=
  match wall_at sectors sectorIndex k with
  | None => None
  | Some wall =>
      if negb (isPortal wall) then
        tryAutoLinkPortal
          (updateAt (Z.to_nat sectorIndex) (setWalls (updateAt k setPortal))
             sectors)
          sectorIndex k
      else
        let linkedSector := adjoiningSector wall in
        let sectors :=
          if (0 <=? linkedSector)
             && (linkedSector <? Z.of_nat (length sectors))
          then updateAt (Z.to_nat linkedSector)
                 (setWalls (map (unlinkFrom sectorIndex))) sectors
          else sectors in
        Some (updateAt (Z.to_nat sectorIndex)
                (setWalls (updateAt k clearPortal)) sectors)
  end.

(** The walls of the sector the Return key closes: from each point to the
    next, and from the last back to the first. *)
Definition closedLoop (points : list Point) : list Wall :=
  map (fun i =>
         mkWall (nth i points (mkPoint 0 0))
                (nth ((i + 1) mod length points) points (mkPoint 0 0))
                false (-1))
      (seq 0 (length points)).

(** The globals [sectors] and [currentWallPoints]. *)
Record State := mkState {
  sectors : list Sector;
  currentWallPoints : list Point
}.

Definition leftClick (x y : Z) (st : State) : State :=
  mkState (sectors st) (currentWallPoints st ++ [gridSnap x y]).

Definition keyReturn (st : State) : State :=
  if (2 <? length (currentWallPoints st))%nat then
    mkState (sectors st
             ++ [mkSector (closedLoop (currentWallPoints st))
                   (f_of_Z 0) (f_of_Z 4)])
            []
  else st.

Section Picking.
Variable pow : double -> double -> double.
Variable hypot : double -> double -> double.
Variable hypotf : float -> float -> float.

Definition rightClick (x y : Z) (st : State) : option State :=
  match findWallAt pow hypot hypotf (sectors st) x y with
  | mkWallRef (Some k) sectorIndex =>
      match togglePortal (sectors st) sectorIndex k with
      | Some sectors' => Some (mkState sectors' (currentWallPoints st))
      | None => None
      end
  | mkWallRef None _ => Some st
  end.

Definition keyD (mx my : Z) (st : State) : State :=
  let hovered := findHoveredSector pow hypot hypotf (sectors st) mx my in
  if hovered >=? 0
  then mkState (deleteSector hovered (sectors st)) (currentWallPoints st)
  else st.

End Picking.

End Tools.

(** ** Editor: a session (the event loop of main) *)

Module Session.
Import Editor Tools.

(** The events the loop reacts to; the S key writes the file and leaves
    the state as it is. *)
Inductive Event :=
| LeftClick (x y : Z)
| RightClick (x y : Z)
| KeyReturn
| KeyS
| KeyD (mx my : Z).

Section Picking.
Variable pow : double -> double -> double.
Variable hypot : double -> double -> double.
Variable hypotf : float -> float -> float.

(** One event handled; [None] would be an access out of range. *)
Definition handle (e : Event) (st : State) : option State :=
  match e with
  | LeftClick x y => Some (leftClick x y st)
  | RightClick x y => rightClick pow hypot hypotf x y st
  | KeyReturn => Some (keyReturn st)
  | KeyS => Some st
  | KeyD mx my => Some (keyD pow hypot hypotf mx my st)
  end.

Fixpoint run (events : list Event) (st : State) : option State :=
  match events with
  | [] => Some st
  | e :: rest =>
      match handle e st with
      | Some st' => run rest st'
      | None => None
      end
  end.

End Picking.

(** The editor started without a map file. *)
Definition start : State := mkState [] [].

(** *** What a session keeps true *)

Definition gridPoint (p : Point) : Prop :=
  gridCoord (px p) /\ gridCoord (py p).

(** The link of a wall of a map of [n] sectors: -1 on a solid wall, -1 or
    the index of a sector on a portal. *)
Definition linkInv (n : Z) (w : Wall) : Prop :=
  if isPortal w then -1 <= adjoiningSector w < n else adjoiningSector w = -1.

Definition wallInv (n : Z) (w : Wall) : Prop :=
  gridPoint (p1 w) /\ gridPoint (p2 w) /\ linkInv n w.

Definition sectorInv (n : Z) (sector : Sector) : Prop :=
  Forall (wallInv n) (walls sector)
  /\ floorHeight sector = f_of_Z 0 /\ ceilingHeight sector = f_of_Z 4.

Definition stateInv (st : State) : Prop :=
  Forall (sectorInv (Z.of_nat (length (sectors st)))) (sectors st)
  /\ Forall gridPoint (currentWallPoints st).

End Session.

(** ** From the editor to the engine: the map file *)

Module Exchange.
Import Text.

(** A height written by the editor's [saveMap] and read by the engine's
    [loadMapFromFile]: the [double] nearest to its 6-digit text. *)
Definition asDouble (h : Editor.float) : double :=
  match extractFloat Engine.dprec Engine.demax (showFloat h) with
  | Got v _ => v
  | _ => h
  end.

(** A wall of the editor as the engine reads it from the file: one unit of
    the engine for every cell of the grid. *)
Definition exportWall (w : Editor.Wall) : Engine.Wall :=
  Engine.mkWall
    (d_of_Z (Z.quot (Editor.px (Editor.p1 w)) Editor.GRID_SIZE))
    (d_of_Z (Z.quot (Editor.py (Editor.p1 w)) Editor.GRID_SIZE))
    (d_of_Z (Z.quot (Editor.px (Editor.p2 w)) Editor.GRID_SIZE))
    (d_of_Z (Z.quot (Editor.py (Editor.p2 w)) Editor.GRID_SIZE))
    (Editor.isPortal w) (Editor.adjoiningSector w).

Definition exportSector (s : Editor.Sector) : Engine.Sector :=
  Engine.mkSector (map exportWall (Editor.walls s))
    (asDouble (Editor.floorHeight s)) (asDouble (Editor.ceilingHeight s)).

End Exchange.

(** ** Fixtures: editor scenes and stand-ins for the C library *)

Module Scenes.
Import Editor Tools.

(** [std::pow] with the exponent 2, [std::hypot] and the rotation by the
    angle 0, each computed with the operations of the type. *)
Definition pow2 (x y : double) : double := (x * x)%D.
Definition hypot (x y : double) : double := dsqrt (x * x + y * y)%D.
Definition hypotf (x y : float) : float :=
  SFsqrt fprec femax (fadd (fmul x x) (fmul y y)).
Definition cos0 (_ : double) : double := d_of_Z 1.
Definition sin0 (_ : double) : double := d_of_Z 0.

(** Two square sectors of the editor side by side; the east wall of the
    first and the west wall of the second lie on x = 64, and the second is
    twice as high. *)
Definition west : Sector :=
  Fixtures.plain
    [ Fixtures.edge 0 0 64 0 false (-1); Fixtures.edge 64 0 64 64 false (-1);
      Fixtures.edge 64 64 0 64 false (-1); Fixtures.edge 0 64 0 0 false (-1) ].



(** The same two sectors once the east wall of the first is linked. *)
Definition linked : list Sector :=
  [ Fixtures.plain
      [ Fixtures.edge 0 0 64 0 false (-1); Fixtures.edge 64 0 64 64 true 1;
        Fixtures.edge 64 64 0 64 false (-1); Fixtures.edge 0 64 0 0 false (-1) ];
    Fixtures.plain
      [ Fixtures.edge 64 0 128 0 false (-1);
        Fixtures.edge 128 0 128 128 false (-1);
        Fixtures.edge 128 128 64 128 false (-1);
        Fixtures.edge 64 0 64 64 true 0;
        Fixtures.edge 64 64 64 128 false (-1) ] ].

(** Three clicks and the Return key. *)
Definition triangle : list Session.Event :=
  [ Session.LeftClick 10 10; Session.LeftClick 100 40;
    Session.LeftClick 40 100; Session.KeyReturn ].

End Scenes.

(** * Properties *)

(** ** Geometry kernel: ray against segment *)

Section RaySegment.
Import Engine.
Local Open Scope bool_scope.

Variables rayX rayY rayDX rayDY ax ay bx by_ : double.

Let denom := ray_denom rayDX rayDY ax ay bx by_.
Let t := ray_t rayX rayY rayDX rayDY ax ay bx by_.
Let u := ray_u rayX rayY rayDX rayDY ax ay bx by_.


End RaySegment.

(** ** Sector locator *)

Section SectorLocator.
Import Engine.

Variables x y : double.

(** [crossings] counts the walls that pass the crossing test. *)
Lemma crossings_count (ws : list Wall) :
  crossings x y ws = Z.of_nat (length (filter (wallCrosses x y) ws)).
Proof.
  unfold crossings.
  enough (G : forall c,
             fold_left (fun c w => if wallCrosses x y w then c + 1 else c) ws c
             = c + Z.of_nat (length (filter (wallCrosses x y) ws)))
    by (rewrite G; lia).
  induction ws as [|w ws IH]; intros c; cbn [fold_left filter].
  - cbn. lia.
  - rewrite IH. destruct (wallCrosses x y w); cbn [length]; lia.
Qed.

Lemma Zodd_of_nat (n : nat) : Z.odd (Z.of_nat n) = Nat.odd n.
Proof.
  induction n as [|n IH].
  - reflexivity.
  - rewrite Nat2Z.inj_succ, Z.odd_succ, Nat.odd_succ.
    now rewrite <- Z.negb_odd, IH, Nat.negb_odd.
Qed.

(** The containment test is the even-odd rule: an odd number of crossings. *)
Lemma containsPoint_odd (s : Sector) :
  containsPoint x y s = Nat.odd (length (filter (wallCrosses x y) (walls s))).
Proof.
  unfold containsPoint. rewrite crossings_count.
  rewrite Z.rem_mod_nonneg by lia.
  now rewrite <- Zodd_mod, Zodd_of_nat.
Qed.

(** What the scan from index [i] returns: the offset of the first sector
    that contains the point, or -1 when none does. *)
Lemma getSectorFrom_scan (ss : list Sector) :
  forall i, 0 <= i ->
    (getSectorFrom i ss x y = -1
     /\ forall s, In s ss -> containsPoint x y s = false)
    \/ (exists k s,
          nth_error ss k = Some s /\ containsPoint x y s = true
          /\ (forall j s', (j < k)%nat -> nth_error ss j = Some s' ->
                           containsPoint x y s' = false)
          /\ getSectorFrom i ss x y = i + Z.of_nat k).
Proof.
  induction ss as [|s ss IH]; intros i Hi; cbn [getSectorFrom].
  - left. split; [reflexivity | intros s []].
  - destruct (containsPoint x y s) eqn:Hs.
    + right. exists 0%nat, s. repeat split; auto; [intros j s' Hj; lia | cbn; lia].
    + destruct (IH (i + 1) ltac:(lia)) as [[E A] | (k & s0 & Hk & Hc & Hlt & E)].
      * left. split; [exact E|]. intros s' [<- | Hin]; auto.
      * right. exists (S k), s0. repeat split; auto.
        -- intros [|j] s' Hj Hn; cbn in Hn.
           ++ now inversion Hn; subst.
           ++ apply (Hlt j); [lia | exact Hn].
        -- rewrite E. lia.
Qed.

Lemma getSectorForPosition_cases (sectors : list Sector) :
  (getSectorForPosition sectors x y = -1
   /\ forall s, In s sectors -> containsPoint x y s = false)
  \/ (exists k s,
        nth_error sectors k = Some s /\ containsPoint x y s = true
        /\ (forall j s', (j < k)%nat -> nth_error sectors j = Some s' ->
                         containsPoint x y s' = false)
        /\ getSectorForPosition sectors x y = Z.of_nat k).
Proof.
  unfold getSectorForPosition.
  destruct (getSectorFrom_scan sectors 0 ltac:(lia)) as [H | (k & s & H)].
  - now left.
  - right. exists k, s. now rewrite Z.add_0_l in H.
Qed.

(** The sector found is the first match. *)
Lemma getSectorForPosition_first (sectors : list Sector) (i : nat) (s : Sector) :
  nth_error sectors i = Some s ->
  containsPoint x y s = true ->
  (forall j s', (j < i)%nat -> nth_error sectors j = Some s' ->
                containsPoint x y s' = false) ->
  getSectorForPosition sectors x y = Z.of_nat i.
Proof.
  intros Hi Hs Hlt.
  destruct (getSectorForPosition_cases sectors)
    as [[_ A] | (k & s0 & Hk & Hc & Hlt' & ->)].
  - apply nth_error_In in Hi. rewrite (A s Hi) in Hs. discriminate.
  - f_equal. destruct (Nat.lt_trichotomy k i) as [L | [E | G]]; auto.
    + rewrite (Hlt k s0 L Hk) in Hc. discriminate.
    + rewrite (Hlt' i s G Hi) in Hs. discriminate.
Qed.

End SectorLocator.

(** ** The order of binary64 values *)

Section DoubleOrder.

Lemma dltb_nan_l (b : double) : (S754_nan <? b)%D = false.
Proof. reflexivity. Qed.

Lemma dltb_nan_r (a : double) : (a <? S754_nan)%D = false.
Proof. now destruct a. Qed.

Lemma dltb_rank (a b : double) (ka kb : Z * Z * Z) :
  drank a = Some ka -> drank b = Some kb ->
  ((a <? b)%D = true <-> rank_lt ka kb).
Proof.
  unfold dltb, SFltb, SFcompare, rank_lt.
  destruct a as [[|]|[|]| |[|] ma ea], b as [[|]|[|]| |[|] mb eb];
    cbn [drank]; intros Ha Hb; inversion Ha; inversion Hb; subst; clear Ha Hb;
    try (split; [discriminate | lia]);
    try (split; [intros _; lia | reflexivity]).
  - rewrite Pos.compare_cont_spec; cbn [Pos.switch_Eq].
    destruct (Z.compare_spec ea eb), (Pos.compare_spec ma mb); cbn;
      (split; [try discriminate; try lia | try reflexivity; try lia]).
  - rewrite Pos.compare_cont_spec; cbn [Pos.switch_Eq].
    destruct (Z.compare_spec ea eb), (Pos.compare_spec ma mb); cbn;
      (split; [try discriminate; try lia | try reflexivity; try lia]).
Qed.

Lemma dltb_ranked_l (a b : double) :
  (a <? b)%D = true -> exists k, drank a = Some k.
Proof. destruct a as [[|]|[|]| |[|] ma ea]; cbn; eauto; discriminate. Qed.

Lemma dltb_ranked_r (a b : double) :
  (a <? b)%D = true -> exists k, drank b = Some k.
Proof.
  destruct b as [[|]|[|]| |[|] mb eb]; cbn; eauto.
  now rewrite dltb_nan_r.
Qed.

Lemma rank_lt_trans (k1 k2 k3 : Z * Z * Z) :
  rank_lt k1 k2 -> rank_lt k2 k3 -> rank_lt k1 k3.
Proof.
  destruct k1 as [[a1 b1] c1], k2 as [[a2 b2] c2], k3 as [[a3 b3] c3].
  unfold rank_lt. lia.
Qed.

Lemma rank_lt_total (k1 k2 k3 : Z * Z * Z) :
  rank_lt k1 k3 -> ~ rank_lt k2 k3 -> rank_lt k1 k2.
Proof.
  destruct k1 as [[a1 b1] c1], k2 as [[a2 b2] c2], k3 as [[a3 b3] c3].
  unfold rank_lt. lia.
Qed.

Lemma dltb_trans (a b c : double) :
  (a <? b)%D = true -> (b <? c)%D = true -> (a <? c)%D = true.
Proof.
  intros Hab Hbc.
  destruct (dltb_ranked_l _ _ Hab) as [ka Ka].
  destruct (dltb_ranked_l _ _ Hbc) as [kb Kb].
  destruct (dltb_ranked_r _ _ Hbc) as [kc Kc].
  apply (dltb_rank _ _ _ _ Ka Kc).
  eapply rank_lt_trans; [apply (dltb_rank _ _ _ _ Ka Kb) | apply (dltb_rank _ _ _ _ Kb Kc)];
    assumption.
Qed.

(** Below [c] and not above: for a [b] that is no NaN (here: positive). *)
Lemma dltb_lt_nlt (a b c : double) :
  (a <? c)%D = true -> (dzero <? b)%D = true -> (b <? c)%D = false ->
  (a <? b)%D = true.
Proof.
  intros Hac Hb Hbc.
  destruct (dltb_ranked_l _ _ Hac) as [ka Ka].
  destruct (dltb_ranked_r _ _ Hac) as [kc Kc].
  destruct (dltb_ranked_r _ _ Hb) as [kb Kb].
  apply (dltb_rank _ _ _ _ Ka Kb).
  apply rank_lt_total with kc.
  - now apply (dltb_rank _ _ _ _ Ka Kc).
  - intros H. apply (dltb_rank _ _ _ _ Kb Kc) in H. congruence.
Qed.

Lemma dltb_nlt_lt (a b c : double) :
  (a <? c)%D = true -> (b <? c)%D = false -> (b <? a)%D = false.
Proof.
  intros Hac Hbc. destruct (b <? a)%D eqn:Hba; [|reflexivity].
  now rewrite (dltb_trans _ _ _ Hba Hac) in Hbc.
Qed.

Lemma dltb_irrefl (a : double) : (a <? a)%D = false.
Proof.
  destruct (a <? a)%D eqn:H; [|reflexivity].
  destruct (dltb_ranked_l _ _ H) as [[[k1 k2] k3] K].
  apply (dltb_rank _ _ _ _ K K) in H. unfold rank_lt in H. lia.
Qed.

(** A positive value that is not below +infinity is +infinity. *)
Lemma dltb_infinity (d : double) :
  (dzero <? d)%D = true -> (d <? infinity)%D = false -> d = infinity.
Proof.
  destruct d as [[|]|[|]| |[|] m e]; intros H1 H2;
    solve [reflexivity | discriminate H1 | discriminate H2].
Qed.

End DoubleOrder.

(** ** Portal raycaster: the nearest-hit scan *)

Section NearestHit.
Import Engine.

Variables rayX rayY rayDirX rayDirY : double.

Let hit := hitOf rayX rayY rayDirX rayDirY.
Let step := scanPtr rayX rayY rayDirX rayDirY.
Let Inv := ScanInv rayX rayY rayDirX rayDirY.

Lemma hitOf_positive (q : WallPtr) (d : double) :
  hit q = Some d -> (dzero <? d)%D = true.
Proof.
  unfold hit, hitOf, intersectRayWithSegment.
  destruct (fabs _ <? EPS)%D; [discriminate|].
  destruct (ray_t _ _ _ _ _ _ _ _ >? dzero)%D eqn:Ht; [|discriminate].
  destruct (_ && _)%bool; [|discriminate].
  intros H; inversion H; subst. exact Ht.
Qed.

Lemma scanWalls_fold (si : Z) (ws : list Wall) :
  forall wi st,
    scanWalls rayX rayY rayDirX rayDirY si wi ws st
    = fold_left step (wallsFrom si wi ws) st.
Proof.
  induction ws as [|w ws IH]; intros wi st; cbn; [reflexivity|].
  now rewrite IH.
Qed.

Lemma scanSectors_fold (ss : list Sector) :
  forall si st,
    scanSectors rayX rayY rayDirX rayDirY si ss st
    = fold_left step (wallsInOrderFrom si ss) st.
Proof.
  induction ss as [|s ss IH]; intros si st; cbn; [reflexivity|].
  now rewrite IH, scanWalls_fold, fold_left_app.
Qed.

Lemma scan_start : Inv [] scanStart.
Proof. split; [reflexivity | intros q d []]. Qed.

Lemma scan_step (seen : list WallPtr) (st : Scan) (q : WallPtr) :
  Inv seen st -> Inv (seen ++ [q]) (step st q).
Proof.
  destruct q as [si wi w].
  unfold Inv, ScanInv, step, scanPtr, scanWall. cbn [ptrSector ptrWall target].
  change (intersectRayWithSegment rayX rayY rayDirX rayDirY
            (x1 w) (y1 w) (x2 w) (y2 w)) with (hit (mkWallPtr si wi w)).
  set (q := mkWallPtr si wi w).
  intros I. destruct (hit q) as [d|] eqn:Hq; unfold hit in *.
  - pose proof (hitOf_positive _ _ Hq) as Hd.
    destruct (d <? closestDist st)%D eqn:Hlt.
    + (* a new nearest wall *)
      cbn [hitWall closestDist hitSectorIndex].
      exists seen, []. repeat split; auto; [| intros ? ? []].
      intros q' d' Hin Hq'.
      destruct (hitWall st) as [p|].
      * destruct I as (before & after & -> & _ & Hp & _ & Hb & Ha).
        apply in_app_or in Hin. destruct Hin as [Hin | [<- | Hin]].
        -- eapply dltb_trans; [exact Hlt | eauto].
        -- rewrite Hp in Hq'. now inversion Hq'; subst.
        -- eapply dltb_lt_nlt; [exact Hlt | | eauto].
           eapply hitOf_positive; eauto.
      * destruct I as [E A]. rewrite (A _ _ Hin Hq'). now rewrite E in Hlt.
    + (* the wall is not nearer: the locals are kept *)
      destruct (hitWall st) as [p|].
      * destruct I as (before & after & -> & Hs & Hp & Hpos & Hb & Ha).
        exists before, (after ++ [q]). repeat split; auto.
        -- now rewrite <- app_assoc.
        -- intros q' d' Hin Hq'. apply in_app_or in Hin.
           destruct Hin as [Hin | [<- | []]]; [eauto|].
           rewrite Hq in Hq'. now inversion Hq'; subst.
      * destruct I as [E A]. split; [exact E|].
        intros q' d' Hin Hq'. apply in_app_or in Hin.
        destruct Hin as [Hin | [<- | []]]; [eauto|].
        rewrite Hq in Hq'. inversion Hq'; subst d'.
        rewrite E in Hlt. now apply dltb_infinity.
  - (* no intersection *)
    destruct (hitWall st) as [p|].
    + destruct I as (before & after & -> & Hs & Hp & Hpos & Hb & Ha).
      exists before, (after ++ [q]). repeat split; auto.
      * now rewrite <- app_assoc.
      * intros q' d' Hin Hq'. apply in_app_or in Hin.
        destruct Hin as [Hin | [<- | []]]; [eauto|].
        congruence.
    + destruct I as [E A]. split; [exact E|].
      intros q' d' Hin Hq'. apply in_app_or in Hin.
      destruct Hin as [Hin | [<- | []]]; [eauto|].
      congruence.
Qed.

Lemma scan_fold (l : list WallPtr) :
  forall seen st, Inv seen st -> Inv (seen ++ l) (fold_left step l st).
Proof.
  induction l as [|q l IH]; intros seen st I; cbn [fold_left].
  - now rewrite app_nil_r.
  - replace (seen ++ q :: l) with ((seen ++ [q]) ++ l)
      by now rewrite <- app_assoc.
    apply IH. now apply scan_step.
Qed.

(** The locals after the two nested loops. *)
Lemma nearestHit_inv (sectors : list Sector) :
  Inv (wallsInOrder sectors) (nearestHit sectors rayX rayY rayDirX rayDirY).
Proof.
  unfold nearestHit, wallsInOrder. rewrite scanSectors_fold.
  apply (scan_fold _ [] scanStart scan_start).
Qed.

End NearestHit.

(** ** The enumeration visits every wall of every sector *)

Section WallsInOrder.
Import Engine.

Lemma sector_at_nth (sectors : list Sector) (k : nat) :
  sector_at sectors (Z.of_nat k) = nth_error sectors k.
Proof.
  unfold sector_at. destruct (Z.ltb_spec (Z.of_nat k) 0); [lia|].
  now rewrite Nat2Z.id.
Qed.

Lemma sector_at_Some (sectors : list Sector) (i : Z) (s : Sector) :
  sector_at sectors i = Some s ->
  0 <= i < Z.of_nat (length sectors) /\ nth_error sectors (Z.to_nat i) = Some s.
Proof.
  unfold sector_at. destruct (Z.ltb_spec i 0); [discriminate|].
  intros E. split; [|exact E].
  assert (Z.to_nat i < length sectors)%nat
    by (apply nth_error_Some; congruence).
  lia.
Qed.

Lemma wallsFrom_In (si : Z) (ws : list Wall) :
  forall wi p,
    In p (wallsFrom si wi ws)
    <-> ptrSector p = si
        /\ exists k, ptrWall p = (wi + k)%nat /\ nth_error ws k = Some (target p).
Proof.
  induction ws as [|w ws IH]; intros wi p; cbn [wallsFrom In].
  - split; [intros [] | intros (_ & [|k] & _ & H); discriminate].
  - rewrite IH. split.
    + intros [<- | (Hs & k & Hk & Hn)].
      * split; [reflexivity|]. exists 0%nat. cbn. split; [lia | reflexivity].
      * split; [exact Hs|]. exists (S k). split; [lia | exact Hn].
    + intros (Hs & [|k] & Hk & Hn); cbn in Hn.
      * left. destruct p as [ps pw pt]; cbn in *. inversion Hn; subst.
        f_equal. lia.
      * right. split; [exact Hs|]. exists k. split; [lia | exact Hn].
Qed.

Lemma wallsInOrderFrom_In (ss : list Sector) :
  forall si p,
    In p (wallsInOrderFrom si ss)
    <-> exists k s, ptrSector p = si + Z.of_nat k
                    /\ nth_error ss k = Some s
                    /\ nth_error (walls s) (ptrWall p) = Some (target p).
Proof.
  induction ss as [|s ss IH]; intros si p; cbn [wallsInOrderFrom In].
  - split; [intros [] | intros ([|k] & s & _ & H & _); discriminate].
  - rewrite in_app_iff, wallsFrom_In, IH. split.
    + intros [(Hs & k & Hk & Hn) | (k & s' & Hs & Hk & Hn)].
      * exists 0%nat, s. cbn. repeat split; [lia | now rewrite Hk].
      * exists (S k), s'. cbn. repeat split; [lia | exact Hk | exact Hn].
    + intros ([|k] & s' & Hs & Hk & Hn); cbn in Hk.
      * left. inversion Hk; subst s'. split; [lia|].
        exists (ptrWall p). split; [lia | exact Hn].
      * right. exists k, s'. repeat split; [lia | exact Hk | exact Hn].
Qed.

(** Every wall of every sector is visited, at its own place, and nothing
    else is. *)
Lemma wallsInOrder_In (sectors : list Sector) (p : WallPtr) :
  In p (wallsInOrder sectors)
  <-> exists s, sector_at sectors (ptrSector p) = Some s
                /\ nth_error (walls s) (ptrWall p) = Some (target p).
Proof.
  unfold wallsInOrder. rewrite wallsInOrderFrom_In. split.
  - intros (k & s & Hs & Hk & Hn). exists s. split; [|exact Hn].
    now rewrite Hs, Z.add_0_l, sector_at_nth.
  - intros (s & Hs & Hn). apply sector_at_Some in Hs. destruct Hs as [R Hs].
    exists (Z.to_nat (ptrSector p)), s. repeat split; [lia | exact Hs | exact Hn].
Qed.

(** The sector index kept with a hit designates a sector of the map. *)
Lemma nearestHit_sector (sectors : list Sector)
    (rayX rayY rayDirX rayDirY : double) (hw : WallPtr) :
  hitWall (nearestHit sectors rayX rayY rayDirX rayDirY) = Some hw ->
  exists s,
    sector_at sectors
      (hitSectorIndex (nearestHit sectors rayX rayY rayDirX rayDirY)) = Some s.
Proof.
  intros H. pose proof (nearestHit_inv rayX rayY rayDirX rayDirY sectors) as I.
  unfold ScanInv in I. rewrite H in I.
  destruct I as (before & after & E & Hs & _).
  assert (Hin : In hw (wallsInOrder sectors))
    by (rewrite E; apply in_or_app; right; now left).
  apply wallsInOrder_In in Hin. destruct Hin as (s & Hsec & _).
  exists s. now rewrite Hs.
Qed.

End WallsInOrder.

(** ** Portal raycaster: the depth loop *)

Section PortalLoopTotal.
Import Engine.

Lemma portalLoop_total_at (sectors : list Sector) (x : Z)
    (playerHeight rayDirX rayDirY : double) (n : nat) :
  forall rayX rayY totalDist,
    exists segs,
      portalLoop sectors x playerHeight rayDirX rayDirY n rayX rayY totalDist
      = Some segs.
Proof.
  induction n as [|n IH]; intros rayX rayY totalDist; cbn [portalLoop];
    [eauto|].
  destruct (hitWall (nearestHit sectors rayX rayY rayDirX rayDirY))
    as [hw|] eqn:Hhw; [|eauto].
  destruct (nearestHit_sector _ _ _ _ _ _ Hhw) as [s ->].
  destruct (negb (isPortal (target hw))); [eauto|].
  destruct (_ || _)%bool; [eauto|].
  match goal with
  | |- context [portalLoop _ _ _ _ _ n ?a ?b ?c] =>
      destruct (IH a b c) as (rest & ->)
  end.
  eauto.
Qed.

End PortalLoopTotal.

Section PortalLoop.
Import Engine.

Variable sectors : list Sector.
Variable x : Z.
Variables playerHeight rayDirX rayDirY : double.

Let loop := portalLoop sectors x playerHeight rayDirX rayDirY.

(** The loop finishes without touching [sectors] out of range, after at
    most [n] segments. *)
Lemma portalLoop_total (n : nat) :
  forall rayX rayY totalDist,
    exists segs, loop n rayX rayY totalDist = Some segs
                 /\ (length segs <= n)%nat.
Proof.
  unfold loop.
  induction n as [|n IH]; intros rayX rayY totalDist; cbn [portalLoop].
  - exists []. split; [reflexivity | cbn; lia].
  - destruct (hitWall (nearestHit sectors rayX rayY rayDirX rayDirY))
      as [hw|] eqn:Hhw.
    2: { exists []. split; [reflexivity | cbn; lia]. }
    destruct (nearestHit_sector _ _ _ _ _ _ Hhw) as [s ->].
    destruct (negb (isPortal (target hw))).
    { eexists. split; [reflexivity | cbn; lia]. }
    destruct (_ || _)%bool.
    { eexists. split; [reflexivity | cbn; lia]. }
    match goal with
    | |- context [portalLoop _ _ _ _ _ n ?a ?b ?c] =>
        destruct (IH a b c) as (rest & -> & Hlen)
    end.
    eexists. split; [reflexivity | cbn; lia].
Qed.

(** A deeper bound only appends segments. *)
Lemma portalLoop_prefix (n : nat) :
  forall m rayX rayY totalDist a b,
    (n <= m)%nat ->
    loop n rayX rayY totalDist = Some a ->
    loop m rayX rayY totalDist = Some b ->
    a = firstn n b.
Proof.
  unfold loop.
  induction n as [|n IH]; intros m rayX rayY totalDist a b Hnm Ha Hb.
  - cbn in Ha. now inversion Ha.
  - destruct m as [|m]; [lia|]. cbn [portalLoop] in Ha, Hb.
    destruct (hitWall (nearestHit sectors rayX rayY rayDirX rayDirY))
      as [hw|];
      [|inversion Ha; inversion Hb; subst; cbn [firstn]; now rewrite ?firstn_nil].
    destruct (sector_at sectors _) as [s|]; [|discriminate].
    destruct (negb (isPortal (target hw)));
      [inversion Ha; inversion Hb; subst; cbn [firstn]; now rewrite ?firstn_nil|].
    destruct (_ || _)%bool;
      [inversion Ha; inversion Hb; subst; cbn [firstn]; now rewrite ?firstn_nil|].
    destruct (portalLoop _ _ _ _ _ n _ _ _) as [ra|] eqn:Ea; [|discriminate].
    destruct (portalLoop _ _ _ _ _ m _ _ _) as [rb|] eqn:Eb; [|discriminate].
    inversion Ha; inversion Hb; subst. cbn [firstn]. f_equal.
    eapply (IH m); [lia | exact Ea | exact Eb].
Qed.

(** Every segment issues exactly three [drawVerticalLine] calls. *)
Lemma drawSpans_length (c : Z) (h d : double) (s : Sector) (b : bool) :
  length (drawSpans c h d s b) = 3%nat.
Proof. unfold drawSpans. now destruct (_ <? _). Qed.

Lemma portalLoop_three (n : nat) :
  forall rayX rayY totalDist segs,
    loop n rayX rayY totalDist = Some segs ->
    length (drawCalls segs) = (3 * length segs)%nat.
Proof.
  unfold loop, drawCalls.
  induction n as [|n IH]; intros rayX rayY totalDist segs H;
    cbn [portalLoop] in H.
  - now inversion H.
  - destruct (hitWall _) as [hw|]; [|now inversion H].
    destruct (sector_at sectors _) as [s|]; [|discriminate].
    assert (One : forall seg rest,
               segSpans seg = drawSpans x playerHeight (segTotalDist seg) s
                                (isPortal (target hw)) ->
               length (flat_map segSpans rest) = (3 * length rest)%nat ->
               length (flat_map segSpans (seg :: rest))
               = (3 * length (seg :: rest))%nat).
    { intros seg rest E L. cbn [flat_map length].
      rewrite length_app, E, drawSpans_length, L. lia. }
    destruct (negb _); [inversion H; now apply One|].
    destruct (_ || _)%bool; [inversion H; now apply One|].
    destruct (portalLoop _ _ _ _ _ n _ _ _) as [rest|] eqn:E; [|discriminate].
    inversion H. apply One; [reflexivity | eapply IH; eassumption].
Qed.

(** A whole frame touches [sectors] within range only. *)
Lemma renderColumns_total (p : Player) (n : nat) :
  forall c, exists cols,
    renderColumns sectors p playerHeight c n = Some cols.
Proof.
  induction n as [|n IH]; intros c; cbn [renderColumns]; [eauto|].
  unfold renderColumn, renderColumnDepth.
  match goal with
  | |- context [portalLoop ?s ?c0 ?h ?dx ?dy ?k ?a ?b ?t] =>
      destruct (portalLoop_total_at s c0 h dx dy k a b t) as (col & ->)
  end.
  destruct (IH (c + 1)) as (cols & ->). eauto.
Qed.

End PortalLoop.

Lemma renderFrame_total (sectors : list Engine.Sector) (p : Engine.Player) :
  exists cols, Engine.renderFrame sectors p = Some cols.
Proof.
  unfold Engine.renderFrame.
  destruct (getSectorForPosition_cases (Engine.posX p) (Engine.posY p) sectors)
    as [[E _] | (k & s & Hk & _ & _ & E)]; rewrite E.
  - cbn. eauto.
  - destruct (Z.eqb_spec (Z.of_nat k) (-1)); [lia|].
    rewrite sector_at_nth, Hk. apply renderColumns_total.
Qed.

(** ** Sector locator and collision resolver: main results *)

Section Locator.
Import Engine Fixtures.

(** C5: the sectors are scanned in collection order and the index of the
    first one that passes the even-odd crossing test is returned: a point
    inside exactly one sector yields that sector, a point in the overlap of
    two sectors yields the lower index, and a point outside every sector
    yields -1. *)
Theorem getSectorForPosition_first_match (sectors : list Sector) (x y : double) :
  (forall s, containsPoint x y s
             = Nat.odd (length (filter (wallCrosses x y) (walls s))))
  /\ (forall i s,
        nth_error sectors i = Some s ->
        (getSectorForPosition sectors x y = Z.of_nat i
         <-> containsPoint x y s = true
             /\ forall j s', (j < i)%nat -> nth_error sectors j = Some s' ->
                             containsPoint x y s' = false))
  /\ (forall i s,
        nth_error sectors i = Some s -> containsPoint x y s = true ->
        (forall j s', j <> i -> nth_error sectors j = Some s' ->
                      containsPoint x y s' = false) ->
        getSectorForPosition sectors x y = Z.of_nat i)
  /\ (forall i j si sj,
        (i < j)%nat ->
        nth_error sectors i = Some si -> containsPoint x y si = true ->
        nth_error sectors j = Some sj -> containsPoint x y sj = true ->
        (forall k sk, k <> i -> k <> j -> nth_error sectors k = Some sk ->
                      containsPoint x y sk = false) ->
        getSectorForPosition sectors x y = Z.of_nat i)
  /\ (getSectorForPosition sectors x y = -1
      <-> forall s, In s sectors -> containsPoint x y s = false).
Proof.
  split; [apply containsPoint_odd|].
  split; [|split; [|split]].
  - intros i s Hi. split.
    + intros E.
      destruct (getSectorForPosition_cases x y sectors)
        as [[E' _] | (k & s0 & Hk & Hc & Hlt & E')]; [lia|].
      assert (k = i) by lia. subst k.
      rewrite Hi in Hk. inversion Hk; subst s0. now split.
    + intros [Hc Hlt]. now apply getSectorForPosition_first with s.
  - intros i s Hi Hc Hne. apply getSectorForPosition_first with s; auto.
    intros j s' Hj. apply Hne. lia.
  - intros i j si sj Hij Hi Hci Hj Hcj Hne.
    apply getSectorForPosition_first with si; auto.
    intros k sk Hk. apply Hne; lia.
  - split.
    + intros E s Hin.
      destruct (getSectorForPosition_cases x y sectors)
        as [[_ A] | (k & s0 & _ & _ & _ & E')]; [auto | lia].
    + intros A.
      destruct (getSectorForPosition_cases x y sectors)
        as [[E _] | (k & s0 & Hk & Hc & _)]; [exact E|].
      apply nth_error_In in Hk. rewrite (A _ Hk) in Hc. discriminate.
Qed.

(** C10: the sector locator returns -1 or an index of the collection, so
    that the access [sectors[sector]] of the collision resolver, guarded by
    the test against -1, is always in range. *)
Theorem getSectorForPosition_in_bounds (sectors : list Sector) (x y : double) :
  (getSectorForPosition sectors x y = -1
   \/ 0 <= getSectorForPosition sectors x y < Z.of_nat (length sectors))
  /\ (getSectorForPosition sectors x y <> -1 ->
      exists s, sector_at sectors (getSectorForPosition sectors x y) = Some s)
  /\ exists b, isMovementBlocked sectors x y = Some b.
Proof.
  unfold isMovementBlocked.
  destruct (getSectorForPosition_cases x y sectors)
    as [[E _] | (k & s & Hk & _ & _ & E)]; rewrite E.
  - split; [now left|]. split; [congruence|]. now exists true.
  - assert (k < length sectors)%nat by (apply nth_error_Some; congruence).
    split; [right; lia|]. rewrite sector_at_nth, Hk.
    split; [intros _; now exists s|].
    destruct (Z.eqb_spec (Z.of_nat k) (-1)); [lia|]. eauto.
Qed.

(** C2: a position outside every sector is blocked; inside, it is blocked
    exactly when some non-portal wall of the containing sector is nearer
    than the collision radius 0.1, and portal walls never block.  With the
    solid wall (0,0)-(0,5): (0.05, 2) is blocked and (0.15, 2) is not. *)
Theorem isMovementBlocked_spec (sectors : list Sector) (newX newY : double) :
  ((forall s, In s sectors -> containsPoint newX newY s = false) ->
   isMovementBlocked sectors newX newY = Some true)
  /\ (forall i s,
        getSectorForPosition sectors newX newY = Z.of_nat i ->
        nth_error sectors i = Some s ->
        exists b,
          isMovementBlocked sectors newX newY = Some b
          /\ (b = true
              <-> exists w, In w (walls s) /\ isPortal w = false
                            /\ (pointToSegmentDistance newX newY
                                  (x1 w) (y1 w) (x2 w) (y2 w)
                                <? COLLISION_RADIUS)%D = true)
          /\ ((forall w, In w (walls s) -> isPortal w = true) -> b = false))
  /\ (COLLISION_RADIUS = dlit 1 10
      /\ isMovementBlocked [squareRoom] (dlit 5 100) (d_of_Z 2) = Some true
      /\ isMovementBlocked [squareRoom] (dlit 15 100) (d_of_Z 2) = Some false
      /\ isMovementBlocked [squareRoomPortal] (dlit 5 100) (d_of_Z 2)
         = Some false).
Proof.
  split; [|split].
  - intros A. unfold isMovementBlocked.
    destruct (getSectorForPosition_cases newX newY sectors)
      as [[E _] | (k & s0 & Hk & Hc & _)]; [now rewrite E|].
    apply nth_error_In in Hk. rewrite (A _ Hk) in Hc. discriminate.
  - intros i s E Hs. unfold isMovementBlocked. rewrite E, sector_at_nth, Hs.
    destruct (Z.eqb_spec (Z.of_nat i) (-1)); [lia|].
    eexists. split; [reflexivity|]. split.
    + rewrite existsb_exists. unfold wallBlocks. split.
      * intros (w & Hin & Hb). apply andb_true_iff in Hb. destruct Hb as [P D].
        exists w. repeat split; auto. now apply negb_true_iff.
      * intros (w & Hin & P & D). exists w. split; [exact Hin|].
        now rewrite P, D.
    + intros A. apply not_true_is_false. rewrite existsb_exists.
      intros (w & Hin & Hb). unfold wallBlocks in Hb.
      now rewrite (A w Hin) in Hb.
  - repeat split; vm_compute; reflexivity.
Qed.

End Locator.

(** ** Portal raycaster: main results *)

Section Raycaster.
Import Engine Fixtures.



(** The calls of the first [n] segments are the first [3 n] calls. *)
Lemma drawCalls_firstn (segs : list Segment) :
  Forall (fun seg => length (segSpans seg) = 3%nat) segs ->
  forall n, drawCalls (firstn n segs) = firstn (3 * n) (drawCalls segs).
Proof.
  unfold drawCalls. induction 1 as [|seg segs H3 _ IH]; intros n.
  - now rewrite !firstn_nil.
  - destruct n as [|n]; [reflexivity|]. cbn [firstn flat_map].
    rewrite IH. replace (3 * S n)%nat with (length (segSpans seg) + 3 * n)%nat
      by lia.
    now rewrite firstn_app_2.
Qed.

Lemma portalLoop_spans (sectors : list Sector) (x : Z)
    (playerHeight rayDirX rayDirY : double) (n : nat) :
  forall rayX rayY totalDist segs,
    portalLoop sectors x playerHeight rayDirX rayDirY n rayX rayY totalDist
    = Some segs ->
    Forall (fun seg => length (segSpans seg) = 3%nat) segs.
Proof.
  induction n as [|n IH]; intros rayX rayY totalDist segs H;
    cbn [portalLoop] in H.
  - inversion H. constructor.
  - destruct (hitWall _) as [hw|]; [|inversion H; constructor].
    destruct (sector_at sectors _) as [s|]; [|discriminate].
    destruct (negb _);
      [inversion H; repeat constructor; apply drawSpans_length|].
    destruct (_ || _)%bool;
      [inversion H; repeat constructor; apply drawSpans_length|].
    destruct (portalLoop _ _ _ _ _ n _ _ _) as [rest|] eqn:E; [|discriminate].
    inversion H. constructor; [apply drawSpans_length | eapply IH; eassumption].
Qed.

(** C6: the depth loop of a column runs at most [MAX_PORTAL_DEPTH] = 10
    times: the column always finishes, with at most 10 segments and 30
    draw calls, and they are the first 10 segments (the first 30 calls) of
    what any deeper bound would draw. *)
Theorem renderColumn_depth_bound (sectors : list Sector) (p : Player)
    (playerHeight : double) (x : Z) :
  MAX_PORTAL_DEPTH = 10%nat
  /\ exists segs,
       renderColumn sectors p playerHeight x = Some segs
       /\ (length segs <= 10)%nat
       /\ length (drawCalls segs) = (3 * length segs)%nat
       /\ (length (drawCalls segs) <= 30)%nat
       /\ forall depth deeper,
            (10 <= depth)%nat ->
            renderColumnDepth depth sectors p playerHeight x = Some deeper ->
            segs = firstn 10 deeper
            /\ drawCalls segs = firstn 30 (drawCalls deeper).
Proof.
  split; [reflexivity|].
  unfold renderColumn, renderColumnDepth, MAX_PORTAL_DEPTH.
  set (rdx := (dirX p + planeX p * cameraX x)%D).
  set (rdy := (dirY p + planeY p * cameraX x)%D).
  destruct (portalLoop_total sectors x playerHeight rdx rdy 10
              (posX p) (posY p) dzero) as (segs & E & L).
  exists segs. split; [exact E|]. split; [exact L|].
  pose proof (portalLoop_three _ _ _ _ _ _ _ _ _ _ E) as T.
  split; [exact T|]. split; [lia|].
  intros depth deeper Hd Ed.
  pose proof (portalLoop_prefix _ _ _ _ _ _ _ _ _ _ _ _ Hd E Ed) as P.
  split; [exact P|].
  rewrite P. apply (drawCalls_firstn deeper (portalLoop_spans _ _ _ _ _ _ _ _ _ _ Ed) 10).
Qed.

(** C7: when the wall hit is a portal whose adjoining-sector index is out of
    range, the column stops at that hit: its three spans are the last ones
    drawn, and no access to the sector collection is out of range. *)
Theorem invalid_portal_is_dead_end (sectors : list Sector) (x : Z)
    (playerHeight rayDirX rayDirY : double) (n : nat)
    (rayX rayY totalDist : double) (hw : WallPtr) :
  hitWall (nearestHit sectors rayX rayY rayDirX rayDirY) = Some hw ->
  isPortal (target hw) = true ->
  adjoiningSector (target hw) < 0
  \/ Z.of_nat (length sectors) <= adjoiningSector (target hw) ->
  exists seg,
    portalLoop sectors x playerHeight rayDirX rayDirY (S n)
      rayX rayY totalDist = Some [seg]
    /\ segWall seg = hw
    /\ exists s, sector_at sectors (segSector seg) = Some s.
Proof.
  intros Hhw Hp Hadj. cbn [portalLoop]. rewrite Hhw.
  destruct (nearestHit_sector _ _ _ _ _ _ Hhw) as [s Hs].
  rewrite Hs, Hp. cbn [negb].
  assert (G : ((adjoiningSector (target hw) <? 0)
               || (adjoiningSector (target hw) >=? Z.of_nat (length sectors)))%bool
              = true).
  { apply orb_true_iff. destruct Hadj; [left | right].
    - now apply Z.ltb_lt.
    - apply Z.geb_le. lia. }
  rewrite G. eexists. split; [reflexivity|]. cbn [segWall segSector].
  split; [reflexivity | now exists s].
Qed.

End Raycaster.

(** ** The engine's test scenarios *)

Section EngineScenarios.
Import Engine Fixtures.


(** (3,1) lies in the first two rooms of [overlapping], (11,1) in the third
    only, (8,1) in none. *)
Lemma getSectorForPosition_first_match_witness :
  getSectorForPosition overlapping (d_of_Z 3) (d_of_Z 1) = 0
  /\ getSectorForPosition overlapping (d_of_Z 11) (d_of_Z 1) = 2
  /\ getSectorForPosition overlapping (d_of_Z 8) (d_of_Z 1) = -1.
Proof.
  split; [|split].
  - destruct (getSectorForPosition_first_match overlapping (d_of_Z 3) (d_of_Z 1))
      as (_ & _ & _ & H & _).
    refine (H 0%nat 1%nat _ _ _ eq_refl _ eq_refl _ _);
      [lia | vm_compute; reflexivity | vm_compute; reflexivity |].
    intros [|[|[|k]]] sk H0 H1 Hk; try congruence; cbn in Hk.
    + inversion Hk; subst sk. vm_compute; reflexivity.
    + destruct k; discriminate.
  - destruct (getSectorForPosition_first_match overlapping (d_of_Z 11) (d_of_Z 1))
      as (_ & _ & H & _).
    refine (H 2%nat _ eq_refl _ _); [vm_compute; reflexivity|].
    intros [|[|[|k]]] sk H2 Hk; try congruence; cbn in Hk.
    + inversion Hk; subst sk. vm_compute; reflexivity.
    + inversion Hk; subst sk. vm_compute; reflexivity.
    + destruct k; discriminate.
  - destruct (getSectorForPosition_first_match overlapping (d_of_Z 8) (d_of_Z 1))
      as (_ & _ & _ & _ & H).
    apply H. intros s [<- | [<- | [<- | []]]]; vm_compute; reflexivity.
Defined.

Lemma getSectorForPosition_in_bounds_witness :
  exists s,
    sector_at overlapping
      (getSectorForPosition overlapping (d_of_Z 11) (d_of_Z 1)) = Some s.
Proof.
  apply (proj1 (proj2 (getSectorForPosition_in_bounds overlapping
                         (d_of_Z 11) (d_of_Z 1)))).
  vm_compute. discriminate.
Defined.

(** The two positions of the collision scenario, through the
    characterisation: the west wall is 0.05 from the first and no solid
    wall is within 0.1 of the second. *)
Lemma isMovementBlocked_spec_witness :
  isMovementBlocked [squareRoom] (dlit 5 100) (d_of_Z 2) = Some true
  /\ isMovementBlocked [squareRoom] (dlit 15 100) (d_of_Z 2) = Some false.
Proof.
  split.
  - destruct (proj1 (proj2 (isMovementBlocked_spec [squareRoom]
                              (dlit 5 100) (d_of_Z 2)))
                0%nat squareRoom eq_refl eq_refl) as (b & E & Hb & _).
    rewrite E. f_equal. apply Hb. exists (solid 0 0 0 5).
    split; [now left | split; vm_compute; reflexivity].
  - destruct (proj1 (proj2 (isMovementBlocked_spec [squareRoom]
                              (dlit 15 100) (d_of_Z 2)))
                0%nat squareRoom eq_refl eq_refl) as (b & E & Hb & _).
    rewrite E. f_equal. apply not_true_is_false. intros Hbt.
    apply Hb in Hbt. destruct Hbt as (w & Hin & _ & Hd).
    destruct Hin as [<- | [<- | [<- | [<- | []]]]]; vm_compute in Hd;
      discriminate.
Defined.


(** The depth-bound scenario: in a corridor of 12 cells the ray crosses 11
    portals before the end wall; the column draws the first 10 segments. *)
Lemma renderColumn_depth_bound_witness :
  exists segs deeper,
    renderColumn (corridor 12) (viewerAt 1 1) (d_of_Z 1) middle = Some segs
    /\ renderColumnDepth 20 (corridor 12) (viewerAt 1 1) (d_of_Z 1) middle
       = Some deeper
    /\ length deeper = 12%nat
    /\ segs = firstn 10 deeper
    /\ length (drawCalls segs) = 30%nat.
Proof.
  destruct (renderColumn_depth_bound (corridor 12) (viewerAt 1 1)
              (d_of_Z 1) middle) as (_ & segs & E & _ & T & _ & P).
  destruct (renderColumnDepth 20 (corridor 12) (viewerAt 1 1) (d_of_Z 1) middle)
    as [deeper|] eqn:Ed; [|vm_compute in Ed; discriminate].
  assert (L : length deeper = 12%nat).
  { apply (f_equal (option_map (@length Segment))) in Ed.
    vm_compute in Ed. cbn in Ed. now inversion Ed. }
  destruct (P 20%nat deeper ltac:(lia) Ed) as [F _].
  exists segs, deeper. repeat split; auto.
  rewrite T, F, length_firstn, L. reflexivity.
Defined.

(** A portal that refers to sector 7 of a one-sector map. *)
Lemma invalid_portal_is_dead_end_witness :
  exists seg,
    portalLoop danglingRoom middle (d_of_Z 1) (d_of_Z 1) (d_of_Z 0) 10
      (d_of_Z 1) (d_of_Z 1) dzero = Some [seg]
    /\ segWall seg = mkWallPtr 0 1 (portal 2 0 2 2 7)
    /\ exists s, sector_at danglingRoom (segSector seg) = Some s.
Proof.
  apply invalid_portal_is_dead_end.
  - vm_compute; reflexivity.
  - reflexivity.
  - right. cbn. lia.
Defined.

End EngineScenarios.

(** ** Editor: deleting a sector *)

Section DeleteSector.
Import Editor Fixtures.

Lemma shiftDown_unlink (k : Z) (w : Wall) :
  shiftDown k (unlink k w) = renumbered k w.
Proof.
  unfold shiftDown, unlink, renumbered.
  destruct w as [a b [|] j]; cbn [isPortal adjoiningSector p1 p2 negb andb];
    [|reflexivity].
  destruct (Z.eqb_spec j k) as [->|Hjk]; cbn [isPortal adjoiningSector andb].
  - reflexivity.
  - destruct (Z.ltb_spec k j); cbn [isPortal adjoiningSector p1 p2 andb].
    + destruct (Z.ltb_spec k (j - 1)), (Z.eqb_spec j (k + 1)),
        (Z.ltb_spec (k + 1) j); try lia; try reflexivity.
      f_equal. lia.
    + destruct (Z.ltb_spec k j), (Z.eqb_spec j (k + 1)),
        (Z.ltb_spec (k + 1) j); try lia; reflexivity.
Qed.

Lemma erase_map (f : Sector -> Sector) (k : nat) (ss : list Sector) :
  erase k (map f ss) = map f (erase k ss).
Proof. unfold erase. now rewrite map_app, firstn_map, skipn_map. Qed.

(** C9, what the code does: in the sectors that remain, a portal to the
    deleted sector [k] becomes a solid wall with link -1 and a portal to
    sector [k + 1] is renumbered [k]; but a portal to a sector [j > k + 1]
    is shifted by both passes and ends at [j - 2] instead of [j - 1]. *)
Theorem deleteSector_renumbering (k : Z) (sectors : list Sector) :
  0 <= k < Z.of_nat (length sectors) ->
  deleteSector k sectors
  = map (mapWalls (renumbered k)) (erase (Z.to_nat k) sectors)
  /\ (forall w, isPortal w = true -> adjoiningSector w = k ->
        isPortal (renumbered k w) = false
        /\ adjoiningSector (renumbered k w) = -1)
  /\ (forall w, isPortal w = true -> adjoiningSector w = k + 1 ->
        adjoiningSector (renumbered k w) = adjoiningSector w - 1)
  /\ (forall w, isPortal w = true -> k + 1 < adjoiningSector w ->
        adjoiningSector (renumbered k w) = adjoiningSector w - 2).
Proof.
  intros Hk. split; [|split; [|split]].
  - unfold deleteSector.
    destruct (Z.ltb_spec k 0); [lia|].
    destruct (Z.geb_spec k (Z.of_nat (length sectors))); [lia|].
    cbn [orb]. rewrite erase_map, map_map. apply map_ext.
    intros sec. unfold mapWalls. cbn [walls floorHeight ceilingHeight].
    f_equal. rewrite map_map. apply map_ext. apply shiftDown_unlink.
  - intros w P E. unfold renumbered. rewrite P, E, Z.eqb_refl. now cbn.
  - intros w P E. unfold renumbered. rewrite P, E. cbn [negb].
    destruct (Z.eqb_spec (k + 1) k); [lia|]. now rewrite Z.eqb_refl.
  - intros w P L. unfold renumbered. rewrite P. cbn [negb].
    destruct (Z.eqb_spec (adjoiningSector w) k); [lia|].
    destruct (Z.eqb_spec (adjoiningSector w) (k + 1)); [lia|].
    destruct (Z.ltb_spec (k + 1) (adjoiningSector w)); [reflexivity | lia].
Qed.

(** Deleting sector 1 of [fourSectors]: the old sector 3 is now sector 2,
    but the portal that led to it is left pointing at sector 1. *)
Lemma deleteSector_renumbering_witness :
  deleteSector 1 fourSectors
  = [ plain [edge 0 0 32 0 true 1; edge 32 0 32 32 true 1;
             edge 32 32 0 32 false (-1); edge 0 32 0 0 false (-1)];
      plain [edge 32 0 64 0 true 0];
      plain [edge 0 0 32 0 true 0] ].
Proof.
  rewrite (proj1 (deleteSector_renumbering 1 fourSectors
                    ltac:(cbn; lia))).
  reflexivity.
Defined.

End DeleteSector.

(** ** Formatted text: what is written is read back *)

Section TextFacts.
Import Ascii Text.

Lemma code_range (c : ascii) : 0 <= code c < 256.
Proof. unfold code. pose proof (nat_ascii_bounded c). lia. Qed.

Lemma code_ascii_of_nat (n : nat) :
  (n < 256)%nat -> code (ascii_of_nat n) = Z.of_nat n.
Proof. intros H. unfold code. now rewrite nat_ascii_embedding. Qed.

Lemma code_digitChar (d : Z) : 0 <= d < 10 -> code (digitChar d) = 48 + d.
Proof.
  intros H. unfold digitChar. rewrite code_ascii_of_nat; lia.
Qed.

Lemma isdigit_code (c : ascii) : isdigit c = true <-> 48 <= code c <= 57.
Proof. unfold isdigit. rewrite andb_true_iff, !Z.leb_le. tauto. Qed.

Lemma isspace_code (c : ascii) :
  isspace c = true <-> code c = 32 \/ 9 <= code c <= 13.
Proof.
  unfold isspace. rewrite orb_true_iff, andb_true_iff, Z.eqb_eq, !Z.leb_le.
  tauto.
Qed.

Lemma is_char_code (a c : ascii) : is_char a c = true <-> code a = code c.
Proof. unfold is_char. apply Z.eqb_eq. Qed.

Lemma is_char_neq (a c : ascii) : code a <> code c -> is_char a c = false.
Proof. unfold is_char. apply Z.eqb_neq. Qed.

Lemma isdigit_digitChar (d : Z) : 0 <= d < 10 -> isdigit (digitChar d) = true.
Proof. intros H. apply isdigit_code. rewrite code_digitChar; lia. Qed.

Lemma digitVal_digitChar (d : Z) : 0 <= d < 10 -> digitVal (digitChar d) = d.
Proof. intros H. unfold digitVal. rewrite code_digitChar; lia. Qed.

Lemma isspace_not_digit (c : ascii) : isspace c = true -> isdigit c = false.
Proof.
  intros H. apply isspace_code in H. apply not_true_is_false. intros D.
  apply isdigit_code in D. lia.
Qed.

Lemma delimited_stops (s : text) : delimited s -> stops s.
Proof.
  destruct s as [|c s]; unfold delimited, stops; auto using isspace_not_digit.
Qed.

Lemma spanDigits_app (ds rest : text) :
  Forall (fun c => isdigit c = true) ds -> stops rest ->
  spanDigits (ds ++ rest) = (ds, rest).
Proof.
  intros D S. induction D as [|c ds Hc _ IH]; cbn [app spanDigits].
  - destruct rest as [|c rest]; [reflexivity|]. unfold stops in S.
    cbn [spanDigits]. now rewrite S.
  - now rewrite Hc, IH.
Qed.

Lemma isdigit_not_space (c : ascii) : isdigit c = true -> isspace c = false.
Proof.
  intros D. apply isdigit_code in D. apply not_true_is_false. intros H.
  apply isspace_code in H. lia.
Qed.

(** *** Decimal digits of an integer *)

Lemma digitsValue_acc (ds : text) (a : Z) :
  fold_left (fun acc c => 10 * acc + digitVal c) ds a
  = a * 10 ^ Z.of_nat (length ds) + digitsValue ds.
Proof.
  unfold digitsValue. revert a.
  induction ds as [|c ds IH]; intros a; cbn [fold_left length].
  - cbn. lia.
  - rewrite IH, (IH (10 * 0 + digitVal c)), Nat2Z.inj_succ, Z.pow_succ_r by lia.
    lia.
Qed.

Lemma digitsValue_cons (c : ascii) (ds : text) :
  digitsValue (c :: ds)
  = digitVal c * 10 ^ Z.of_nat (length ds) + digitsValue ds.
Proof.
  unfold digitsValue at 1. cbn [fold_left]. rewrite digitsValue_acc. lia.
Qed.

Lemma digitsValue_app (a b : text) :
  digitsValue (a ++ b)
  = digitsValue a * 10 ^ Z.of_nat (length b) + digitsValue b.
Proof.
  unfold digitsValue at 1. rewrite fold_left_app.
  fold (digitsValue a). now rewrite digitsValue_acc.
Qed.

Lemma digitsFuel_digits (fuel : nat) :
  forall n acc,
    Forall (fun c => isdigit c = true) acc ->
    Forall (fun c => isdigit c = true) (digitsFuel fuel n acc).
Proof.
  induction fuel as [|fuel IH]; intros n acc H; cbn [digitsFuel]; [exact H|].
  assert (D : Forall (fun c => isdigit c = true) (digitChar (n mod 10) :: acc)).
  { constructor; [|exact H]. apply isdigit_digitChar.
    apply Z.mod_pos_bound. lia. }
  destruct (n / 10 =? 0); [exact D | now apply IH].
Qed.

Lemma digitsFuel_nonempty (fuel : nat) :
  forall n acc, digitsFuel (S fuel) n acc <> [].
Proof.
  induction fuel as [|fuel IH]; intros n acc.
  - cbn. destruct (n / 10 =? 0); discriminate.
  - cbn [digitsFuel]. destruct (n / 10 =? 0); [discriminate|].
    apply (IH (n / 10)).
Qed.

Lemma digitsFuel_value (fuel : nat) :
  forall n acc,
    0 <= n < 2 ^ Z.of_nat fuel -> (0 < fuel)%nat ->
    digitsValue (digitsFuel fuel n acc)
    = n * 10 ^ Z.of_nat (length acc) + digitsValue acc.
Proof.
  induction fuel as [|fuel IH]; intros n acc Hn Hf; [lia|].
  cbn [digitsFuel].
  assert (Hm : 0 <= n mod 10 < 10) by (apply Z.mod_pos_bound; lia).
  assert (E : digitsValue (digitChar (n mod 10) :: acc)
              = n mod 10 * 10 ^ Z.of_nat (length acc) + digitsValue acc)
    by now rewrite digitsValue_cons, digitVal_digitChar.
  pose proof (Z.div_mod n 10 ltac:(lia)) as Hdm.
  destruct (Z.eqb_spec (n / 10) 0) as [Hz|Hz].
  - rewrite E. f_equal. f_equal. lia.
  - assert (Hq : 0 < n / 10) by (pose proof (Z.div_pos n 10); lia).
    rewrite Nat2Z.inj_succ, Z.pow_succ_r in Hn by lia.
    destruct fuel as [|fuel'].
    + cbn in Hn. lia.
    + rewrite IH; [| split; [lia|] | lia].
      * rewrite E. cbn [length]. rewrite Nat2Z.inj_succ, Z.pow_succ_r by lia.
        nia.
      * apply Z.div_lt_upper_bound; lia.
Qed.

Lemma showNat_digits (n : Z) : Forall (fun c => isdigit c = true) (showNat n).
Proof. apply digitsFuel_digits. constructor. Qed.

Lemma showNat_nonempty (n : Z) : showNat n <> [].
Proof. apply digitsFuel_nonempty. Qed.

Lemma showNat_value (n : Z) : 0 <= n -> digitsValue (showNat n) = n.
Proof.
  intros Hn. unfold showNat. rewrite digitsFuel_value.
  - cbn. lia.
  - rewrite Nat2Z.inj_succ, Z2Nat.id by apply Z.log2_nonneg.
    split; [exact Hn|].
    destruct (Z.eq_dec n 0) as [->|Hz]; [cbn; lia|].
    apply Z.log2_spec. lia.
  - lia.
Qed.

(** *** Reading an integer back *)

Lemma skipws_start (c : ascii) (s : text) :
  isspace c = false -> skipws (c :: s) = c :: s.
Proof. intros H. cbn [skipws]. now rewrite H. Qed.

Lemma takeSign_digit (c : ascii) (s : text) :
  isdigit c = true -> takeSign (c :: s) = (false, c :: s).
Proof.
  intros D. apply isdigit_code in D. unfold takeSign.
  rewrite !is_char_neq; [reflexivity | |];
    (change (code "+"%char) with 43 || change (code "-"%char) with 45); lia.
Qed.

Lemma extractInt_digits (neg : bool) (ds rest : text) :
  Forall (fun c => isdigit c = true) ds -> ds <> [] -> stops rest ->
  extractInt ((if neg then "-"%char :: ds else ds) ++ rest)
  = let v := if neg then - digitsValue ds else digitsValue ds in
    if v <? INT_MIN then Bad INT_MIN
    else if INT_MAX <? v then Bad INT_MAX
    else Got v rest.
Proof.
  intros D N S. destruct ds as [|c ds]; [congruence|].
  pose proof (Forall_inv D) as Dc. cbn beta in Dc.
  unfold extractInt. destruct neg.
  - cbn [app]. rewrite skipws_start by reflexivity.
    change (takeSign ("-"%char :: c :: ds ++ rest))
      with (true, (c :: ds) ++ rest).
    cbn iota beta. now rewrite (spanDigits_app _ _ D S).
  - cbn [app]. rewrite skipws_start by now apply isdigit_not_space.
    rewrite takeSign_digit by exact Dc.
    cbn iota beta. change (c :: ds ++ rest) with ((c :: ds) ++ rest).
    now rewrite (spanDigits_app _ _ D S).
Qed.

Lemma extractInt_showInt (z : Z) (rest : text) :
  INT_MIN <= z <= INT_MAX -> delimited rest ->
  extractInt (showInt z ++ rest) = Got z rest.
Proof.
  intros R S. unfold showInt. destruct (Z.ltb_spec z 0).
  - rewrite (extractInt_digits true (showNat (- z)) rest
               (showNat_digits _) (showNat_nonempty _) (delimited_stops _ S)).
    cbn zeta. rewrite showNat_value by lia. rewrite Z.opp_involutive.
    destruct (Z.ltb_spec z INT_MIN); [lia|].
    destruct (Z.ltb_spec INT_MAX z); [lia | reflexivity].
  - rewrite (extractInt_digits false (showNat z) rest
               (showNat_digits _) (showNat_nonempty _) (delimited_stops _ S)).
    cbn zeta. rewrite showNat_value by lia.
    destruct (Z.ltb_spec z INT_MIN); [lia|].
    destruct (Z.ltb_spec INT_MAX z); [lia | reflexivity].
Qed.

Lemma extractInt_showNat (n : Z) (rest : text) :
  0 <= n <= INT_MAX -> delimited rest ->
  extractInt (showNat n ++ rest) = Got n rest.
Proof.
  intros R S. pose proof (extractInt_showInt n rest) as H.
  unfold showInt in H. destruct (Z.ltb_spec n 0); [lia|].
  apply H; [unfold INT_MIN; lia | exact S].
Qed.

Lemma extractInt_space (s : text) : extractInt (space :: s) = extractInt s.
Proof. reflexivity. Qed.

Lemma extractFloat_space (prec emax : Z) (s : text) :
  extractFloat prec emax (space :: s) = extractFloat prec emax s.
Proof. reflexivity. Qed.

Lemma delimited_space (s : text) : delimited (space :: s).
Proof. reflexivity. Qed.

(** *** Reading a printed floating-point number back *)

Lemma takeSign_minus (s : text) : takeSign ("-"%char :: s) = (true, s).
Proof. reflexivity. Qed.

Lemma takeSign_plus (s : text) : takeSign ("+"%char :: s) = (false, s).
Proof. reflexivity. Qed.

Lemma delimited_not (c : ascii) (s : text) (k : Z) :
  delimited (c :: s) -> 33 <= k -> code c <> k.
Proof. unfold delimited. intros H K. apply isspace_code in H. lia. Qed.

Lemma extractFloat_render (prec emax : Z) (t : FloatText) (rest : text) :
  wellFormed t -> delimited rest ->
  extractFloat prec emax (render t ++ rest)
  = if overflows prec emax (fst (textValue t)) (snd (textValue t))
    then Bad (maxFloat prec emax (ft_neg t))
    else Got (decimalToFloat prec emax (ft_neg t)
                (fst (textValue t)) (snd (textValue t))) rest.
Proof.
  destruct t as [neg ip fp ex]. unfold wellFormed, textValue, render.
  cbn [ft_neg ft_int ft_frac ft_exp fst snd].
  intros (Ni & Di & Df & He) S.
  destruct ip as [|c0 ip']; [congruence|]. set (ip := c0 :: ip') in *.
  pose proof (Forall_inv Di) as Dc0. cbn beta in Dc0.
  (* the text after the integer part *)
  set (tail := (match fp with [] => [] | _ :: _ => "."%char :: fp end)
               ++ (match ex with
                   | None => []
                   | Some (eneg, es) =>
                       "e"%char :: (if eneg then "-"%char else "+"%char) :: es
                   end) ++ rest).
  assert (Hs : extractFloat prec emax
                 ((if neg then ["-"%char] else []) ++ ip ++ tail)
               = let '(fp', s3) :=
                   match tail with
                   | c :: s2' => if is_char c "." then spanDigits s2'
                                 else ([], tail)
                   | [] => ([], [])
                   end in
                 match ip ++ fp' with
                 | [] => Bad (S754_zero false)
                 | mant =>
                     let finish (e : Z) (r : text) :=
                       let m := digitsValue mant in
                       let e10 := e - Z.of_nat (length fp') in
                       if overflows prec emax m e10
                       then Bad (maxFloat prec emax neg)
                       else Got (decimalToFloat prec emax neg m e10) r in
                     match s3 with
                     | c :: s4 =>
                         if is_char c "e" || is_char c "E" then
                           match takeExponent s4 with
                           | Some (e, r) => finish e r
                           | None => Bad (S754_zero false)
                           end
                         else finish 0 s3
                     | [] => finish 0 []
                     end
                 end).
  { assert (St : stops tail).
    { unfold tail. destruct fp as [|f fp']; [|reflexivity].
      destruct ex as [[eneg es]|]; [reflexivity|].
      cbn [app]. now apply delimited_stops. }
    unfold extractFloat. destruct neg; cbn [app].
    - rewrite skipws_start by reflexivity.
      rewrite takeSign_minus. cbn iota beta.
      now rewrite (spanDigits_app ip tail Di St).
    - unfold ip at 1. cbn [app].
      rewrite skipws_start by now apply isdigit_not_space.
      rewrite takeSign_digit by exact Dc0. cbn iota beta.
      change (c0 :: ip' ++ tail) with (ip ++ tail).
      now rewrite (spanDigits_app ip tail Di St). }
  replace (((if neg then ["-"%char] else []) ++ ip
            ++ match fp with [] => [] | _ :: _ => "."%char :: fp end
            ++ match ex with
               | None => []
               | Some (eneg, es) =>
                   "e"%char :: (if eneg then "-"%char else "+"%char) :: es
               end) ++ rest)
    with ((if neg then ["-"%char] else []) ++ ip ++ tail)
    by (unfold tail; now rewrite <- !app_assoc).
  rewrite Hs. clear Hs.
  (* the exponent and the end of the number *)
  assert (Hx : forall fp',
             let s3 := (match ex with
                        | None => []
                        | Some (eneg, es) =>
                            "e"%char :: (if eneg then "-"%char else "+"%char) :: es
                        end) ++ rest in
             match s3 with
             | c :: s4 =>
                 if is_char c "e" || is_char c "E" then
                   match takeExponent s4 with
                   | Some (e, r) =>
                       if overflows prec emax (digitsValue (ip ++ fp'))
                            (e - Z.of_nat (length fp'))
                       then Bad (maxFloat prec emax neg)
                       else Got (decimalToFloat prec emax neg
                                   (digitsValue (ip ++ fp'))
                                   (e - Z.of_nat (length fp'))) r
                   | None => Bad (S754_zero false)
                   end
                 else
                   if overflows prec emax (digitsValue (ip ++ fp'))
                        (0 - Z.of_nat (length fp'))
                   then Bad (maxFloat prec emax neg)
                   else Got (decimalToFloat prec emax neg
                               (digitsValue (ip ++ fp'))
                               (0 - Z.of_nat (length fp'))) s3
             | [] =>
                 if overflows prec emax (digitsValue (ip ++ fp'))
                      (0 - Z.of_nat (length fp'))
                 then Bad (maxFloat prec emax neg)
                 else Got (decimalToFloat prec emax neg
                             (digitsValue (ip ++ fp'))
                             (0 - Z.of_nat (length fp'))) []
             end
             = if overflows prec emax (digitsValue (ip ++ fp'))
                    (match ex with
                     | None => 0
                     | Some (eneg, es) =>
                         if eneg then - digitsValue es else digitsValue es
                     end - Z.of_nat (length fp'))
               then Bad (maxFloat prec emax neg)
               else Got (decimalToFloat prec emax neg
                           (digitsValue (ip ++ fp'))
                           (match ex with
                            | None => 0
                            | Some (eneg, es) =>
                                if eneg then - digitsValue es
                                else digitsValue es
                            end - Z.of_nat (length fp'))) rest).
  { intros fp'. destruct ex as [[eneg es]|].
    - destruct He as [Ne De]. cbn [app].
      change (is_char "e"%char "e"%char) with true. cbn [orb].
      unfold takeExponent.
      assert (Ts : takeSign ((if eneg then "-"%char else "+"%char) :: es ++ rest)
                   = (eneg, es ++ rest)) by now destruct eneg.
      rewrite Ts, (spanDigits_app es rest De (delimited_stops _ S)).
      destruct es as [|e0 es']; [congruence | reflexivity].
    - cbn [app]. destruct rest as [|c r]; [reflexivity|].
      rewrite !is_char_neq; [reflexivity | |];
        (change (code "e"%char) with 101 || change (code "E"%char) with 69);
        apply (delimited_not c r); (exact S || lia). }
  unfold tail. destruct fp as [|f fp'].
  - (* no fractional part *)
    cbn [app length]. specialize (Hx []). cbn zeta in Hx.
    rewrite app_nil_r in *. cbn [length] in Hx.
    set (s3 := match ex with
               | None => []
               | Some (eneg, es) =>
                   "e"%char :: (if eneg then "-"%char else "+"%char) :: es
               end ++ rest) in *.
    assert (Hd : match s3 with
                 | c :: s2' => if is_char c "." then spanDigits s2'
                               else ([], s3)
                 | [] => ([], [])
                 end = ([], s3)).
    { unfold s3. destruct ex as [[eneg es]|]; [reflexivity|].
      cbn [app]. destruct rest as [|c r]; [reflexivity|].
      rewrite is_char_neq; [reflexivity|].
      change (code "."%char) with 46. apply (delimited_not c r); (exact S || lia). }
    rewrite Hd. rewrite app_nil_r. unfold ip at 1. cbn iota beta zeta.
    cbn [length]. exact Hx.
  - (* a fractional part *)
    cbn [app]. change (is_char "."%char "."%char) with true. cbn iota.
    set (fp := f :: fp') in *.
    set (s3 := match ex with
               | None => []
               | Some (eneg, es) =>
                   "e"%char :: (if eneg then "-"%char else "+"%char) :: es
               end ++ rest) in *.
    assert (St : stops s3).
    { unfold s3. destruct ex as [[eneg es]|]; [reflexivity|].
      cbn [app]. now apply delimited_stops. }
    change (f :: fp' ++ s3) with (fp ++ s3).
    rewrite (spanDigits_app fp s3 Df St). unfold ip at 1. cbn [app].
    cbn iota beta zeta. apply (Hx fp).
Qed.

(** *** The layout of a printed number *)

Local Abbreviation digits := (Forall (fun c => isdigit c = true)).

Lemma fixedDigits_digits (k : nat) : forall n, digits (fixedDigits k n).
Proof.
  induction k as [|k IH]; intros n; cbn [fixedDigits]; [constructor|].
  apply Forall_app. split; [apply IH|]. constructor; [|constructor].
  apply isdigit_digitChar. apply Z.mod_pos_bound. lia.
Qed.

Lemma fixedDigits_length (k : nat) : forall n, length (fixedDigits k n) = k.
Proof.
  induction k as [|k IH]; intros n; cbn [fixedDigits]; [reflexivity|].
  rewrite length_app, IH. cbn. lia.
Qed.

Lemma fixedDigits_value (k : nat) :
  forall n, 0 <= n -> digitsValue (fixedDigits k n) = n mod 10 ^ Z.of_nat k.
Proof.
  induction k as [|k IH]; intros n Hn; cbn [fixedDigits].
  - cbn. now rewrite Z.mod_1_r.
  - assert (Hm : 0 <= n mod 10 < 10) by (apply Z.mod_pos_bound; lia).
    rewrite digitsValue_app, IH by (apply Z.div_pos; lia).
    cbn [length]. rewrite digitsValue_cons, digitVal_digitChar by exact Hm.
    cbn [length]. unfold digitsValue at 1. cbn [fold_left].
    replace (10 ^ Z.of_nat (S k)) with (10 * 10 ^ Z.of_nat k)
      by (rewrite Nat2Z.inj_succ, Z.pow_succ_r; lia).
    rewrite (Z.rem_mul_r n 10 (10 ^ Z.of_nat k))
      by (try apply Z.pow_pos_nonneg; lia).
    change (10 ^ Z.of_nat 1) with 10. change (10 ^ Z.of_nat 0) with 1.
    lia.
Qed.

Lemma digitsValue_bound (ds : text) :
  digits ds -> 0 <= digitsValue ds < 10 ^ Z.of_nat (length ds).
Proof.
  induction 1 as [|c ds Hc _ IH].
  - cbn. lia.
  - rewrite digitsValue_cons. cbn [length].
    rewrite Nat2Z.inj_succ, Z.pow_succ_r by lia.
    apply isdigit_code in Hc. unfold digitVal. nia.
Qed.

Lemma stripZeros_spec (ds : text) :
  exists k, ds = stripZeros ds ++ repeat "0"%char k.
Proof.
  unfold stripZeros.
  set (drop := fix drop (r : text) : text :=
         match r with
         | c :: r' => if is_char c "0" then drop r' else r
         | [] => []
         end).
  assert (H : forall r, exists k, r = repeat "0"%char k ++ drop r).
  { induction r as [|c r [k IH]]; [now exists 0%nat|]. cbn [drop].
    destruct (is_char c "0") eqn:E.
    - exists (S k). cbn [repeat app]. f_equal; [|exact IH].
      apply is_char_code in E. unfold code in E. apply Nat2Z.inj in E.
      rewrite <- (ascii_nat_embedding c), E. reflexivity.
    - now exists 0%nat. }
  destruct (H (rev ds)) as [k Hk]. exists k.
  apply (f_equal (@rev ascii)) in Hk.
  now rewrite rev_involutive, rev_app_distr, rev_repeat in Hk.
Qed.

Lemma stripZeros_digits (ds : text) : digits ds -> digits (stripZeros ds).
Proof.
  intros D. destruct (stripZeros_spec ds) as [k Hk]. rewrite Hk in D.
  now apply Forall_app in D.
Qed.

Lemma stripZeros_length (ds : text) : (length (stripZeros ds) <= length ds)%nat.
Proof.
  destruct (stripZeros_spec ds) as [k Hk].
  rewrite Hk at 2. rewrite length_app. lia.
Qed.

Lemma digitsValue_zeros (k : nat) : digitsValue (repeat "0"%char k) = 0.
Proof.
  induction k as [|k IH]; [reflexivity|]. cbn [repeat].
  rewrite digitsValue_cons, IH. reflexivity.
Qed.

(** Removing trailing zeros from the fraction leaves the number the same. *)
Lemma stripZeros_value (a b : text) :
  digitsValue (a ++ stripZeros b)
  * 10 ^ (Z.of_nat (length b) - Z.of_nat (length (stripZeros b)))
  = digitsValue (a ++ b).
Proof.
  destruct (stripZeros_spec b) as [k Hk].
  set (s := stripZeros b) in *. clearbody s. subst b.
  rewrite length_app, repeat_length, app_assoc.
  rewrite (digitsValue_app (a ++ s)), digitsValue_zeros, repeat_length.
  replace (Z.of_nat (length s + k) - Z.of_nat (length s)) with (Z.of_nat k)
    by lia.
  lia.
Qed.

Lemma digits_zeros (k : nat) : digits (repeat "0"%char k).
Proof. induction k; cbn; constructor; auto. Qed.

Lemma Forall_firstn_skipn {A : Type} (P : A -> Prop) (n : nat) (l : list A) :
  Forall P l -> Forall P (firstn n l) /\ Forall P (skipn n l).
Proof.
  intros H. rewrite <- (firstn_skipn n l) in H. now apply Forall_app in H.
Qed.

Lemma layout_wellFormed (neg : bool) (d x : Z) : wellFormed (layout neg d x).
Proof.
  pose proof (fixedDigits_digits 6 d) as D.
  pose proof (fixedDigits_length 6 d) as L.
  unfold layout, wellFormed.
  destruct ((-4 <=? x) && (x <? 6)) eqn:Plain;
    [destruct (Z.leb_spec 0 x)|]; cbn [ft_int ft_frac ft_exp].
  - repeat split.
    + intros E. apply (f_equal (@length ascii)) in E.
      rewrite length_firstn, L in E. cbn in E. lia.
    + now apply Forall_firstn_skipn.
    + apply stripZeros_digits. now apply Forall_firstn_skipn.
  - repeat split; [discriminate | now repeat constructor |].
    apply Forall_app. split; [apply digits_zeros | now apply stripZeros_digits].
  - repeat split.
    + intros E. apply (f_equal (@length ascii)) in E.
      rewrite length_firstn, L in E. cbn in E. lia.
    + now apply Forall_firstn_skipn.
    + apply stripZeros_digits. now apply Forall_firstn_skipn.
    + destruct (Z.abs x <? 10); [discriminate | apply showNat_nonempty].
    + destruct (Z.abs x <? 10); [constructor; [reflexivity|]|];
        apply showNat_digits.
Qed.

(** *** Decimal exponents *)

(** The number of digits [showNat] writes. *)
Lemma digitsFuel_length (fuel : nat) :
  forall n acc,
    1 <= n < 2 ^ Z.of_nat fuel ->
    exists L,
      length (digitsFuel fuel n acc) = (length acc + L)%nat
      /\ 10 ^ (Z.of_nat L - 1) <= n < 10 ^ Z.of_nat L.
Proof.
  induction fuel as [|fuel IH]; intros n acc Hn; [cbn in Hn; lia|].
  cbn [digitsFuel].
  pose proof (Z.div_mod n 10 ltac:(lia)) as Hdm.
  assert (Hm : 0 <= n mod 10 < 10) by (apply Z.mod_pos_bound; lia).
  destruct (Z.eqb_spec (n / 10) 0) as [Hz|Hz].
  - exists 1%nat. cbn [length]. split; [lia|]. cbn. lia.
  - assert (Hq : 1 <= n / 10) by (pose proof (Z.div_pos n 10); lia).
    rewrite Nat2Z.inj_succ, Z.pow_succ_r in Hn by lia.
    destruct (IH (n / 10) (digitChar (n mod 10) :: acc)) as (L & HL & B).
    { split; [lia|]. apply Z.div_lt_upper_bound; lia. }
    exists (S L). cbn [length] in HL. split; [lia|].
    assert (L <> 0)%nat.
    { intros ->. cbn in B. lia. }
    replace (Z.of_nat (S L) - 1) with (Z.succ (Z.of_nat L - 1)) by lia.
    rewrite Nat2Z.inj_succ, !Z.pow_succ_r by lia. lia.
Qed.

Lemma showNat_length (n : Z) :
  1 <= n ->
  10 ^ (Z.of_nat (length (showNat n)) - 1) <= n
  < 10 ^ Z.of_nat (length (showNat n)).
Proof.
  intros Hn. unfold showNat.
  destruct (digitsFuel_length (S (Z.to_nat (Z.log2 n))) n []) as (L & HL & B).
  - split; [exact Hn|].
    rewrite Nat2Z.inj_succ, Z2Nat.id by apply Z.log2_nonneg.
    apply Z.log2_spec. lia.
  - rewrite HL. exact B.
Qed.

Lemma pow10_pos (k : Z) : 0 <= k -> 0 < 10 ^ k.
Proof. intros. apply Z.pow_pos_nonneg; lia. Qed.

Lemma pow10_le_mono (a b : Z) : 0 <= a <= b -> 10 ^ a <= 10 ^ b.
Proof. intros. apply Z.pow_le_mono_r; lia. Qed.

(** [pow10_le x num den] decides [10^x <= num / den]; it goes from true to
    false as [x] grows. *)
Lemma pow10_le_spec (x num den : Z) :
  0 < den ->
  pow10_le x num den = true
  <-> 10 ^ Z.max x 0 * den <= num * 10 ^ Z.max (- x) 0.
Proof.
  intros Hd. unfold pow10_le. destruct (Z.leb_spec 0 x).
  - rewrite Z.leb_le, Z.max_l, (Z.max_r (- x)) by lia.
    rewrite Z.pow_0_r. lia.
  - rewrite Z.leb_le, Z.max_r, (Z.max_l (- x)) by lia.
    rewrite Z.pow_0_r. lia.
Qed.

(** Two powers of ten compared through a common shift. *)
Lemma pow10_split (a b : Z) :
  0 <= a -> 0 <= b -> 10 ^ (a + b) = 10 ^ a * 10 ^ b.
Proof. intros. apply Z.pow_add_r; lia. Qed.

Lemma decimalExponent_spec (num den : Z) :
  1 <= num -> 1 <= den ->
  pow10_le (decimalExponent num den) num den = true
  /\ pow10_le (decimalExponent num den + 1) num den = false.
Proof.
  intros Hn Hd. unfold decimalExponent.
  pose proof (showNat_length num Hn) as [Ln Un].
  pose proof (showNat_length den Hd) as [Ld Ud].
  set (a := Z.of_nat (length (showNat num))) in *.
  set (b := Z.of_nat (length (showNat den))) in *.
  assert (Ha : 1 <= a).
  { unfold a. pose proof (showNat_nonempty num).
    destruct (showNat num); [congruence | cbn [length]; lia]. }
  assert (Hb : 1 <= b).
  { unfold b. pose proof (showNat_nonempty den).
    destruct (showNat den); [congruence | cbn [length]; lia]. }
  (* 10^(a-b-1) <= num/den and num/den < 10^(a-b+1) *)
  assert (Low : pow10_le (a - b - 1) num den = true).
  { apply pow10_le_spec; [lia|]. destruct (Z.le_ge_cases 0 (a - b - 1)).
    - rewrite Z.max_l, Z.max_r by lia. rewrite Z.pow_0_r, Z.mul_1_r.
      apply Z.le_trans with (10 ^ (a - 1)); [|exact Ln].
      replace (a - 1) with ((a - b - 1) + b) by lia.
      rewrite pow10_split by lia.
      apply Z.mul_le_mono_nonneg_l; [apply Z.lt_le_incl, pow10_pos |]; lia.
    - rewrite Z.max_r, Z.max_l by lia. rewrite Z.pow_0_r, Z.mul_1_l.
      apply Z.le_trans with (10 ^ b); [lia|].
      replace b with ((a - 1) + (- (a - b - 1))) at 1 by lia.
      rewrite pow10_split by lia.
      apply Z.mul_le_mono_nonneg_r; [apply Z.lt_le_incl, pow10_pos |]; lia. }
  assert (High : pow10_le (a - b + 1) num den = false).
  { apply not_true_is_false. intros H. apply pow10_le_spec in H; [|lia].
    destruct (Z.le_ge_cases 0 (a - b + 1)).
    - rewrite Z.max_l, Z.max_r in H by lia.
      rewrite Z.pow_0_r, Z.mul_1_r in H.
      assert (10 ^ a <= 10 ^ (a - b + 1) * den); [|lia].
      replace a with ((a - b + 1) + (b - 1)) at 1 by lia.
      rewrite pow10_split by lia.
      apply Z.mul_le_mono_nonneg_l; [apply Z.lt_le_incl, pow10_pos |]; lia.
    - rewrite Z.max_r, Z.max_l in H by lia.
      rewrite Z.pow_0_r, Z.mul_1_l in H.
      assert (num * 10 ^ (- (a - b + 1)) < 10 ^ (b - 1)); [|lia].
      replace (b - 1) with (a + (- (a - b + 1))) by lia.
      rewrite pow10_split by lia.
      apply Z.mul_lt_mono_pos_r; [apply pow10_pos |]; lia. }
  destruct (pow10_le (a - b) num den) eqn:Mid.
  - split; [exact Mid | exact High].
  - split; [exact Low|]. now replace (a - b - 1 + 1) with (a - b) by lia.
Qed.

(** *** A finite [float] is read back from its text *)

Lemma digits2_pos_bound (m : positive) : Zpos m < 2 ^ Zpos (digits2_pos m).
Proof.
  induction m as [m IH | m IH |]; cbn [digits2_pos].
  - rewrite Pos2Z.inj_succ, Z.pow_succ_r by lia. lia.
  - rewrite Pos2Z.inj_succ, Z.pow_succ_r by lia. lia.
  - cbn. lia.
Qed.

Lemma bounded_range (m : positive) (e : Z) :
  bounded 24 128 m e = true -> Zpos m <= 2 ^ 24 - 1 /\ e <= 104.
Proof.
  unfold bounded, canonical_mantissa, fexp, emin.
  rewrite andb_true_iff, Z.eqb_eq, Z.leb_le. intros [C E].
  split; [|lia].
  pose proof (digits2_pos_bound m) as B.
  assert (Zpos (digits2_pos m) <= 24) by lia.
  assert (2 ^ Zpos (digits2_pos m) <= 2 ^ 24)
    by (apply Z.pow_le_mono_r; lia).
  lia.
Qed.

Lemma roundHalfEven_bounds (num den : Z) :
  num / den <= roundHalfEven num den <= num / den + 1.
Proof.
  unfold roundHalfEven.
  destruct (_ <? _); [lia|]. destruct (_ <? _); [lia|].
  destruct (Z.even _); lia.
Qed.

(** The largest finite [float], (2^24 - 1) * 2^104, and its first six
    digits. *)
Lemma sixDigits_range (num den : Z) :
  1 <= num -> 1 <= den -> num <= (2 ^ 24 - 1) * 2 ^ 104 * den ->
  0 <= fst (sixDigits num den)
  /\ snd (sixDigits num den) <= 38
  /\ (snd (sixDigits num den) = 38 -> fst (sixDigits num den) <= 340282).
Proof.
  intros Hn Hd Hmax. unfold sixDigits.
  destruct (decimalExponent_spec num den Hn Hd) as [Lo _].
  set (x := decimalExponent num den) in *.
  assert (Hx : x <= 38).
  { destruct (Z.le_gt_cases x 38) as [|G]; [assumption|].
    apply pow10_le_spec in Lo; [|lia].
    rewrite Z.max_l, Z.max_r, Z.pow_0_r, Z.mul_1_r in Lo by lia.
    assert (10 ^ 39 <= 10 ^ x) by (apply pow10_le_mono; lia).
    assert (10 ^ 39 * den <= 10 ^ x * den)
      by (apply Z.mul_le_mono_nonneg_r; lia).
    assert ((2 ^ 24 - 1) * 2 ^ 104 * den < 10 ^ 39 * den); [|lia].
    apply Z.mul_lt_mono_pos_r; [lia | vm_compute; reflexivity]. }
  set (d := if 0 <=? 5 - x then roundHalfEven (num * 10 ^ (5 - x)) den
            else roundHalfEven num (den * 10 ^ (- (5 - x)))).
  assert (Hd0 : 0 <= d).
  { unfold d. destruct (0 <=? 5 - x) eqn:K.
    - apply Z.leb_le in K.
      pose proof (roundHalfEven_bounds (num * 10 ^ (5 - x)) den).
      pose proof (pow10_pos (5 - x) K).
      assert (0 <= num * 10 ^ (5 - x) / den) by (apply Z.div_pos; nia). lia.
    - apply Z.leb_gt in K.
      pose proof (roundHalfEven_bounds num (den * 10 ^ (- (5 - x)))).
      pose proof (pow10_pos (- (5 - x)) ltac:(lia)).
      assert (0 <= num / (den * 10 ^ (- (5 - x)))) by (apply Z.div_pos; nia).
      lia. }
  assert (H38 : x = 38 -> d <= 340282).
  { intros E. unfold d. rewrite E. change (0 <=? 5 - 38) with false.
    change (- (5 - 38)) with 33. cbv iota.
    unfold roundHalfEven.
    set (D := den * 10 ^ 33).
    assert (HD : 0 < D) by (unfold D; lia).
    pose proof (Z.div_mod num D ltac:(lia)) as Hdm.
    pose proof (Z.mod_pos_bound num D HD) as Hr.
    assert (Hmax' : num <= 340282 * D + 346638528859811704183484516925440 * den).
    { unfold D. replace ((2 ^ 24 - 1) * 2 ^ 104)
        with (340282 * 10 ^ 33 + 346638528859811704183484516925440) in Hmax
        by (vm_compute; reflexivity). lia. }
    assert (HD' : D = 1000000000000000000000000000000000 * den)
      by (unfold D; change (10 ^ 33) with 1000000000000000000000000000000000; lia).
    assert (Hq : num / D <= 340282).
    { apply Z.lt_succ_r. apply Z.div_lt_upper_bound; lia. }
    destruct (Z.eq_dec (num / D) 340282) as [Eq|Ne].
    - rewrite Eq in *. destruct (Z.ltb_spec (2 * (num mod D)) D); lia.
    - destruct (_ <? _); [lia|]. destruct (_ <? _); [lia|].
      destruct (Z.even _); lia. }
  fold d. destruct (Z.eqb_spec d 1000000) as [E|N]; cbn [fst snd].
  - assert (x <> 38) by (intros X; specialize (H38 X); lia).
    repeat split; lia.
  - repeat split; auto.
Qed.

(** A text without exponent and with at most six digits before the point is
    in range. *)
Lemma plain_in_range (ip fp : text) :
  digits ip -> digits fp -> (length ip <= 6)%nat ->
  overflows 24 128 (digitsValue (ip ++ fp)) (0 - Z.of_nat (length fp)) = false.
Proof.
  intros Di Df Li.
  assert (B : 0 <= digitsValue (ip ++ fp)
              < 10 ^ Z.of_nat (length (ip ++ fp)))
    by (apply digitsValue_bound, Forall_app; now split).
  rewrite length_app, Nat2Z.inj_add, pow10_split in B by lia.
  assert (P6 : 10 ^ Z.of_nat (length ip) <= 10 ^ 6)
    by (apply pow10_le_mono; lia).
  pose proof (pow10_pos (Z.of_nat (length fp)) ltac:(lia)) as Pf.
  pose proof (pow10_pos (Z.of_nat (length ip)) ltac:(lia)) as Pi.
  unfold overflows.
  change (2 ^ 128 - 2 ^ (128 - 24 - 1))
    with 340282356779733661637539395458142568448.
  change (10 ^ 6) with 1000000 in P6.
  destruct (Z.leb_spec 0 (0 - Z.of_nat (length fp))) as [Z0|N0].
  - assert (E : Z.of_nat (length fp) = 0) by lia.
    rewrite E in *. change (0 - 0) with 0. rewrite Z.pow_0_r in *.
    apply Z.leb_gt. lia.
  - apply Z.leb_gt.
    replace (- (0 - Z.of_nat (length fp))) with (Z.of_nat (length fp)) by lia.
    nia.
Qed.

Lemma layout_in_range (neg : bool) (d x : Z) :
  0 <= d -> x <= 38 -> (x = 38 -> d <= 340282) ->
  overflows 24 128 (fst (textValue (layout neg d x)))
    (snd (textValue (layout neg d x))) = false.
Proof.
  intros Hd Hx H38.
  pose proof (fixedDigits_digits 6 d) as D.
  pose proof (fixedDigits_length 6 d) as L.
  destruct (Forall_firstn_skipn _ 1 _ D) as [D1 D5].
  unfold layout, textValue.
  destruct ((-4 <=? x) && (x <? 6)) eqn:Plain;
    [destruct (Z.leb_spec 0 x)|]; cbn [ft_int ft_frac ft_exp fst snd].
  - apply plain_in_range.
    + now apply Forall_firstn_skipn.
    + apply stripZeros_digits. now apply Forall_firstn_skipn.
    + rewrite length_firstn, L. lia.
  - apply plain_in_range.
    + now repeat constructor.
    + apply Forall_app. split; [apply digits_zeros | now apply stripZeros_digits].
    + cbn. lia.
  - (* scientific notation *)
    set (ds := fixedDigits 6 d) in *.
    set (fr := stripZeros (skipn 1 ds)).
    assert (Dfr : digits fr) by now apply stripZeros_digits.
    assert (L1 : length (firstn 1 ds) = 1%nat) by (rewrite length_firstn, L; lia).
    assert (L5 : length (skipn 1 ds) = 5%nat) by (rewrite length_skipn, L; lia).
    assert (Lfr : (length fr <= 5)%nat)
      by (unfold fr; rewrite <- L5; apply stripZeros_length).
    match goal with
    | |- overflows _ _ _ (?ex - _) = false => assert (Ex : ex = x)
    end.
    { destruct (Z.abs x <? 10); cbv iota;
        [rewrite digitsValue_cons; change (digitVal "0"%char) with 0|];
        rewrite showNat_value by lia; destruct (Z.ltb_spec x 0); lia. }
    rewrite Ex. clear Ex.
    assert (B : 0 <= digitsValue (firstn 1 ds ++ fr)
                < 10 ^ Z.of_nat (length (firstn 1 ds ++ fr)))
      by (apply digitsValue_bound, Forall_app; now split).
    rewrite length_app, L1 in B.
    set (M := digitsValue (firstn 1 ds ++ fr)) in *.
    set (f := Z.of_nat (length fr)) in *.
    assert (Hf : 0 <= f <= 5) by (unfold f; lia).
    replace (Z.of_nat (1 + length fr)) with (1 + f) in B by (unfold f; lia).
    assert (M6 : M < 10 ^ 6).
    { apply Z.lt_le_trans with (10 ^ (1 + f)); [lia|].
      apply pow10_le_mono. lia. }
    change (10 ^ 6) with 1000000 in M6.
    unfold overflows.
    change (2 ^ 128 - 2 ^ (128 - 24 - 1))
      with 340282356779733661637539395458142568448.
    destruct (Z.leb_spec 0 (x - f)) as [P|N]; apply Z.leb_gt.
    + destruct (Z.eq_dec x 38) as [E38|N38].
      * (* the digits are those of [d], at most 340282 *)
        specialize (H38 E38).
        pose proof (stripZeros_value (firstn 1 ds) (skipn 1 ds)) as SV.
        fold fr in SV. rewrite firstn_skipn, L5 in SV. fold M in SV.
        unfold ds in SV at 1. rewrite fixedDigits_value in SV by lia.
        rewrite Z.mod_small in SV
          by (change (10 ^ Z.of_nat 6) with 1000000; lia).
        change (Z.of_nat 5) with 5 in SV. fold f in SV.
        rewrite E38. replace (38 - f) with ((5 - f) + 33) by lia.
        rewrite pow10_split by lia.
        change (10 ^ 33) with 1000000000000000000000000000000000.
        rewrite Z.mul_assoc, SV. lia.
      * assert (Hp : 10 ^ (x - f) * 10 ^ (1 + f) <= 10 ^ 38).
        { rewrite <- pow10_split by lia. apply pow10_le_mono. lia. }
        change (10 ^ 38) with 100000000000000000000000000000000000000 in Hp.
        pose proof (pow10_pos (x - f) P). nia.
    + pose proof (pow10_pos (- (x - f)) ltac:(lia)). nia.
Qed.

(** Read with the text [rest] behind it or alone, a printed number gives
    the same value. *)
Lemma render_reread (t : FloatText) (rest : text) (dflt : spec_float) :
  wellFormed t ->
  overflows 24 128 (fst (textValue t)) (snd (textValue t)) = false ->
  delimited rest ->
  extractFloat 24 128 (render t ++ rest)
  = Got (match extractFloat 24 128 (render t) with
         | Got v _ => v
         | _ => dflt
         end) rest.
Proof.
  intros W O S.
  rewrite (extractFloat_render 24 128 t rest W S), O.
  pose proof (extractFloat_render 24 128 t [] W I) as E.
  rewrite app_nil_r, O in E. now rewrite E.
Qed.

Lemma showFloat_reread (h : spec_float) (rest : text) :
  Editor.isFloat h = true -> delimited rest ->
  extractFloat 24 128 (showFloat h ++ rest) = Got (Editor.reread h) rest.
Proof.
  intros F S. unfold Editor.reread, Editor.fprec, Editor.femax.
  destruct h as [sg|sg| |sg m e]; try discriminate F.
  - cbn [showFloat]. apply render_reread; [| reflexivity | exact S].
    repeat split; [discriminate | now repeat constructor | constructor].
  - cbn [showFloat Editor.isFloat] in *.
    apply bounded_range in F. destruct F as [Fm Fe].
    set (nd := if 0 <=? e then (Zpos m * 2 ^ e, 1) else (Zpos m, 2 ^ (- e))).
    assert (R : 1 <= fst nd /\ 1 <= snd nd
                /\ fst nd <= (2 ^ 24 - 1) * 2 ^ 104 * snd nd).
    { unfold nd. destruct (Z.leb_spec 0 e); cbn [fst snd].
      - pose proof (Z.pow_pos_nonneg 2 e ltac:(lia) ltac:(lia)).
        assert (2 ^ e <= 2 ^ 104) by (apply Z.pow_le_mono_r; lia).
        repeat split; [nia | lia |].
        rewrite Z.mul_1_r. apply Z.mul_le_mono_nonneg; lia.
      - pose proof (Z.pow_pos_nonneg 2 (- e) ltac:(lia) ltac:(lia)).
        change (2 ^ 104) with 20282409603651670423947251286016.
        repeat split; [lia | lia | nia]. }
    destruct nd as [num den]. cbn [fst snd] in R. destruct R as (Rn & Rd & Rm).
    pose proof (sixDigits_range num den Rn Rd Rm) as (Q0 & Q38 & Q).
    destruct (sixDigits num den) as [d x]. cbn [fst snd] in *.
    apply render_reread; [apply layout_wellFormed | | exact S].
    now apply layout_in_range.
Qed.

End TextFacts.


(** ** Editor: a saved map is loaded back *)

Section SaveLoad.
Import Ascii Text Editor.

Local Abbreviation digits := (Forall (fun c => isdigit c = true)).

(** *** The lines of a saved map *)

Lemma lines_line (l s : text) :
  Forall inline l -> lines (l ++ newline :: s) = l :: lines s.
Proof.
  induction 1 as [|c l Hc _ IH]; cbn [app lines].
  - reflexivity.
  - unfold inline in Hc. now rewrite Hc, IH.
Qed.

Lemma digit_inline (c : ascii) : isdigit c = true -> inline c.
Proof.
  intros D. apply isdigit_code in D. apply is_char_neq.
  change (code newline) with 10. lia.
Qed.

Lemma digits_inline (ds : text) : digits ds -> Forall inline ds.
Proof. apply Forall_impl. exact digit_inline. Qed.

Lemma showNat_inline (n : Z) : Forall inline (showNat n).
Proof. apply digits_inline, showNat_digits. Qed.

Lemma showInt_inline (z : Z) : Forall inline (showInt z).
Proof.
  unfold showInt. destruct (z <? 0); [constructor; [reflexivity|]|];
    apply showNat_inline.
Qed.

Lemma render_inline (t : FloatText) : wellFormed t -> Forall inline (render t).
Proof.
  destruct t as [neg ip fp ex]. unfold wellFormed, render.
  cbn [ft_neg ft_int ft_frac ft_exp]. intros (_ & Di & Df & He).
  apply Forall_app. split; [destruct neg; repeat constructor|].
  apply Forall_app. split; [now apply digits_inline|].
  apply Forall_app. split.
  - destruct fp; [constructor|]. constructor; [reflexivity|].
    now apply digits_inline.
  - destruct ex as [[eneg es]|]; [|constructor]. destruct He as [_ De].
    constructor; [reflexivity|]. constructor; [now destruct eneg|].
    now apply digits_inline.
Qed.

Lemma showFloat_inline (h : float) :
  isFloat h = true -> Forall inline (showFloat h).
Proof.
  destruct h as [sg|sg| |sg m e]; try discriminate; intros _; cbn [showFloat].
  - apply render_inline.
    repeat split; [discriminate | now repeat constructor | constructor].
  - destruct (if 0 <=? e then _ else _) as [num den].
    destruct (sixDigits num den) as [d x].
    apply render_inline, layout_wellFormed.
Qed.

Lemma space_inline : Forall inline [space].
Proof. now repeat constructor. Qed.

Lemma headerLine_inline (i : Z) (sec : Sector) :
  heightsOK sec -> Forall inline (headerLine i sec).
Proof.
  intros [Hf Hc]. unfold headerLine.
  apply Forall_app; split; [apply showNat_inline|].
  apply Forall_app; split; [apply space_inline|].
  apply Forall_app; split; [apply showNat_inline|].
  apply Forall_app; split; [apply space_inline|].
  apply Forall_app; split; [now apply showFloat_inline|].
  apply Forall_app; split; [apply space_inline | now apply showFloat_inline].
Qed.

Lemma wallLine_inline (w : Wall) : Forall inline (wallLine w).
Proof.
  unfold wallLine, showBool.
  do 4 (apply Forall_app; split; [apply showInt_inline|];
        apply Forall_app; split; [apply space_inline|]).
  apply Forall_app; split; [apply showNat_inline|].
  apply Forall_app; split; [apply space_inline | apply showInt_inline].
Qed.

Lemma lines_walls (ws : list Wall) (s : text) :
  lines (flat_map (fun w => wallLine w ++ [newline]) ws ++ s)
  = map wallLine ws ++ lines s.
Proof.
  induction ws as [|w ws IH]; cbn [flat_map map app]; [reflexivity|].
  rewrite <- !app_assoc. cbn [app].
  now rewrite (lines_line _ _ (wallLine_inline w)), IH.
Qed.

Lemma lines_saveFrom (ss : list Sector) :
  forall i, Forall heightsOK ss -> lines (saveFrom i ss) = linesFrom i ss.
Proof.
  induction ss as [|sec ss IH]; intros i H; cbn [saveFrom linesFrom];
    [reflexivity|].
  inversion H as [|? ? Hsec Hss]; subst.
  cbn [app].
  rewrite (lines_line _ _ (headerLine_inline i sec Hsec)), lines_walls.
  cbn [lines]. change (is_char newline newline) with true. cbv iota.
  now rewrite IH.
Qed.

(** *** Coordinates on the grid *)

Lemma wrap_small (z : Z) : INT_MIN <= z <= INT_MAX -> wrap z = z.
Proof.
  unfold wrap, INT_MIN, INT_MAX. intros H. rewrite Z.mod_small; lia.
Qed.

Lemma wrap_range (z : Z) : INT_MIN <= wrap z <= INT_MAX.
Proof.
  unfold wrap, INT_MIN, INT_MAX.
  pose proof (Z.mod_pos_bound (z + 2 ^ 31) (2 ^ 32) ltac:(lia)). lia.
Qed.

Lemma wrap_grid (x : Z) : gridCoord (wrap (x * GRID_SIZE)).
Proof.
  split; [|apply wrap_range]. unfold wrap, GRID_SIZE.
  pose proof (Z.div_mod (x * 32 + 2 ^ 31) (2 ^ 32) ltac:(lia)) as E.
  set (q := (x * 32 + 2 ^ 31) / 2 ^ 32) in *.
  replace ((x * 32 + 2 ^ 31) mod 2 ^ 32 - 2 ^ 31)
    with ((x - 2 ^ 27 * q) * 32) by lia.
  apply Z.mod_mul. lia.
Qed.

Lemma gridCoord_quot (z : Z) :
  gridCoord z ->
  INT_MIN <= Z.quot z GRID_SIZE <= INT_MAX
  /\ wrap (Z.quot z GRID_SIZE * GRID_SIZE) = z.
Proof.
  unfold gridCoord, GRID_SIZE. intros [M R].
  pose proof (Z.div_mod z 32 ltac:(lia)) as E. rewrite M in E.
  assert (Q : Z.quot z 32 = z / 32).
  { rewrite E at 1. rewrite Z.add_0_r, Z.mul_comm. apply Z.quot_mul. lia. }
  rewrite Q. split.
  - unfold INT_MIN, INT_MAX in *. lia.
  - rewrite wrap_small; lia.
Qed.

(** *** One line written, one line read *)

Lemma extractInt_range (s rest : text) (v : Z) :
  extractInt s = Got v rest -> INT_MIN <= v <= INT_MAX.
Proof.
  unfold extractInt. destruct (skipws s) as [|c s0]; [discriminate|].
  destruct (takeSign (c :: s0)) as [neg s1].
  destruct (spanDigits s1) as [ds r]. destruct ds as [|d ds]; [discriminate|].
  set (val := if neg then _ else _).
  destruct (Z.ltb_spec val INT_MIN); [discriminate|].
  destruct (Z.ltb_spec INT_MAX val); [discriminate|].
  intros E. inversion E; subst. lia.
Qed.

Lemma wallLine_shape (w : Wall) :
  wallLine w
  = showInt (Z.quot (px (p1 w)) GRID_SIZE) ++ space
    :: showInt (Z.quot (py (p1 w)) GRID_SIZE) ++ space
    :: showInt (Z.quot (px (p2 w)) GRID_SIZE) ++ space
    :: showInt (Z.quot (py (p2 w)) GRID_SIZE) ++ space
    :: showNat (if isPortal w then 1 else 0) ++ space
    :: showInt (adjoiningSector w) ++ [].
Proof.
  unfold wallLine, showBool. rewrite app_nil_r.
  repeat rewrite <- app_assoc. reflexivity.
Qed.

Lemma parseWall_wallLine (w : Wall) :
  wallOK w -> parseWall (wallLine w) = Some w.
Proof.
  intros (G1 & G2 & G3 & G4 & A).
  apply gridCoord_quot in G1, G2, G3, G4.
  destruct G1 as [R1 W1], G2 as [R2 W2], G3 as [R3 W3], G4 as [R4 W4].
  rewrite wallLine_shape. unfold parseWall.
  rewrite (extractInt_showInt _ _ R1 (delimited_space _)), extractInt_space.
  rewrite (extractInt_showInt _ _ R2 (delimited_space _)), extractInt_space.
  rewrite (extractInt_showInt _ _ R3 (delimited_space _)), extractInt_space.
  rewrite (extractInt_showInt _ _ R4 (delimited_space _)), extractInt_space.
  rewrite (extractInt_showNat (if isPortal w then 1 else 0)),
    extractInt_space;
    [| destruct (isPortal w); unfold INT_MAX; lia | apply delimited_space].
  rewrite (extractInt_showInt _ [] A I).
  rewrite W1, W2, W3, W4.
  destruct w as [[a b] [c d] [|] j]; reflexivity.
Qed.

Lemma headerLine_shape (i : Z) (sec : Sector) :
  headerLine i sec
  = showNat i ++ space
    :: showNat (Z.of_nat (length (walls sec))) ++ space
    :: showFloat (floorHeight sec) ++ space
    :: showFloat (ceilingHeight sec) ++ [].
Proof.
  unfold headerLine. rewrite app_nil_r.
  repeat rewrite <- app_assoc. reflexivity.
Qed.

Lemma parseHeader_headerLine (i : Z) (sec : Sector) :
  0 <= i <= INT_MAX -> sectorOK sec -> heightsOK sec ->
  parseHeader (headerLine i sec)
  = Some (i, Z.of_nat (length (walls sec)),
          reread (floorHeight sec), reread (ceilingHeight sec)).
Proof.
  intros Hi [_ Hn] [Hf Hc]. rewrite headerLine_shape. unfold parseHeader.
  rewrite (extractInt_showNat i _ Hi (delimited_space _)), extractInt_space.
  rewrite (extractInt_showNat (Z.of_nat (length (walls sec))) _
             (conj (Nat2Z.is_nonneg _) Hn) (delimited_space _)).
  unfold fprec, femax. rewrite extractFloat_space.
  rewrite (showFloat_reread _ _ Hf (delimited_space _)), extractFloat_space.
  now rewrite (showFloat_reread _ [] Hc I).
Qed.

Lemma headerLine_nonempty (i : Z) (sec : Sector) :
  exists c l, headerLine i sec = c :: l.
Proof.
  rewrite headerLine_shape. pose proof (showNat_nonempty i).
  destruct (showNat i) as [|c l]; [congruence|]. cbn [app]. eauto.
Qed.

(** *** The records of a saved map are loaded one by one *)

Lemma wallLoop_saved
    (K : list text -> list Sector -> bool * list Sector)
    (f c : float) (acc : list Sector) (ws : list Wall) :
  Forall wallOK ws ->
  forall done rest,
    wallLoop K (Z.of_nat (length done + length ws)) f c acc
      (Z.of_nat (length done)) (map wallLine ws ++ [] :: rest) done
    = K rest (acc ++ [mkSector (done ++ ws) f c]).
Proof.
  induction 1 as [|w ws Hw _ IH]; intros done rest; cbn [map app wallLoop].
  - rewrite Nat.add_0_r, Z.ltb_irrefl, app_nil_r. reflexivity.
  - destruct (Z.ltb_spec (Z.of_nat (length done))
                (Z.of_nat (length done + length (w :: ws))));
      [|cbn [length] in *; lia].
    rewrite (parseWall_wallLine w Hw).
    specialize (IH (done ++ [w]) rest).
    rewrite length_app in IH. cbn [length] in IH.
    replace (length done + 1 + length ws)%nat
      with (length done + S (length ws))%nat in IH by lia.
    replace (Z.of_nat (length done + 1)) with (Z.of_nat (length done) + 1)
      in IH by lia.
    cbn [length]. rewrite IH. now rewrite <- app_assoc.
Qed.

Lemma loadLines_saved (ss : list Sector) :
  forall i acc,
    0 <= i -> i + Z.of_nat (length ss) <= INT_MAX + 1 ->
    Forall sectorOK ss -> Forall heightsOK ss ->
    loadLines (linesFrom i ss) acc = (true, acc ++ map requantized ss).
Proof.
  induction ss as [|sec ss IH]; intros i acc Hi Hlen Hs Hh;
    cbn [linesFrom map].
  - cbn. now rewrite app_nil_r.
  - inversion Hs as [|? ? Hsec Hss]; inversion Hh as [|? ? Hhsec Hhss]; subst.
    cbn [length] in Hlen.
    destruct (headerLine_nonempty i sec) as (c & l & E).
    cbn [loadLines]. rewrite E. rewrite <- E.
    rewrite (parseHeader_headerLine i sec ltac:(lia) Hsec Hhsec).
    pose proof (wallLoop_saved loadLines (reread (floorHeight sec))
                  (reread (ceilingHeight sec)) acc (walls sec)
                  (proj1 Hsec) [] (linesFrom (i + 1) ss)) as W.
    cbn [length app Nat.add] in W. change (Z.of_nat 0) with 0 in W.
    rewrite W. rewrite IH by (auto; lia).
    rewrite <- app_assoc. reflexivity.
Qed.

(** *** What [loadMap] builds *)

Lemma parseWall_OK (l : text) (w : Wall) : parseWall l = Some w -> wallOK w.
Proof.
  unfold parseWall.
  destruct (extractInt l) as [a r1| |]; try discriminate.
  destruct (extractInt r1) as [b r2| |]; try discriminate.
  destruct (extractInt r2) as [c r3| |]; try discriminate.
  destruct (extractInt r3) as [d r4| |]; try discriminate.
  destruct (extractInt r4) as [p r5| |]; try discriminate.
  destruct (extractInt r5) as [j r6| |] eqn:Ej; try discriminate.
  intros H. inversion H; subst. unfold wallOK.
  cbn [p1 p2 px py adjoiningSector].
  repeat split; try apply wrap_grid; apply (extractInt_range _ _ _ Ej).
Qed.

Lemma parseHeader_range (l : text) (i n : Z) (f c : float) :
  parseHeader l = Some (i, n, f, c) -> n <= INT_MAX.
Proof.
  unfold parseHeader.
  destruct (extractInt l) as [a r1| |]; try discriminate.
  destruct (extractInt r1) as [b r2| |] eqn:Eb; try discriminate.
  destruct (extractFloat _ _ r2) as [x r3| |]; try discriminate.
  destruct (extractFloat _ _ r3) as [y r4| |]; try discriminate.
  intros H. inversion H; subst. apply (extractInt_range _ _ _ Eb).
Qed.

Lemma wallLoop_OK
    (K : list text -> list Sector -> bool * list Sector)
    (wallCount : Z) (f c : float) (acc : list Sector) (n : nat) :
  (forall ls acc', (length ls <= n)%nat -> Forall sectorOK acc' ->
                   Forall sectorOK (snd (K ls acc'))) ->
  wallCount <= INT_MAX -> Forall sectorOK acc ->
  forall rest i ws,
    (length rest <= S n)%nat ->
    i = Z.of_nat (length ws) -> i <= Z.max wallCount 0 ->
    Forall wallOK ws ->
    Forall sectorOK (snd (wallLoop K wallCount f c acc i rest ws)).
Proof.
  intros HK Hwc Hacc.
  induction rest as [|l rest IH]; intros i ws Hlen Hi Hmax Hws;
    cbn [wallLoop].
  - destruct (Z.ltb_spec i wallCount); cbn [snd]; [exact Hacc|].
    apply Forall_app. split; [exact Hacc|]. constructor; [|constructor].
    split; cbn [walls]; [exact Hws | unfold INT_MAX in *; lia].
  - destruct (Z.ltb_spec i wallCount).
    + destruct (parseWall l) as [w|] eqn:Ew; cbn [snd]; [|exact Hacc].
      apply IH.
      * cbn [length] in Hlen. lia.
      * rewrite length_app. cbn [length]. lia.
      * lia.
      * apply Forall_app. split; [exact Hws|].
        constructor; [|constructor]. exact (parseWall_OK _ _ Ew).
    + apply HK; [cbn [length] in Hlen; lia|].
      apply Forall_app. split; [exact Hacc|]. constructor; [|constructor].
      split; cbn [walls]; [exact Hws | unfold INT_MAX in *; lia].
Qed.

Lemma loadLines_OK (n : nat) :
  forall ls acc, (length ls <= n)%nat -> Forall sectorOK acc ->
                 Forall sectorOK (snd (loadLines ls acc)).
Proof.
  induction n as [|n IH]; intros ls acc Hlen Hacc.
  - destruct ls; [exact Hacc | cbn in Hlen; lia].
  - destruct ls as [|line rest]; [exact Hacc|]. cbn [loadLines].
    cbn [length] in Hlen.
    destruct line as [|c line]; [apply IH; [lia | exact Hacc]|].
    destruct (parseHeader (c :: line)) as [[[[i wc] f] h]|] eqn:Eh;
      [|exact Hacc].
    apply (wallLoop_OK loadLines wc f h acc n IH
             (parseHeader_range _ _ _ _ _ Eh) Hacc rest 0 []);
      [lia | reflexivity | lia | constructor].
Qed.

(** *** Save, then load *)

(** C8, amended: a map that was loaded, then saved and loaded again, has the
    same number of sectors and the same walls (coordinates, portal flags
    and links); each height comes back as the value of the 6-digit text
    [saveMap] writes for it, which is the height itself only when six
    significant digits are enough to write it.  (The heights are finite
    [float]s; the sectors are at most 2^31, so that the sector numbers
    written fit the [int] they are read into.) *)
Theorem save_load_roundtrip (F : text) (prev prev' ss : list Sector) :
  loadMap (Some F) prev = (true, ss) ->
  Z.of_nat (length ss) <= 2 ^ 31 ->
  Forall heightsOK ss ->
  loadMap (Some (saveMap ss)) prev' = (true, map requantized ss)
  /\ length (map requantized ss) = length ss
  /\ map walls (map requantized ss) = map walls ss
  /\ (forall sec,
        reread (floorHeight sec) = floorHeight sec ->
        reread (ceilingHeight sec) = ceilingHeight sec ->
        requantized sec = sec).
Proof.
  intros Hload Hlen Hh. split; [|split; [|split]].
  - assert (Hok : Forall sectorOK ss).
    { unfold loadMap in Hload.
      pose proof (loadLines_OK (length (lines F)) (lines F) []
                    (Nat.le_refl _) (Forall_nil _)) as H.
      now rewrite Hload in H. }
    unfold loadMap, saveMap. rewrite (lines_saveFrom ss 0 Hh).
    rewrite (loadLines_saved ss 0 []); [reflexivity | lia | | exact Hok | exact Hh].
    unfold INT_MAX. lia.
  - apply length_map.
  - rewrite map_map. reflexivity.
  - intros [ws f c] Ef Ec. unfold requantized. cbn in *. now rewrite Ef, Ec.
Qed.

(** A height of seven digits does not survive: 1234567 is written as
    1.23457e+06 and read back as 1234570. *)
Lemma save_load_loses_heights :
  fst (loadMap (Some Files.sevenDigitFile) []) = true
  /\ fst (loadMap
            (Some (saveMap (snd (loadMap (Some Files.sevenDigitFile) []))))
            []) = true
  /\ snd (loadMap
            (Some (saveMap (snd (loadMap (Some Files.sevenDigitFile) []))))
            [])
     <> snd (loadMap (Some Files.sevenDigitFile) []).
Proof.
  split; [vm_compute; reflexivity|]. split; [vm_compute; reflexivity|].
  vm_compute. discriminate.
Qed.

Lemma save_load_roundtrip_witness :
  loadMap
    (Some (saveMap (snd (loadMap (Some Files.twoSectorFile) [])))) []
  = loadMap (Some Files.twoSectorFile) [].
Proof.
  destruct (save_load_roundtrip Files.twoSectorFile [] []
              (snd (loadMap (Some Files.twoSectorFile) [])))
    as (E & _).
  - vm_compute; reflexivity.
  - vm_compute; discriminate.
  - repeat constructor; vm_compute; reflexivity.
  - rewrite E. vm_compute; reflexivity.
Defined.

End SaveLoad.

(** ** Loading a malformed file *)

Section LoadFailure.
Import Ascii Text Fixtures.

Lemma editor_wallLoop_short
    (K : list text -> list Editor.Sector -> bool * list Editor.Sector)
    (wallCount : Z) (f c : Editor.float) (acc : list Editor.Sector) :
  forall rest i ws j,
    Z.of_nat j < wallCount - i ->
    match nth_error rest j with
    | None => True
    | Some l => Editor.parseWall l = None
    end ->
    fst (Editor.wallLoop K wallCount f c acc i rest ws) = false.
Proof.
  induction rest as [|l rest IH]; intros i ws j Hj Hbad;
    cbn [Editor.wallLoop];
    (destruct (Z.ltb_spec i wallCount); [|lia]).
  - reflexivity.
  - destruct (Editor.parseWall l) as [w|] eqn:Ew; [|reflexivity].
    destruct j as [|j]; [cbn in Hbad; congruence|].
    apply (IH (i + 1) _ j); [lia | exact Hbad].
Qed.

(** C3, amended: [loadMap] returns false to its caller when it meets a
    malformed sector header, and when the lines after a header do not supply
    the announced number of walls; a file that cannot be opened leaves the
    collection as it was, but any other load starts by clearing it, so
    that what it leaves never depends on the map loaded before.  The
    engine's [loadMapFromFile] behaves alike on a file it cannot open and
    clears the collection alike; it returns nothing to its caller, and a
    line that is no sector header is skipped and the load goes on. *)
Theorem load_failure_behaviour :
  (forall prev, Editor.loadMap None prev = (false, prev))
  /\ (forall F prev prev',
        Editor.loadMap (Some F) prev = Editor.loadMap (Some F) prev')
  /\ (forall line rest acc,
        line <> [] -> Editor.parseHeader line = None ->
        Editor.loadLines (line :: rest) acc = (false, acc))
  /\ (forall line rest acc sectorID wallCount floorH ceilH j,
        line <> [] ->
        Editor.parseHeader line = Some (sectorID, wallCount, floorH, ceilH) ->
        Z.of_nat j < wallCount ->
        match nth_error rest j with
        | None => True
        | Some l => Editor.parseWall l = None
        end ->
        fst (Editor.loadLines (line :: rest) acc) = false)
  /\ (forall prev, Engine.loadMapFromFile None prev = Some prev)
  /\ (forall F prev prev',
        Engine.loadMapFromFile (Some F) prev
        = Engine.loadMapFromFile (Some F) prev')
  /\ (forall clean line rest acc,
        Engine.skipped line = false -> Engine.parseHeader line = None ->
        Engine.loadLines clean (line :: rest) acc
        = Engine.loadLines clean rest acc).
Proof.
  repeat split.
  - intros [|c line] rest acc Hne Hh; [congruence|].
    cbn [Editor.loadLines]. now rewrite Hh.
  - intros [|c line] rest acc i wc f h j Hne Hh Hj Hbad; [congruence|].
    cbn [Editor.loadLines]. rewrite Hh.
    apply (editor_wallLoop_short _ _ _ _ _ rest 0 [] j); [lia | exact Hbad].
  - intros clean line rest acc Hs Hh. cbn [Engine.loadLines].
    now rewrite Hs, Hh.
Qed.

(** With a map loaded, loading a file whose first line is garbage fails
    and leaves the collection empty, and loading a truncated file fails and
    leaves the one sector read before the failure. *)
Lemma load_failure_discards_map :
  Editor.loadMap (Some Files.garbageFile) fourSectors = (false, [])
  /\ snd (Editor.loadMap (Some Files.garbageFile) fourSectors) <> fourSectors
  /\ fst (Editor.loadMap (Some Files.truncatedFile) fourSectors) = false
  /\ snd (Editor.loadMap (Some Files.truncatedFile) fourSectors) <> fourSectors
  /\ Engine.loadMapFromFile (Some Files.garbageFile) twoRooms = Some []
  /\ Engine.loadMapFromFile (Some Files.garbageFile) twoRooms <> Some twoRooms.
Proof.
  repeat split; try (vm_compute; reflexivity); vm_compute; discriminate.
Qed.

Lemma load_failure_behaviour_witness :
  Editor.loadLines (lines Files.garbageFile) [] = (false, [])
  /\ fst (Editor.loadLines (skipn 3 (lines Files.truncatedFile))
            (firstn 1 fourSectors)) = false.
Proof.
  destruct load_failure_behaviour as (_ & _ & Hh & Hw & _).
  split.
  - apply Hh; [vm_compute; discriminate | vm_compute; reflexivity].
  - refine (Hw _ _ _ 1 3 (Editor.f_of_Z 0) (Editor.f_of_Z 4) 1%nat _ _ _ _);
      [vm_compute; discriminate | vm_compute; reflexivity | lia
      | vm_compute; exact I].
Defined.

End LoadFailure.

(** * Further properties of the code *)

(** ** Engine: pixels written by a frame *)

Section Pixels.
Import Engine Surface.

Lemma pixelIndex_exact (stride x y h : Z) :
  0 <= x < stride -> 0 <= y < h -> stride * h <= INT_MAX + 1 ->
  pixelIndex stride x y = y * stride + x
  /\ 0 <= y * stride + x < stride * h.
Proof.
  intros Hx Hy Hh. unfold pixelIndex, Int.add, Int.mul.
  assert (B : 0 <= y * stride + x < stride * h) by nia.
  assert (0 <= y * stride <= y * stride + x) by nia.
  unfold INT_MAX in Hh.
  rewrite (wrap_small (y * stride)) by (unfold INT_MIN, INT_MAX; lia).
  rewrite wrap_small by (unfold INT_MIN, INT_MAX; lia).
  split; [reflexivity | exact B].
Qed.

Lemma column_rows (stride x : Z) (color : Color) (n : nat) :
  forall y,
    column stride x color y n
    = map (fun k => Store (pixelIndex stride x (y + Z.of_nat k)) color)
        (seq 0 n).
Proof.
  induction n as [|n IH]; intros y; cbn [column seq map]; [reflexivity|].
  rewrite Z.add_0_r. f_equal. rewrite IH, <- seq_shift, map_map.
  apply map_ext. intros k. do 2 f_equal. lia.
Qed.

Lemma drawVerticalLine_rows (pitch x start end_ h : Z) (color : Color) :
  0 <= x < Z.quot pitch 4 -> 0 <= start -> end_ <= h ->
  Z.quot pitch 4 * h <= INT_MAX + 1 ->
  drawVerticalLine pitch x start end_ color
  = map (fun k => Store ((start + Z.of_nat k) * Z.quot pitch 4 + x) color)
      (seq 0 (Z.to_nat (end_ - start)))
  /\ Forall (inBuffer (Z.quot pitch 4) h)
       (drawVerticalLine pitch x start end_ color).
Proof.
  intros Hx Hs He Hh. unfold drawVerticalLine. rewrite column_rows.
  assert (P : forall k, In k (seq 0 (Z.to_nat (end_ - start))) ->
                        0 <= start + Z.of_nat k < h).
  { intros k Hk. apply in_seq in Hk. lia. }
  split.
  - apply map_ext_in. intros k Hk.
    now rewrite (proj1 (pixelIndex_exact _ x _ h Hx (P k Hk) Hh)).
  - apply Forall_forall. intros d Hd. apply in_map_iff in Hd.
    destruct Hd as (k & <- & Hk).
    destruct (pixelIndex_exact _ x _ h Hx (P k Hk) Hh) as [-> B].
    unfold inBuffer. eauto.
Qed.

(** X1: [drawVerticalLine] stores one pixel for each row from [start] to
    [end - 1], from the top down and all in column [x], and nothing when
    [end <= start]; when [0 <= x < pitch / 4], [0 <= start] and [end <= h]
    on a surface of [h] rows whose pixels an [int] can index, every store
    lies inside the pixel buffer. *)
Theorem drawVerticalLine_in_bounds
    (pitch x start end_ h : Z) (color : Color) :
  0 <= x < Z.quot pitch 4 -> 0 <= start -> end_ <= h ->
  Z.quot pitch 4 * h <= INT_MAX + 1 ->
  length (drawVerticalLine pitch x start end_ color)
  = Z.to_nat (end_ - start)
  /\ (end_ <= start -> drawVerticalLine pitch x start end_ color = [])
  /\ drawVerticalLine pitch x start end_ color
     = map (fun k => Store ((start + Z.of_nat k) * Z.quot pitch 4 + x) color)
         (seq 0 (Z.to_nat (end_ - start)))
  /\ Forall (inBuffer (Z.quot pitch 4) h)
       (drawVerticalLine pitch x start end_ color).
Proof.
  intros Hx Hs He Hh.
  destruct (drawVerticalLine_rows pitch x start end_ h color Hx Hs He Hh)
    as [E B].
  split; [|split; [|split; [exact E | exact B]]].
  - rewrite E, length_map. apply length_seq.
  - intros Hle. rewrite E.
    replace (Z.to_nat (end_ - start)) with 0%nat by lia. reflexivity.
Qed.

Lemma drawVerticalLine_in_bounds_witness :
  drawVerticalLine 4320 5 2 4 solidColor
  = [Store 2165 solidColor; Store 3245 solidColor]
  /\ Forall (inBuffer 1080 720) (drawVerticalLine 4320 5 2 4 solidColor).
Proof.
  destruct (drawVerticalLine_in_bounds 4320 5 2 4 720 solidColor)
    as (_ & _ & E & B);
    [ cbn; lia | lia | lia | cbn; unfold INT_MAX; lia | ].
  split; [rewrite E; reflexivity | exact B].
Defined.

Lemma int_of_double_range (d : double) :
  INT_MIN <= int_of_double d <= INT_MAX.
Proof.
  unfold int_of_double. destruct (truncate d) as [z|].
  - destruct (Z.leb_spec INT_MIN z), (Z.leb_spec z INT_MAX); cbn [andb];
      unfold INT_MIN, INT_MAX in *; lia.
  - unfold INT_MIN, INT_MAX. lia.
Qed.

Lemma drawSpans_column (x : Z) (h d : double) (s : Sector) (b : bool) :
  spansOfColumn x (drawSpans x h d s b).
Proof.
  unfold spansOfColumn, drawSpans.
  match goal with
  | |- context [if ?c then _ else _] => destruct c
  end; do 5 eexists; (split; [reflexivity|]); unfold SCREEN_HEIGHT; lia.
Qed.

Lemma portalLoop_columns (sectors : list Sector) (x : Z)
    (playerHeight rayDirX rayDirY : double) (n : nat) :
  forall rayX rayY totalDist segs,
    portalLoop sectors x playerHeight rayDirX rayDirY n rayX rayY totalDist
    = Some segs ->
    Forall (fun seg => spansOfColumn x (segSpans seg)) segs.
Proof.
  induction n as [|n IH]; intros rayX rayY totalDist segs H;
    cbn [portalLoop] in H.
  - inversion H. constructor.
  - destruct (hitWall _) as [hw|]; [|inversion H; constructor].
    destruct (sector_at sectors _) as [s|]; [|discriminate].
    destruct (negb _);
      [inversion H; repeat constructor; apply drawSpans_column|].
    destruct (_ || _)%bool;
      [inversion H; repeat constructor; apply drawSpans_column|].
    destruct (portalLoop _ _ _ _ _ n _ _ _) as [rest|] eqn:E; [|discriminate].
    inversion H. constructor; [apply drawSpans_column | eapply IH; eassumption].
Qed.

Lemma renderColumnDepth_columns (depth : nat) (sectors : list Sector)
    (p : Player) (playerHeight : double) (x : Z) (segs : list Segment) :
  renderColumnDepth depth sectors p playerHeight x = Some segs ->
  Forall (fun seg => spansOfColumn x (segSpans seg)) segs.
Proof.
  unfold renderColumnDepth. apply portalLoop_columns.
Qed.

Lemma renderColumn_depth (sectors : list Sector) (p : Player)
    (playerHeight : double) (x : Z) :
  renderColumn sectors p playerHeight x
  = renderColumnDepth MAX_PORTAL_DEPTH sectors p playerHeight x.
Proof.
  reflexivity.
Qed.

Lemma renderColumns_S (sectors : list Sector) (p : Player)
    (playerHeight : double) (x : Z) (n : nat) :
  renderColumns sectors p playerHeight x (S n)
  = match renderColumn sectors p playerHeight x with
    | None => None
    | Some col =>
        match renderColumns sectors p playerHeight (x + 1) n with
        | None => None
        | Some cols => Some (col :: cols)
        end
    end.
Proof.
  reflexivity.
Qed.

Lemma renderColumns_columns (sectors : list Sector) (p : Player)
    (playerHeight : double) (n : nat) :
  forall x0 cols,
    renderColumns sectors p playerHeight x0 n = Some cols ->
    length cols = n
    /\ forall k segs, nth_error cols k = Some segs ->
         Forall (fun seg => spansOfColumn (x0 + Z.of_nat k) (segSpans seg))
           segs.
Proof.
  induction n as [|n IH]; intros x0 cols H.
  - inversion H. split; [reflexivity|]. intros [|k] segs E; discriminate E.
  - rewrite renderColumns_S in H.
    destruct (renderColumn sectors p playerHeight x0) as [col|] eqn:Ec;
      [|discriminate].
    destruct (renderColumns _ _ _ _ n) as [rest|] eqn:Er; [|discriminate].
    inversion H; subst. destruct (IH _ _ Er) as [L F].
    split; [cbn; now rewrite L|].
    intros [|k] segs E; cbn [nth_error] in E.
    + inversion E; subst. rewrite Z.add_0_r.
      rewrite renderColumn_depth in Ec.
      exact (renderColumnDepth_columns _ _ _ _ _ _ Ec).
    + replace (x0 + Z.of_nat (S k)) with (x0 + 1 + Z.of_nat k) by lia.
      now apply F.
Qed.

(** X2: a frame has no column when the player stands outside every sector
    and [SCREEN_WIDTH] columns otherwise.  Every depth step of column [x]
    issues its three calls on column [x]: the ceiling from row 0, the wall
    between row 0 and row [SCREEN_HEIGHT - 1], the floor from a row that
    is at most the last one down to row [SCREEN_HEIGHT].  The wall span is
    therefore always painted inside a buffer of [SCREEN_WIDTH] by
    [SCREEN_HEIGHT] pixels; nothing bounds the end of the ceiling span from
    above nor the start of the floor span from below. *)
Theorem renderFrame_spans (sectors : list Sector) (p : Player)
    (cols : list (list Segment)) :
  renderFrame sectors p = Some cols ->
  (getSectorForPosition sectors (posX p) (posY p) = -1 -> cols = [])
  /\ (getSectorForPosition sectors (posX p) (posY p) <> -1 ->
      Z.of_nat (length cols) = SCREEN_WIDTH)
  /\ forall x segs seg,
       nth_error cols x = Some segs -> In seg segs ->
       0 <= Z.of_nat x < SCREEN_WIDTH
       /\ spansOfColumn (Z.of_nat x) (segSpans seg)
       /\ forall pitch wall,
            nth_error (segSpans seg) 1 = Some wall ->
            SCREEN_WIDTH <= Z.quot pitch 4 ->
            Z.quot pitch 4 * SCREEN_HEIGHT <= INT_MAX + 1 ->
            Forall (inBuffer (Z.quot pitch 4) SCREEN_HEIGHT)
              (paint pitch wall).
Proof.
  unfold renderFrame. intros H.
  destruct (Z.eqb_spec (getSectorForPosition sectors (posX p) (posY p)) (-1))
    as [E|E].
  - inversion H. split; [reflexivity|]. split; [congruence|].
    intros [|x] segs seg N; discriminate N.
  - destruct (sector_at sectors _) as [s|]; [|discriminate].
    destruct (renderColumns_columns _ _ _ _ _ _ H) as [L F].
    split; [congruence|]. split; [intros _; rewrite L; reflexivity|].
    intros x segs seg N I.
    assert (Hx : 0 <= Z.of_nat x < SCREEN_WIDTH).
    { assert (x < length cols)%nat by (apply nth_error_Some; congruence).
      rewrite L in *. unfold SCREEN_WIDTH in *. lia. }
    assert (Sp : spansOfColumn (Z.of_nat x) (segSpans seg)).
    { specialize (F x segs N). rewrite Forall_forall in F. now apply F. }
    split; [exact Hx|]. split; [exact Sp|].
    intros pitch wall Hw Hs Hh.
    destruct Sp as (c & ds & de & f & b & Es & _ & Hds & Hde & _).
    rewrite Es in Hw. inversion Hw; subst wall. unfold paint.
    cbn [spanX spanStart spanEnd spanColor].
    apply (drawVerticalLine_rows pitch (Z.of_nat x) ds de SCREEN_HEIGHT);
      unfold SCREEN_HEIGHT in *; lia.
Qed.

Lemma renderFrame_spans_witness :
  exists cols,
    renderFrame Fixtures.twoRooms (Fixtures.viewerAt 2 2) = Some cols
    /\ Z.of_nat (length cols) = SCREEN_WIDTH.
Proof.
  destruct (renderFrame_total Fixtures.twoRooms (Fixtures.viewerAt 2 2))
    as [cols E].
  exists cols. split; [exact E|].
  apply (renderFrame_spans _ _ _ E). vm_compute. discriminate.
Defined.

End Pixels.

(** ** Engine: the lines of the minimap *)

Section Bresenham.
Import Engine Surface Editor.

Variable stride : Z.
Variable color : Color.
Variables x1 y1 x2 y2 : Z.
Hypothesis Hx1 : fits x1.
Hypothesis Hy1 : fits y1.
Hypothesis Hx2 : fits x2.
Hypothesis Hy2 : fits y2.

Let DX := Z.abs (x2 - x1).
Let DY := Z.abs (y2 - y1).
Let sx := if x1 <? x2 then 1 else -1.
Let sy := if y1 <? y2 then 1 else -1.

(** The error term after [a] steps along x and [b] steps along y. *)
Let errAt (a b : Z) : Z := (b + 1) * DX - (a + 1) * DY.

(** The bounds the error term keeps, by the major axis of the line. *)
Let Inv (e : Z) : Prop :=
  (DY <= DX /\ - DY <= 2 * e <= 3 * DX - 2 * DY)
  \/ (DX < DY /\ 2 * DX - 3 * DY <= 2 * e <= DX).

Lemma plot_onLine (cx cy : Z) :
  Z.min x1 x2 <= cx <= Z.max x1 x2 -> Z.min y1 y2 <= cy <= Z.max y1 y2 ->
  Forall (onLine stride color x1 y1 x2 y2) (plot stride color cx cy).
Proof.
  intros Bx By. unfold plot. destruct (inMinimap cx cy) eqn:E;
    [|constructor].
  constructor; [|constructor]. exists cx, cy. auto.
Qed.

Lemma lineLoop_run (fuel : nat) :
  forall a b,
    0 <= a <= DX -> 0 <= b <= DY -> Inv (errAt a b) ->
    (DX - a) + (DY - b) < Z.of_nat fuel ->
    exists ds,
      lineLoop stride color x2 y2 DX (- DY) sx sy fuel
        (x1 + sx * a) (y1 + sy * b) (errAt a b) = Some ds
      /\ Forall (onLine stride color x1 y1 x2 y2) ds
      /\ (exists rest,
            ds = plot stride color (x1 + sx * a) (y1 + sy * b) ++ rest)
      /\ (exists front, ds = front ++ plot stride color x2 y2).
Proof.
  unfold fits in *.
  assert (HDX : 0 <= DX <= 2 ^ 29) by (unfold DX; lia).
  assert (HDY : 0 <= DY <= 2 ^ 29) by (unfold DY; lia).
  assert (Sx : sx * DX = x2 - x1).
  { unfold sx, DX. destruct (Z.ltb_spec x1 x2); lia. }
  assert (Sy : sy * DY = y2 - y1).
  { unfold sy, DY. destruct (Z.ltb_spec y1 y2); lia. }
  assert (Ex : sx = 1 \/ sx = -1) by (unfold sx; destruct (x1 <? x2); auto).
  assert (Ey : sy = 1 \/ sy = -1) by (unfold sy; destruct (y1 <? y2); auto).
  assert (Bx : forall a, 0 <= a <= DX ->
                 Z.min x1 x2 <= x1 + sx * a <= Z.max x1 x2).
  { intros a Ha. unfold sx, DX in *. destruct (Z.ltb_spec x1 x2); lia. }
  assert (By : forall b, 0 <= b <= DY ->
                 Z.min y1 y2 <= y1 + sy * b <= Z.max y1 y2).
  { intros b Hb. unfold sy, DY in *. destruct (Z.ltb_spec y1 y2); lia. }
  induction fuel as [|fuel IH]; intros a b Ha Hb HI Hf; [lia|].
  cbn [lineLoop].
  pose proof (plot_onLine _ _ (Bx a Ha) (By b Hb)) as Hhere.
  destruct ((x1 + sx * a =? x2) && (y1 + sy * b =? y2)) eqn:Fin.
  { eexists. split; [reflexivity|]. split; [exact Hhere|].
    split; [exists []; now rewrite app_nil_r|].
    apply andb_true_iff in Fin. destruct Fin as [F1 F2].
    apply Z.eqb_eq in F1, F2. rewrite F1, F2. now exists []. }
  (* not at the end point *)
  assert (Hnot : a < DX \/ b < DY).
  { destruct (Z.eq_dec a DX) as [->|]; [|lia].
    destruct (Z.eq_dec b DY) as [->|]; [|lia].
    rewrite Sx, Sy in Fin.
    replace (x1 + (x2 - x1)) with x2 in Fin by lia.
    replace (y1 + (y2 - y1)) with y2 in Fin by lia.
    now rewrite !Z.eqb_refl in Fin. }
  set (e := errAt a b) in *.
  assert (He : e = (b + 1) * DX - (a + 1) * DY) by reflexivity.
  assert (R2 : Int.mul 2 e = 2 * e).
  { unfold Int.mul. apply wrap_small. unfold INT_MIN, INT_MAX.
    destruct HI as [[? ?]|[? ?]]; lia. }
  rewrite R2.
  destruct (Z.geb_spec (2 * e) (- DY)) as [Gx|Gx];
    destruct (Z.leb_spec (2 * e) DX) as [Gy|Gy].
  - (* both steps *)
    assert (a < DX /\ b < DY) as [Ha' Hb'].
    { destruct HI as [[? ?]|[? ?]]; split; nia. }
    assert (R1 : Int.add e (- DY) = e - DY).
    { unfold Int.add. rewrite wrap_small; unfold INT_MIN, INT_MAX; lia. }
    assert (R3 : Int.add (x1 + sx * a) sx = x1 + sx * (a + 1)).
    { unfold Int.add. pose proof (Bx (a + 1) ltac:(lia)).
      replace (x1 + sx * a + sx) with (x1 + sx * (a + 1)) by lia.
      apply wrap_small. unfold INT_MIN, INT_MAX. lia. }
    assert (R4 : Int.add (e - DY) DX = errAt (a + 1) (b + 1)).
    { unfold Int.add, errAt. replace (e - DY + DX)
        with ((b + 1 + 1) * DX - (a + 1 + 1) * DY) by lia.
      apply wrap_small. unfold INT_MIN, INT_MAX.
      destruct HI as [[? ?]|[? ?]]; lia. }
    assert (R5 : Int.add (y1 + sy * b) sy = y1 + sy * (b + 1)).
    { unfold Int.add. pose proof (By (b + 1) ltac:(lia)).
      replace (y1 + sy * b + sy) with (y1 + sy * (b + 1)) by lia.
      apply wrap_small. unfold INT_MIN, INT_MAX. lia. }
    rewrite R1, R3, R4, R5.
    destruct (IH (a + 1) (b + 1)) as (rest & -> & Hrest & _ & (front & Hfront));
      try lia.
    { unfold Inv, errAt. destruct HI as [[? ?]|[? ?]]; [left | right]; lia. }
    eexists. split; [reflexivity|]. split; [apply Forall_app; now split|].
    split; [now exists rest|]. rewrite Hfront. eexists.
    now rewrite app_assoc.
  - (* x only *)
    assert (Ha' : a < DX).
    { destruct HI as [[? ?]|[? ?]]; nia. }
    assert (R1 : Int.add e (- DY) = errAt (a + 1) b).
    { unfold Int.add, errAt.
      replace (e + - DY) with ((b + 1) * DX - (a + 1 + 1) * DY) by lia.
      apply wrap_small. unfold INT_MIN, INT_MAX.
      destruct HI as [[? ?]|[? ?]]; lia. }
    assert (R3 : Int.add (x1 + sx * a) sx = x1 + sx * (a + 1)).
    { unfold Int.add. pose proof (Bx (a + 1) ltac:(lia)).
      replace (x1 + sx * a + sx) with (x1 + sx * (a + 1)) by lia.
      apply wrap_small. unfold INT_MIN, INT_MAX. lia. }
    rewrite R1, R3.
    destruct (IH (a + 1) b) as (rest & -> & Hrest & _ & (front & Hfront));
      try lia.
    { unfold Inv, errAt. destruct HI as [[? ?]|[? ?]]; [left | right]; lia. }
    eexists. split; [reflexivity|]. split; [apply Forall_app; now split|].
    split; [now exists rest|]. rewrite Hfront. eexists.
    now rewrite app_assoc.
  - (* y only *)
    assert (Hb' : b < DY).
    { destruct HI as [[? ?]|[? ?]]; nia. }
    assert (R4 : Int.add e DX = errAt a (b + 1)).
    { unfold Int.add, errAt.
      replace (e + DX) with ((b + 1 + 1) * DX - (a + 1) * DY) by lia.
      apply wrap_small. unfold INT_MIN, INT_MAX.
      destruct HI as [[? ?]|[? ?]]; lia. }
    assert (R5 : Int.add (y1 + sy * b) sy = y1 + sy * (b + 1)).
    { unfold Int.add. pose proof (By (b + 1) ltac:(lia)).
      replace (y1 + sy * b + sy) with (y1 + sy * (b + 1)) by lia.
      apply wrap_small. unfold INT_MIN, INT_MAX. lia. }
    rewrite R4, R5.
    destruct (IH a (b + 1)) as (rest & -> & Hrest & _ & (front & Hfront));
      try lia.
    { unfold Inv, errAt. destruct HI as [[? ?]|[? ?]]; [left | right]; lia. }
    eexists. split; [reflexivity|]. split; [apply Forall_app; now split|].
    split; [now exists rest|]. rewrite Hfront. eexists.
    now rewrite app_assoc.
  - (* no step at all: impossible *)
    lia.
Qed.

Lemma drawLine_run (fuel : nat) :
  DX + DY < Z.of_nat fuel ->
  exists ds,
    drawLine fuel stride color x1 y1 x2 y2 = Some ds
    /\ Forall (onLine stride color x1 y1 x2 y2) ds
    /\ (exists rest, ds = plot stride color x1 y1 ++ rest)
    /\ (exists front, ds = front ++ plot stride color x2 y2).
Proof.
  intros Hf. unfold drawLine, fits in *.
  assert (E1 : Int.abs (Int.sub x2 x1) = DX).
  { unfold Int.abs, Int.sub, DX.
    rewrite (wrap_small (x2 - x1)) by (unfold INT_MIN, INT_MAX; lia).
    apply wrap_small. unfold INT_MIN, INT_MAX. lia. }
  assert (E2 : Int.neg (Int.abs (Int.sub y2 y1)) = - DY).
  { unfold Int.neg, Int.abs, Int.sub, DY.
    rewrite (wrap_small (y2 - y1)) by (unfold INT_MIN, INT_MAX; lia).
    rewrite (wrap_small (Z.abs _)) by (unfold INT_MIN, INT_MAX; lia).
    apply wrap_small. unfold INT_MIN, INT_MAX. lia. }
  rewrite E1, E2.
  assert (E3 : Int.add DX (- DY) = errAt 0 0).
  { unfold Int.add, errAt. replace (DX + - DY)
      with ((0 + 1) * DX - (0 + 1) * DY) by lia.
    apply wrap_small. unfold INT_MIN, INT_MAX, DX, DY. lia. }
  rewrite E3.
  pose proof (lineLoop_run fuel 0 0) as H.
  replace (x1 + sx * 0) with x1 in H by lia.
  replace (y1 + sy * 0) with y1 in H by lia.
  apply H; unfold DX, DY in *; try lia.
  unfold Inv, errAt, DX, DY. lia.
Qed.

End Bresenham.

Section Minimap.
Import Engine Surface Editor.

(** A bound that suffices still suffices when raised. *)
Lemma lineLoop_more (stride : Z) (color : Color) (x2 y2 dx dy sx sy : Z)
    (fuel : nat) :
  forall cx cy err ds more,
    lineLoop stride color x2 y2 dx dy sx sy fuel cx cy err = Some ds ->
    lineLoop stride color x2 y2 dx dy sx sy (fuel + more) cx cy err = Some ds.
Proof.
  induction fuel as [|fuel IH]; intros cx cy err ds more H; [discriminate H|].
  cbn [lineLoop Nat.add] in *.
  destruct ((cx =? x2) && (cy =? y2)); [exact H|].
  destruct (Int.mul 2 err >=? dy), (Int.mul 2 err <=? dx);
    match type of H with
    | context [lineLoop _ _ _ _ _ _ _ _ fuel ?a ?b ?c] =>
        destruct (lineLoop stride color x2 y2 dx dy sx sy fuel a b c)
          as [rest|] eqn:E; [|discriminate H];
        now rewrite (IH a b c rest more E)
    end.
Qed.

(** X3: the line loop of the minimap ends.  For end points within
    [2^28] of zero it reaches its [break] after at most
    [|x2 - x1| + |y2 - y1| + 1] iterations, and a larger bound gives the
    same pixels.  Every store is a pixel of the minimap square, in the
    colour of the line and inside the bounding box of the two end points;
    the first point visited is [(x1, y1)] and the last is [(x2, y2)]. *)
Theorem drawLine_reaches_end (stride : Z) (color : Color)
    (x1 y1 x2 y2 : Z) (fuel : nat) :
  fits x1 -> fits y1 -> fits x2 -> fits y2 ->
  Z.abs (x2 - x1) + Z.abs (y2 - y1) < Z.of_nat fuel ->
  exists ds,
    drawLine fuel stride color x1 y1 x2 y2 = Some ds
    /\ (forall more,
          drawLine (fuel + more) stride color x1 y1 x2 y2 = Some ds)
    /\ Forall (onLine stride color x1 y1 x2 y2) ds
    /\ (exists rest, ds = plot stride color x1 y1 ++ rest)
    /\ (exists front, ds = front ++ plot stride color x2 y2).
Proof.
  intros Hx1 Hy1 Hx2 Hy2 Hf.
  destruct (drawLine_run stride color x1 y1 x2 y2 Hx1 Hy1 Hx2 Hy2 fuel Hf)
    as (ds & E & F & First & Last).
  exists ds. split; [exact E|]. split; [|now split].
  intros more. unfold drawLine in *. now apply lineLoop_more.
Qed.

Lemma drawLine_reaches_end_witness :
  exists ds,
    drawLine 5 1080 solidColor 12 12 15 13 = Some ds
    /\ Forall (onLine 1080 solidColor 12 12 15 13) ds.
Proof.
  destruct (drawLine_reaches_end 1080 solidColor 12 12 15 13 5)
    as (ds & E & _ & F & _);
    [ unfold fits; lia | unfold fits; lia | unfold fits; lia
    | unfold fits; lia | lia | ].
  exists ds. split; assumption.
Defined.

End Minimap.

Section MinimapResults.
Import Engine Surface.

Lemma inMinimap_bounds (cx cy : Z) :
  inMinimap cx cy = true ->
  MINIMAP_MARGIN <= cx < MINIMAP_MARGIN + MINIMAP_SIZE
  /\ MINIMAP_MARGIN <= cy < MINIMAP_MARGIN + MINIMAP_SIZE.
Proof.
  unfold inMinimap. intros H.
  apply andb_true_iff in H. destruct H as [H H4].
  apply andb_true_iff in H. destruct H as [H H3].
  apply andb_true_iff in H. destruct H as [H1 H2].
  apply Z.leb_le in H1, H3. apply Z.ltb_lt in H2, H4. lia.
Qed.

Lemma plot_inSquare (stride : Z) (color : Color) (cx cy : Z) :
  Forall (inSquare stride) (plot stride color cx cy).
Proof.
  unfold plot. destruct (inMinimap cx cy) eqn:E; [|constructor].
  constructor; [|constructor]. exists cx, cy, color.
  split; [reflexivity|]. now apply inMinimap_bounds.
Qed.

Lemma onLine_inSquare (stride : Z) (color : Color) (x1 y1 x2 y2 : Z)
    (d : Draw) :
  onLine stride color x1 y1 x2 y2 d -> inSquare stride d.
Proof.
  intros (cx & cy & -> & M & _). exists cx, cy, color.
  split; [reflexivity|]. now apply inMinimap_bounds.
Qed.

Lemma drawLine_inSquare (stride : Z) (color : Color) (x1 y1 x2 y2 : Z)
    (fuel : nat) :
  fits x1 -> fits y1 -> fits x2 -> fits y2 ->
  2 ^ 30 < Z.of_nat fuel ->
  exists ds, drawLine fuel stride color x1 y1 x2 y2 = Some ds
             /\ Forall (inSquare stride) ds.
Proof.
  intros Hx1 Hy1 Hx2 Hy2 Hf.
  destruct (drawLine_run stride color x1 y1 x2 y2 Hx1 Hy1 Hx2 Hy2 fuel)
    as (ds & E & F & _).
  { unfold fits in *. lia. }
  exists ds. split; [exact E|]. revert F. apply Forall_impl.
  apply onLine_inSquare.
Qed.

Lemma drawWalls_inSquare (fuel : nat) (stride : Z) (ws : list Wall) :
  2 ^ 30 < Z.of_nat fuel -> Forall wallFits ws ->
  exists ds, drawWalls fuel stride ws = Some ds
             /\ Forall (inSquare stride) ds.
Proof.
  intros Hf. induction 1 as [|w ws (F1 & F2 & F3 & F4) _ IH];
    cbn [drawWalls].
  - exists []. split; [reflexivity | constructor].
  - unfold drawWall.
    destruct (drawLine_inSquare stride
                (if isPortal w then portalColor else solidColor)
                _ _ _ _ fuel F1 F2 F3 F4 Hf) as (a & -> & Ha).
    destruct IH as (b & -> & Hb).
    eexists. split; [reflexivity|]. apply Forall_app. now split.
Qed.

Lemma drawPlayer_inSquare (stride px py : Z) :
  Forall (inSquare stride) (drawPlayer stride px py).
Proof.
  unfold drawPlayer. apply Forall_flat_map, Forall_forall. intros w _.
  apply Forall_flat_map, Forall_forall. intros h _.
  destruct (_ <=? _); [apply plot_inSquare | constructor].
Qed.

(** X4: [renderMinimap] fills the background rectangle first and then only
    stores to pixels whose column and row lie in
    [MINIMAP_MARGIN .. MINIMAP_MARGIN + MINIMAP_SIZE - 1], whatever the
    walls are and wherever the player stands, as long as the minimap
    coordinates stay within [2^28] of zero (so that both line loops end).
    On a surface at least [MINIMAP_MARGIN + MINIMAP_SIZE] wide and high
    these stores are inside the pixel buffer. *)
Theorem renderMinimap_stays_inside (fuel : nat) (pitch : Z)
    (sectors : list Sector) (p : Player) :
  2 ^ 30 < Z.of_nat fuel ->
  Forall wallFits (flat_map walls sectors) ->
  fits (toMinimap (posX p)) -> fits (toMinimap (posY p)) ->
  fits (Int.add (toMinimap (posX p))
          (int_of_double (dirX p * d_of_Z lineLength)%D)) ->
  fits (Int.add (toMinimap (posY p))
          (int_of_double (dirY p * d_of_Z lineLength)%D)) ->
  exists ds,
    renderMinimap fuel pitch sectors p
    = Some (Fill MINIMAP_MARGIN MINIMAP_MARGIN MINIMAP_SIZE MINIMAP_SIZE
              backgroundColor :: ds)
    /\ Forall (inSquare (Z.quot pitch 4)) ds
    /\ (MINIMAP_MARGIN + MINIMAP_SIZE <= Z.quot pitch 4 ->
        Z.quot pitch 4 * (MINIMAP_MARGIN + MINIMAP_SIZE) <= INT_MAX + 1 ->
        Forall (inBuffer (Z.quot pitch 4) (MINIMAP_MARGIN + MINIMAP_SIZE))
          ds).
Proof.
  intros Hf Hw Hpx Hpy Hex Hey. unfold renderMinimap.
  destruct (drawWalls_inSquare fuel (Z.quot pitch 4) _ Hf Hw)
    as (lines & -> & Hl).
  destruct (drawLine_inSquare (Z.quot pitch 4) playerColor _ _ _ _ fuel
              Hpx Hpy Hex Hey Hf) as (direction & -> & Hd).
  eexists. split; [reflexivity|].
  assert (All : Forall (inSquare (Z.quot pitch 4))
                  (lines ++ drawPlayer (Z.quot pitch 4)
                              (toMinimap (posX p)) (toMinimap (posY p))
                          ++ direction)).
  { apply Forall_app. split; [exact Hl|]. apply Forall_app.
    split; [apply drawPlayer_inSquare | exact Hd]. }
  split; [exact All|].
  intros Hs Hh. revert All. apply Forall_impl.
  intros d (cx & cy & color & -> & Bx & By).
  destruct (pixelIndex_exact (Z.quot pitch 4) cx cy
              (MINIMAP_MARGIN + MINIMAP_SIZE)) as [-> B];
    try (unfold MINIMAP_MARGIN, MINIMAP_SIZE in *; lia).
  unfold inBuffer. eauto.
Qed.

Lemma renderMinimap_stays_inside_witness :
  exists ds,
    renderMinimap (Z.to_nat (2 ^ 30 + 1)) 4320 Fixtures.twoRooms
      (Fixtures.viewerAt 2 2)
    = Some (Fill MINIMAP_MARGIN MINIMAP_MARGIN MINIMAP_SIZE MINIMAP_SIZE
              backgroundColor :: ds)
    /\ Forall (inSquare 1080) ds.
Proof.
  destruct (renderMinimap_stays_inside (Z.to_nat (2 ^ 30 + 1)) 4320
              Fixtures.twoRooms (Fixtures.viewerAt 2 2))
    as (ds & E & F & _).
  - lia.
  - repeat constructor; vm_compute; discriminate.
  - split; vm_compute; discriminate.
  - split; vm_compute; discriminate.
  - split; vm_compute; discriminate.
  - split; vm_compute; discriminate.
  - exists ds. split; [exact E | exact F].
Defined.

End MinimapResults.

(** ** Engine: the player in the main loop *)

Section MainLoop.
Import Engine Game.

Variables cos sin : double -> double.
Variable sectors : list Sector.


(** The player stands where no check objects. *)
Let clear (p : Player) : Prop :=
  isMovementBlocked sectors (posX p) (posY p) = Some false.


Lemma turn_position (angle : double) (p : Player) :
  posX (turn cos sin angle p) = posX p /\ posY (turn cos sin angle p) = posY p.
Proof. split; reflexivity. Qed.



End MainLoop.

Section MainLoopResults.
Import Engine Game.



Lemma update_empty (cos sin : double -> double) (keys : Keys) (p : Player) :
  exists p', update cos sin [] keys p = Some p'
             /\ posX p' = posX p /\ posY p' = posY p.
Proof.
  unfold update, forward, backward, step. cbn [isMovementBlocked].
  change (isMovementBlocked [] ?a ?b) with (Some true).
  cbv iota.
  destruct (keyW keys), (keyS keys), (keyA keys), (keyD keys);
    eexists; (split; [reflexivity|]); split; reflexivity.
Qed.

(** X6: without a map there is no game.  A map file that cannot be
    opened, like an empty one, leaves the engine with no sector; the player
    then cannot leave the starting position, whatever the keys, and every
    frame is empty. *)
Theorem no_map_no_game (cos sin : double -> double)
    (inputs : list Keys) (p : Player) :
  loadMapFromFile None [] = Some []
  /\ (forall prev, loadMapFromFile (Some []) prev = Some [])
  /\ exists p',
       play cos sin [] inputs p = Some p'
       /\ posX p' = posX p /\ posY p' = posY p
       /\ renderFrame [] p' = Some [].
Proof.
  split; [reflexivity|]. split; [reflexivity|].
  revert p. induction inputs as [|keys rest IH]; intros p; cbn [play].
  - exists p. repeat split.
  - destruct (update_empty cos sin keys p) as (p1 & -> & Ex & Ey).
    destruct (IH p1) as (p' & E & Ex' & Ey' & R).
    exists p'. rewrite <- Ex, <- Ey. auto.
Qed.

Lemma wallCrosses_nan_x (y : double) (w : Wall) :
  wallCrosses S754_nan y w = false.
Proof. unfold wallCrosses. rewrite dltb_nan_l. apply andb_false_r. Qed.

Lemma wallCrosses_nan_y (x : double) (w : Wall) :
  wallCrosses x S754_nan w = false.
Proof. unfold wallCrosses. rewrite !dltb_nan_l. reflexivity. Qed.

Lemma outside_all (x y : double) (sectors : list Sector) :
  (forall w, wallCrosses x y w = false) ->
  getSectorForPosition sectors x y = -1.
Proof.
  intros H.
  destruct (getSectorForPosition_cases x y sectors)
    as [[E _] | (k & s & _ & Hc & _)]; [exact E|].
  rewrite containsPoint_odd in Hc.
  replace (filter (wallCrosses x y) (walls s)) with (@nil Wall) in Hc;
    [discriminate|].
  symmetry. generalize (walls s). intros l.
  induction l as [|w ws IH]; cbn [filter]; [reflexivity|].
  rewrite H. exact IH.
Qed.

Lemma nan_blocked (sectors : list Sector) (x y : double) :
  x = S754_nan \/ y = S754_nan ->
  getSectorForPosition sectors x y = -1
  /\ isMovementBlocked sectors x y = Some true.
Proof.
  intros H.
  assert (E : getSectorForPosition sectors x y = -1).
  { apply outside_all. intros w.
    destruct H as [-> | ->];
      [apply wallCrosses_nan_x | apply wallCrosses_nan_y]. }
  split; [exact E|]. unfold isMovementBlocked. now rewrite E.
Qed.

Lemma step_nan (sectors : list Sector) (newX newY : double) (p : Player) :
  newX = S754_nan \/ posY p = S754_nan ->
  posX p = S754_nan \/ newY = S754_nan ->
  step sectors newX newY p = Some p.
Proof.
  intros H1 H2. unfold step.
  rewrite (proj2 (nan_blocked sectors newX (posY p) H1)).
  now rewrite (proj2 (nan_blocked sectors (posX p) newY H2)).
Qed.

Lemma update_nan (cos sin : double -> double) (sectors : list Sector)
    (keys : Keys) (p : Player) :
  posX p = S754_nan \/ posY p = S754_nan ->
  exists p', update cos sin sectors keys p = Some p'
             /\ posX p' = posX p /\ posY p' = posY p.
Proof.
  intros H. unfold update.
  assert (F : forward sectors p = Some p).
  { unfold forward. apply step_nan; destruct H as [E|E]; rewrite E; auto. }
  assert (B : backward sectors p = Some p).
  { unfold backward. apply step_nan; destruct H as [E|E]; rewrite E; auto. }
  destruct (keyW keys); rewrite ?F; cbv iota beta;
    (destruct (keyS keys); rewrite ?B; cbv iota beta;
     destruct (keyA keys), (keyD keys);
     eexists; (split; [reflexivity|]); split; reflexivity).
Qed.

(** X7: a player whose position has a NaN coordinate is in no sector, is
    blocked everywhere, gets an empty frame, and stays at that position
    whatever the keys. *)
Theorem nan_is_outside (cos sin : double -> double) (sectors : list Sector)
    (inputs : list Keys) (p : Player) :
  posX p = S754_nan \/ posY p = S754_nan ->
  getSectorForPosition sectors (posX p) (posY p) = -1
  /\ isMovementBlocked sectors (posX p) (posY p) = Some true
  /\ renderFrame sectors p = Some []
  /\ exists p',
       play cos sin sectors inputs p = Some p'
       /\ posX p' = posX p /\ posY p' = posY p.
Proof.
  intros H. destruct (nan_blocked sectors _ _ H) as [E B].
  split; [exact E|]. split; [exact B|].
  split; [unfold renderFrame; now rewrite E|].
  revert p H E B. induction inputs as [|keys rest IH]; intros p H _ _;
    cbn [play].
  - exists p. repeat split.
  - destruct (update_nan cos sin sectors keys p H) as (p1 & -> & Ex & Ey).
    assert (H1 : posX p1 = S754_nan \/ posY p1 = S754_nan)
      by (rewrite Ex, Ey; exact H).
    destruct (nan_blocked sectors _ _ H1) as [E1 B1].
    destruct (IH p1 H1 E1 B1) as (p' & E' & Ex' & Ey').
    exists p'. rewrite <- Ex, <- Ey. auto.
Qed.

Lemma nan_is_outside_witness :
  renderFrame Fixtures.twoRooms
    (mkPlayer S754_nan (d_of_Z 1) (d_of_Z 1) (d_of_Z 0)
       (d_of_Z 0) (dlit 66 100))
  = Some [].
Proof.
  apply (nan_is_outside Scenes.cos0 Scenes.sin0 Fixtures.twoRooms []
           (mkPlayer S754_nan (d_of_Z 1) (d_of_Z 1) (d_of_Z 0)
              (d_of_Z 0) (dlit 66 100))).
  left. reflexivity.
Defined.

End MainLoopResults.

(** ** Engine: walls of length zero *)

Section Degenerate.
Import Engine.

(** A value that is a zero or a NaN. *)
Let null (d : double) : Prop := (exists s, d = S754_zero s) \/ d = S754_nan.

Lemma dsub_self (a : double) :
  finite a = true -> exists s, (a - a)%D = S754_zero s.
Proof.
  destruct a as [s|s| |s m e]; try discriminate; intros _.
  - exists false. now destruct s.
  - exists false. unfold dsub, SFsub. now rewrite Z.sub_diag.
Qed.

Lemma dmul_zero_r (a : double) (s : bool) : null (a * S754_zero s)%D.
Proof.
  destruct a as [sa|sa| |sa m e]; cbn; unfold null; eauto.
Qed.

Lemma dsub_null (a b : double) : null a -> null b -> null (a - b)%D.
Proof.
  intros [[sa ->] | ->] [[sb ->] | ->]; unfold null; cbn; auto.
  left. destruct sa, sb; eauto.
Qed.

Lemma ddiv_nan (a : double) : (a / S754_nan)%D = S754_nan.
Proof. now destruct a. Qed.

(** X8: a wall whose two end points are the same (finite) point is
    never hit by a ray, never changes the closest hit of a scan, is never
    crossed in the inside test, and so makes no difference to
    [containsPoint]. *)
Theorem degenerate_wall_invisible (w : Wall) :
  x2 w = x1 w -> y2 w = y1 w ->
  finite (x1 w) = true -> finite (y1 w) = true ->
  (forall rayX rayY rayDX rayDY,
     intersectRayWithSegment rayX rayY rayDX rayDY
       (x1 w) (y1 w) (x2 w) (y2 w) = None)
  /\ (forall rayX rayY rayDX rayDY si wi st,
        scanWall rayX rayY rayDX rayDY si wi w st = st)
  /\ (forall x y, wallCrosses x y w = false)
  /\ (forall x y ws floorHeight ceilingHeight,
        containsPoint x y (mkSector (w :: ws) floorHeight ceilingHeight)
        = containsPoint x y (mkSector ws floorHeight ceilingHeight)).
Proof.
  intros Ex Ey Fx Fy.
  assert (Hit : forall rayX rayY rayDX rayDY,
             intersectRayWithSegment rayX rayY rayDX rayDY
               (x1 w) (y1 w) (x2 w) (y2 w) = None).
  { intros rayX rayY rayDX rayDY. rewrite Ex, Ey.
    unfold intersectRayWithSegment, ray_t, ray_denom.
    destruct (dsub_self (x1 w) Fx) as [sx ->].
    destruct (dsub_self (y1 w) Fy) as [sy ->].
    cbv zeta.
    destruct (dsub_null _ _ (dmul_zero_r rayDX sy) (dmul_zero_r rayDY sx))
      as [[s ->] | ->].
    - reflexivity.
    - cbn [fabs SFabs]. rewrite dltb_nan_l, ddiv_nan, dltb_nan_r.
      reflexivity. }
  assert (Cross : forall x y, wallCrosses x y w = false).
  { intros x y. unfold wallCrosses. rewrite Ey.
    now rewrite Bool.eqb_reflx. }
  split; [exact Hit|]. split; [|split; [exact Cross|]].
  - intros. unfold scanWall. now rewrite Hit.
  - intros x y ws f c. unfold containsPoint, crossings.
    cbn [walls fold_left]. now rewrite Cross.
Qed.

Lemma degenerate_wall_invisible_witness :
  intersectRayWithSegment (d_of_Z 0) (d_of_Z 0) (d_of_Z 1) (d_of_Z 1)
    (d_of_Z 1) (d_of_Z 1) (d_of_Z 1) (d_of_Z 1) = None.
Proof.
  apply (proj1 (degenerate_wall_invisible (Fixtures.solid 1 1 1 1)
                  eq_refl eq_refl eq_refl eq_refl)).
Defined.

End Degenerate.


(** ** Engine: loading a map the editor saved *)

Section EngineReadsEditor.
Import Ascii Text Exchange.

Local Abbreviation digits := (Forall (fun c => isdigit c = true)).

(** What [float] can hold, [double] can hold. *)
Lemma overflows_double (m e10 : Z) :
  0 <= m -> overflows 24 128 m e10 = false -> overflows 53 1024 m e10 = false.
Proof.
  unfold overflows. intros Hm.
  assert (T : 2 ^ 128 - 2 ^ (128 - 24 - 1) <= 2 ^ 1024 - 2 ^ (1024 - 53 - 1))
    by (vm_compute; discriminate).
  set (tf := 2 ^ 128 - 2 ^ (128 - 24 - 1)) in *.
  set (td := 2 ^ 1024 - 2 ^ (1024 - 53 - 1)) in *.
  assert (Tf : 0 < tf) by (vm_compute; reflexivity).
  destruct (Z.leb_spec 0 e10) as [He|He].
  - intros O. apply Z.leb_gt in O. apply Z.leb_gt. lia.
  - intros O. apply Z.leb_gt in O. apply Z.leb_gt.
    pose proof (pow10_pos (- e10) ltac:(lia)). nia.
Qed.

(** The text [saveMap] writes for a height. *)
Lemma showFloat_text (h : spec_float) :
  Editor.isFloat h = true ->
  exists t, showFloat h = render t /\ wellFormed t
            /\ overflows 24 128 (fst (textValue t)) (snd (textValue t)) = false.
Proof.
  intros F. destruct h as [sg|sg| |sg m e]; try discriminate F.
  - cbn [showFloat]. eexists. split; [reflexivity|]. split; [|reflexivity].
    repeat split; [discriminate | now repeat constructor | constructor].
  - cbn [showFloat Editor.isFloat] in *.
    apply bounded_range in F. destruct F as [Fm Fe].
    set (nd := if 0 <=? e then (Zpos m * 2 ^ e, 1) else (Zpos m, 2 ^ (- e))).
    assert (R : 1 <= fst nd /\ 1 <= snd nd
                /\ fst nd <= (2 ^ 24 - 1) * 2 ^ 104 * snd nd).
    { unfold nd. destruct (Z.leb_spec 0 e); cbn [fst snd].
      - pose proof (Z.pow_pos_nonneg 2 e ltac:(lia) ltac:(lia)).
        assert (2 ^ e <= 2 ^ 104) by (apply Z.pow_le_mono_r; lia).
        repeat split; [nia | lia |].
        rewrite Z.mul_1_r. apply Z.mul_le_mono_nonneg; lia.
      - pose proof (Z.pow_pos_nonneg 2 (- e) ltac:(lia) ltac:(lia)).
        change (2 ^ 104) with 20282409603651670423947251286016.
        repeat split; [lia | lia | nia]. }
    destruct nd as [num den]. cbn [fst snd] in R. destruct R as (Rn & Rd & Rm).
    pose proof (sixDigits_range num den Rn Rd Rm) as (Q0 & Q38 & Q).
    destruct (sixDigits num den) as [d x]. cbn [fst snd] in *.
    eexists. split; [reflexivity|]. split; [apply layout_wellFormed|].
    now apply layout_in_range.
Qed.

Lemma textValue_nonneg (t : FloatText) :
  wellFormed t -> 0 <= fst (textValue t).
Proof.
  intros (_ & Di & Df & _). unfold textValue. cbn [fst].
  apply digitsValue_bound. apply Forall_app. now split.
Qed.

Lemma showFloat_asDouble (h : spec_float) (rest : text) :
  Editor.isFloat h = true -> delimited rest ->
  extractFloat 53 1024 (showFloat h ++ rest) = Got (asDouble h) rest.
Proof.
  intros F S. destruct (showFloat_text h F) as (t & E & W & O).
  apply overflows_double in O; [|now apply textValue_nonneg].
  unfold asDouble, Engine.dprec, Engine.demax. rewrite E.
  rewrite (extractFloat_render 53 1024 t rest W S), O.
  pose proof (extractFloat_render 53 1024 t [] W I) as E0.
  rewrite app_nil_r, O in E0. now rewrite E0.
Qed.

(** A coordinate written as an [int] and read as a [double]. *)
Lemma extractFloat_showInt (z : Z) (rest : text) :
  INT_MIN <= z <= INT_MAX -> delimited rest ->
  extractFloat 53 1024 (showInt z ++ rest) = Got (d_of_Z z) rest.
Proof.
  intros R S.
  set (t := mkFloatText (z <? 0) (showNat (Z.abs z)) [] None).
  assert (E : showInt z = render t).
  { unfold showInt, render, t. cbn [ft_neg ft_int ft_frac ft_exp].
    rewrite !app_nil_r. destruct (Z.ltb_spec z 0); cbn [app].
    - now rewrite Z.abs_neq by lia.
    - now rewrite Z.abs_eq by lia. }
  assert (W : wellFormed t).
  { unfold wellFormed, t. cbn [ft_int ft_frac ft_exp].
    split; [apply showNat_nonempty|]. split; [apply showNat_digits|].
    split; [constructor | exact I]. }
  assert (V : textValue t = (Z.abs z, 0)).
  { unfold textValue, t. cbn [ft_int ft_frac ft_exp length].
    rewrite app_nil_r, showNat_value by lia. reflexivity. }
  rewrite E, (extractFloat_render 53 1024 t rest W S), V. cbn [fst snd].
  assert (O : overflows 53 1024 (Z.abs z) 0 = false).
  { unfold overflows. cbn [Z.leb Z.compare]. rewrite Z.pow_0_r, Z.mul_1_r.
    apply Z.leb_gt.
    apply Z.le_lt_trans with 2147483648;
      [clear - R; unfold INT_MIN, INT_MAX in R; lia|].
    vm_compute; reflexivity. }
  rewrite O. f_equal. unfold decimalToFloat, t, d_of_Z. cbn [ft_neg].
  destruct (Z.eqb_spec (Z.abs z) 0) as [Z0|NZ].
  - assert (z = 0) by lia. subst z. reflexivity.
  - cbn [Z.leb Z.compare]. rewrite Z.pow_0_r, Z.mul_1_r.
    replace (if z <? 0 then - Z.abs z else Z.abs z) with z;
      [reflexivity | destruct (Z.ltb_spec z 0); lia].
Qed.

Lemma engine_parseWall_wallLine (w : Editor.Wall) :
  Editor.wallOK w -> Engine.parseWall (Editor.wallLine w) = Some (exportWall w).
Proof.
  intros (G1 & G2 & G3 & G4 & A).
  assert (Q : forall z, Editor.gridCoord z ->
                       INT_MIN <= Z.quot z Editor.GRID_SIZE <= INT_MAX)
    by (intros z G; exact (proj1 (gridCoord_quot z G))).
  apply Q in G1, G2, G3, G4.
  rewrite wallLine_shape. unfold Engine.parseWall, Engine.dprec, Engine.demax.
  rewrite (extractFloat_showInt _ _ G1 (delimited_space _)), extractFloat_space.
  rewrite (extractFloat_showInt _ _ G2 (delimited_space _)), extractFloat_space.
  rewrite (extractFloat_showInt _ _ G3 (delimited_space _)), extractFloat_space.
  rewrite (extractFloat_showInt _ _ G4 (delimited_space _)), extractInt_space.
  rewrite (extractInt_showNat (if Editor.isPortal w then 1 else 0)),
    extractInt_space;
    [| destruct (Editor.isPortal w); unfold INT_MAX; lia
     | apply delimited_space].
  rewrite (extractInt_showInt _ [] A I).
  unfold exportWall. now destruct (Editor.isPortal w).
Qed.

Lemma engine_parseHeader_headerLine (i : Z) (sec : Editor.Sector) :
  0 <= i <= INT_MAX -> Editor.sectorOK sec -> Editor.heightsOK sec ->
  Engine.parseHeader (Editor.headerLine i sec)
  = Some (i, Z.of_nat (length (Editor.walls sec)),
          asDouble (Editor.floorHeight sec),
          asDouble (Editor.ceilingHeight sec)).
Proof.
  intros Hi [_ Hn] [Hf Hc]. rewrite headerLine_shape.
  unfold Engine.parseHeader, Engine.dprec, Engine.demax.
  rewrite (extractInt_showNat i _ Hi (delimited_space _)), extractInt_space.
  rewrite (extractInt_showNat (Z.of_nat (length (Editor.walls sec))) _
             (conj (Nat2Z.is_nonneg _) Hn) (delimited_space _)).
  rewrite extractFloat_space.
  rewrite (showFloat_asDouble _ _ Hf (delimited_space _)), extractFloat_space.
  now rewrite (showFloat_asDouble _ [] Hc I).
Qed.

Lemma headerLine_not_skipped (i : Z) (sec : Editor.Sector) :
  Engine.skipped (Editor.headerLine i sec) = false.
Proof.
  rewrite headerLine_shape. pose proof (showNat_nonempty i) as N.
  pose proof (showNat_digits i) as D.
  destruct (showNat i) as [|c l]; [congruence|]. cbn [app Engine.skipped].
  apply Forall_inv in D. apply isdigit_code in D. apply is_char_neq.
  change (code "#"%char) with 35. lia.
Qed.

Lemma engine_wallLoop_saved
    (K : list text -> list Engine.Sector -> option (list Engine.Sector))
    (clean : bool) (f c : double) (acc : list Engine.Sector)
    (ws : list Editor.Wall) :
  Forall Editor.wallOK ws ->
  forall done rest line,
    Engine.wallLoop K clean (Z.of_nat (length done + length ws)) f c acc
      (Z.of_nat (length done)) (map Editor.wallLine ws ++ rest) line done
    = K rest (acc ++ [Engine.mkSector (done ++ map exportWall ws) f c]).
Proof.
  induction 1 as [|w ws Hw _ IH]; intros done rest line;
    cbn [map app].
  - destruct rest as [|l rest]; cbn [Engine.wallLoop];
      rewrite Nat.add_0_r, Z.ltb_irrefl, app_nil_r; reflexivity.
  - cbn [Engine.wallLoop].
    destruct (Z.ltb_spec (Z.of_nat (length done))
                (Z.of_nat (length done + length (w :: ws))));
      [|cbn [length] in *; lia].
    rewrite (engine_parseWall_wallLine w Hw).
    specialize (IH (done ++ [exportWall w]) rest (Editor.wallLine w)).
    rewrite length_app in IH. cbn [length] in IH.
    replace (length done + 1 + length ws)%nat
      with (length done + S (length ws))%nat in IH by lia.
    replace (Z.of_nat (length done + 1)) with (Z.of_nat (length done) + 1)
      in IH by lia.
    cbn [length]. rewrite IH. now rewrite <- app_assoc.
Qed.

Lemma engine_loadLines_saved (clean : bool) (ss : list Editor.Sector) :
  forall i acc,
    0 <= i -> i + Z.of_nat (length ss) <= INT_MAX + 1 ->
    Forall Editor.sectorOK ss -> Forall Editor.heightsOK ss ->
    Engine.loadLines clean (Editor.linesFrom i ss) acc
    = Some (acc ++ map exportSector ss).
Proof.
  induction ss as [|sec ss IH]; intros i acc Hi Hlen Hs Hh;
    cbn [Editor.linesFrom map].
  - cbn. now rewrite app_nil_r.
  - inversion Hs as [|? ? Hsec Hss]; inversion Hh as [|? ? Hhsec Hhss]; subst.
    cbn [length] in Hlen.
    cbn [Engine.loadLines]. rewrite headerLine_not_skipped.
    rewrite (engine_parseHeader_headerLine i sec ltac:(lia) Hsec Hhsec).
    pose proof (engine_wallLoop_saved (Engine.loadLines clean) clean
                  (asDouble (Editor.floorHeight sec))
                  (asDouble (Editor.ceilingHeight sec)) acc
                  (Editor.walls sec) (proj1 Hsec) []
                  ([] :: Editor.linesFrom (i + 1) ss)
                  (Editor.headerLine i sec)) as W.
    cbn [length app Nat.add] in W. change (Z.of_nat 0) with 0 in W.
    rewrite W. cbn [Engine.loadLines Engine.skipped].
    rewrite IH by (auto; lia).
    rewrite <- app_assoc. reflexivity.
Qed.

(** X9: the engine reads what the editor writes.  [loadMapFromFile] on the
    text [saveMap] produced gives, in place of whatever was loaded before,
    one sector for every sector of the editor, in order: each wall with its
    grid coordinates (pixels divided by [GRID_SIZE]), its portal flag and
    its link, and the heights as the [double] read from their text; the
    default heights 0 and 4 arrive as 0 and 4. *)
Theorem engine_loads_editor_map (ss : list Editor.Sector)
    (prev : list Engine.Sector) :
  Z.of_nat (length ss) <= 2 ^ 31 ->
  Forall Editor.sectorOK ss -> Forall Editor.heightsOK ss ->
  Engine.loadMapFromFile (Some (Editor.saveMap ss)) prev
  = Some (map exportSector ss)
  /\ length (map exportSector ss) = length ss
  /\ asDouble (Editor.f_of_Z 0) = d_of_Z 0
  /\ asDouble (Editor.f_of_Z 4) = d_of_Z 4.
Proof.
  intros Hlen Hs Hh. split; [|split; [apply length_map|]].
  - unfold Engine.loadMapFromFile, Editor.saveMap.
    rewrite (lines_saveFrom ss 0 Hh).
    rewrite (engine_loadLines_saved _ ss 0 []);
      [reflexivity | lia | unfold INT_MAX; lia | exact Hs | exact Hh].
  - split; vm_compute; reflexivity.
Qed.

Lemma engine_loads_editor_map_witness :
  Engine.loadMapFromFile (Some (Editor.saveMap Scenes.linked)) []
  = Some (map Exchange.exportSector Scenes.linked).
Proof.
  apply (engine_loads_editor_map Scenes.linked []).
  - cbn. lia.
  - repeat constructor; vm_compute; (reflexivity || discriminate).
  - repeat constructor; vm_compute; reflexivity.
Defined.

End EngineReadsEditor.

(** ** Editor: the grid *)

Section GridSnap.
Import Editor Tools.

Lemma snap_exact (x : Z) :
  INT_MIN <= x <= INT_MAX ->
  Int.mul (Z.quot x GRID_SIZE) GRID_SIZE = x - Z.rem x GRID_SIZE.
Proof.
  unfold Int.mul, GRID_SIZE, INT_MIN, INT_MAX. intros R.
  pose proof (Z.quot_rem' x 32) as E.
  assert (B : Z.abs (Z.rem x 32) < 32)
    by (pose proof (Z.rem_bound_abs x 32 ltac:(lia)); lia).
  assert (S : 0 <= Z.rem x 32 * x) by (apply Z.rem_sign_mul; lia).
  rewrite wrap_small; [lia|]. unfold INT_MIN, INT_MAX. nia.
Qed.

Lemma rem_grid (z : Z) : gridCoord z -> Z.rem z GRID_SIZE = 0.
Proof.
  intros [M _]. unfold GRID_SIZE in *.
  pose proof (Z.div_mod z 32 ltac:(lia)) as E. rewrite M, Z.add_0_r in E.
  rewrite E, Z.mul_comm. apply Z.rem_mul. lia.
Qed.

Lemma snap_grid (x : Z) : gridCoord (Int.mul (Z.quot x GRID_SIZE) GRID_SIZE).
Proof. apply wrap_grid. Qed.

(** X10: [gridSnap] returns a point of the grid: each coordinate is the
    argument less its remainder by [GRID_SIZE], so it is rounded toward
    zero (down when positive, up when negative) by less than [GRID_SIZE];
    a point of the grid is returned unchanged, and snapping twice is
    snapping once. *)
Theorem gridSnap_on_grid (x y : Z) :
  INT_MIN <= x <= INT_MAX -> INT_MIN <= y <= INT_MAX ->
  gridCoord (px (gridSnap x y)) /\ gridCoord (py (gridSnap x y))
  /\ px (gridSnap x y) = x - Z.rem x GRID_SIZE
  /\ py (gridSnap x y) = y - Z.rem y GRID_SIZE
  /\ (0 <= x -> x - GRID_SIZE < px (gridSnap x y) <= x)
  /\ (x <= 0 -> x <= px (gridSnap x y) < x + GRID_SIZE)
  /\ (0 <= y -> y - GRID_SIZE < py (gridSnap x y) <= y)
  /\ (y <= 0 -> y <= py (gridSnap x y) < y + GRID_SIZE)
  /\ (gridCoord x -> gridCoord y -> gridSnap x y = mkPoint x y)
  /\ gridSnap (px (gridSnap x y)) (py (gridSnap x y)) = gridSnap x y.
Proof.
  intros Rx Ry.
  assert (Idem : forall z, gridCoord z ->
                           Int.mul (Z.quot z GRID_SIZE) GRID_SIZE = z).
  { intros z G. rewrite (snap_exact z (proj2 G)), (rem_grid z G). lia. }
  assert (Last : gridSnap (px (gridSnap x y)) (py (gridSnap x y))
                 = gridSnap x y).
  { unfold gridSnap. cbn [px py].
    now rewrite (Idem _ (snap_grid x)), (Idem _ (snap_grid y)). }
  unfold gridSnap in *. cbn [px py] in *.
  split; [apply snap_grid|]. split; [apply snap_grid|].
  split; [apply (snap_exact x Rx)|]. split; [apply (snap_exact y Ry)|].
  rewrite (snap_exact x Rx), (snap_exact y Ry) in *. unfold GRID_SIZE in *.
  split; [intros H; pose proof (Z.rem_bound_pos x 32 H); lia|].
  split; [intros H; pose proof (Z.rem_bound_pos_neg x 32 ltac:(lia) H); lia|].
  split; [intros H; pose proof (Z.rem_bound_pos y 32 H); lia|].
  split; [intros H; pose proof (Z.rem_bound_pos_neg y 32 ltac:(lia) H); lia|].
  split; [|exact Last].
  intros Hx Hy. pose proof (rem_grid x Hx) as Ex. pose proof (rem_grid y Hy) as Ey.
  unfold GRID_SIZE in *. rewrite Ex, Ey. f_equal; lia.
Qed.

Lemma gridSnap_on_grid_witness :
  px (gridSnap 100 (-40)) = 96 /\ py (gridSnap 100 (-40)) = -32.
Proof.
  destruct (gridSnap_on_grid 100 (-40)) as (_ & _ & Ex & Ey & _);
    [unfold INT_MIN, INT_MAX; lia | unfold INT_MIN, INT_MAX; lia |].
  split; [rewrite Ex; reflexivity | rewrite Ey; reflexivity].
Defined.

End GridSnap.

(** ** Vectors changed in place *)

Section Vectors.
Import Tools.
Context {A : Type}.

Lemma updateAt_length (f : A -> A) (l : list A) :
  forall i, length (updateAt i f l) = length l.
Proof.
  induction l as [|x l IH]; intros [|i]; cbn [updateAt length]; auto.
Qed.

Lemma updateAt_nth (f : A -> A) (l : list A) :
  forall i m,
    nth_error (updateAt i f l) m
    = if Nat.eqb m i then option_map f (nth_error l m) else nth_error l m.
Proof.
  induction l as [|x l IH]; intros [|i] [|m]; cbn [updateAt nth_error Nat.eqb];
    try reflexivity.
  - now destruct (Nat.eqb m i).
  - apply IH.
Qed.

Lemma updateAt_Forall (P : A -> Prop) (f : A -> A) (l : list A) :
  (forall x, P x -> P (f x)) ->
  forall i, Forall P l -> Forall P (updateAt i f l).
Proof.
  intros Hf. induction l as [|x l IH]; intros [|i] H; cbn [updateAt];
    inversion H; subst; constructor; auto.
Qed.

Lemma replaceAt_Forall (P : A -> Prop) (k : nat) (new l : list A) :
  Forall P l -> Forall P new -> Forall P (replaceAt k new l).
Proof.
  intros Hl Hn. unfold replaceAt.
  rewrite <- (firstn_skipn k l) in Hl. apply Forall_app in Hl.
  destruct Hl as [H1 H2].
  apply Forall_app. split; [exact H1|]. apply Forall_app. split; [exact Hn|].
  replace (skipn (S k) l) with (skipn 1 (skipn k l))
    by (rewrite skipn_skipn; f_equal; lia).
  destruct (skipn k l) as [|x r]; [constructor|].
  cbn [skipn]. now inversion H2.
Qed.

Lemma existsb_none (f : A -> bool) (l : list A) :
  existsb f l = false -> forall x, In x l -> f x = false.
Proof.
  intros H x Hin. destruct (f x) eqn:E; [|reflexivity].
  rewrite <- H. symmetry. apply existsb_exists. eauto.
Qed.

End Vectors.

(** ** Editor: picking *)

Section PickingFacts.
Import Editor Tools.
Variable pow : double -> double -> double.
Variable hypot : double -> double -> double.
Variable hypotf : float -> float -> float.

Let hits := hits pow hypot hypotf.
Let firstHit := firstHit pow hypot hypotf.
Let findWallFrom := findWallFrom pow hypot hypotf.
Let findHoveredFrom := findHoveredFrom pow hypot hypotf.

Lemma firstHit_scan (p : Point) (ws : list Wall) :
  forall j,
    (firstHit p j ws = None /\ existsb (hits p) ws = false)
    \/ (exists m w,
          firstHit p j ws = Some (j + m)%nat
          /\ nth_error ws m = Some w /\ hits p w = true
          /\ existsb (hits p) ws = true
          /\ forall m' w', (m' < m)%nat -> nth_error ws m' = Some w' ->
                           hits p w' = false).
Proof.
  unfold firstHit, hits.
  induction ws as [|w ws IH]; intros j; cbn [Tools.firstHit existsb].
  - now left.
  - destruct (Tools.hits pow hypot hypotf p w) eqn:Hw.
    + right. exists 0%nat, w. rewrite Nat.add_0_r.
      repeat split; auto. intros m' w' Hm. lia.
    + destruct (IH (S j)) as [[E X] | (m & w0 & E & Hn & Hh & X & F)].
      * left. now split.
      * right. exists (S m), w0. rewrite E.
        split; [f_equal; lia|]. split; [exact Hn|]. split; [exact Hh|].
        split; [exact X|].
        intros [|m'] w' Hm Hn'; cbn in Hn'.
        -- now inversion Hn'; subst.
        -- apply (F m'); [lia | exact Hn'].
Qed.

(** What the scan of the sectors from index [i] on returns. *)
Lemma findWallFrom_scan (p : Point) (ss : list Sector) :
  forall i,
    (findWallFrom p i ss = mkWallRef None (-1)
     /\ findHoveredFrom p i ss = -1
     /\ forall s w, In s ss -> In w (walls s) -> hits p w = false)
    \/ (exists m s k w,
          findWallFrom p i ss = mkWallRef (Some k) (i + Z.of_nat m)
          /\ findHoveredFrom p i ss = i + Z.of_nat m
          /\ nth_error ss m = Some s
          /\ nth_error (walls s) k = Some w /\ hits p w = true
          /\ (forall k' w', (k' < k)%nat -> nth_error (walls s) k' = Some w' ->
                            hits p w' = false)
          /\ (forall m' s' w', (m' < m)%nat -> nth_error ss m' = Some s' ->
                               In w' (walls s') -> hits p w' = false)).
Proof.
  unfold findWallFrom, findHoveredFrom.
  induction ss as [|s ss IH]; intros i;
    cbn [Tools.findWallFrom Tools.findHoveredFrom].
  - left. repeat split. intros s w [].
  - destruct (firstHit_scan p (walls s) 0)
      as [[E X] | (k & w & E & Hn & Hh & X & F)];
      unfold firstHit, hits in E, X; rewrite E, X.
    + destruct (IH (i + 1)) as [(E1 & E2 & N) | (m & s0 & k & w & E1 & E2 & R)].
      * left. split; [exact E1|]. split; [exact E2|].
        intros s' w' [<- | Hin] Hw; [|now apply (N s')].
        exact (existsb_none _ _ X w' Hw).
      * right. exists (S m), s0, k, w.
        replace (i + Z.of_nat (S m)) with (i + 1 + Z.of_nat m) by lia.
        destruct R as (Hn & Hk & Hh & Fk & Fm).
        repeat split; auto.
        intros [|m'] s' w' Hm Hn' Hw; cbn in Hn'.
        -- inversion Hn'; subst s'. exact (existsb_none _ _ X w' Hw).
        -- apply (Fm m' s'); [lia | exact Hn' | exact Hw].
    + right. exists 0%nat, s, k, w. rewrite Z.add_0_r. cbn [Nat.add nth_error].
      repeat split; auto. intros m' s' w' Hm. lia.
Qed.

End PickingFacts.

(** ** Editor: overlapping walls *)

(** ** An [int] converted to [float] *)

Section IntToFloat.
Import Editor Tools.

Lemma digits2_pos_lower (m : positive) :
  2 ^ (Zpos (digits2_pos m) - 1) <= Zpos m.
Proof.
  induction m as [m IH | m IH |]; cbn [digits2_pos];
    rewrite ?Pos2Z.inj_succ.
  - replace (Z.succ (Zpos (digits2_pos m)) - 1)
      with (Zpos (digits2_pos m) - 1 + 1) by lia.
    rewrite Z.pow_add_r by lia. lia.
  - replace (Z.succ (Zpos (digits2_pos m)) - 1)
      with (Zpos (digits2_pos m) - 1 + 1) by lia.
    rewrite Z.pow_add_r by lia. lia.
  - cbn. lia.
Qed.

Lemma shr_1_half (mrs : shr_record) :
  0 <= shr_m mrs -> shr_m (shr_1 mrs) = shr_m mrs / 2.
Proof.
  destruct mrs as [m r s]. cbn [shr_m shr_1]. intros H.
  destruct m as [|[p|p|]|p]; cbn [shr_m]; try lia; try reflexivity.
  - rewrite Pos2Z.inj_xI. apply Z.div_unique with 1; lia.
  - rewrite Pos2Z.inj_xO. apply Z.div_unique with 0; lia.
Qed.

Lemma pow2_xO (n : positive) : 2 ^ Zpos n~0 = 2 ^ Zpos n * 2 ^ Zpos n.
Proof.
  replace (Zpos n~0) with (Zpos n + Zpos n) by lia.
  apply Z.pow_add_r; lia.
Qed.

Lemma pow2_xI (n : positive) : 2 ^ Zpos n~1 = 2 * (2 ^ Zpos n * 2 ^ Zpos n).
Proof.
  replace (Zpos n~1) with (1 + Zpos n~0) by lia.
  rewrite Z.pow_add_r by lia. now rewrite pow2_xO.
Qed.

Lemma iter_shr_1 (n : positive) :
  forall mrs, 0 <= shr_m mrs ->
    shr_m (iter_pos shr_1 n mrs) = shr_m mrs / 2 ^ Zpos n.
Proof.
  assert (P2 : forall k, 0 < 2 ^ Zpos k)
    by (intros k; apply Z.pow_pos_nonneg; lia).
  induction n as [n IH | n IH |]; intros mrs H; cbn [iter_pos].
  - assert (H1 : 0 <= shr_m (shr_1 mrs))
      by (rewrite shr_1_half by exact H; apply Z.div_pos; lia).
    assert (H2 : 0 <= shr_m (iter_pos shr_1 n (shr_1 mrs)))
      by (rewrite IH by exact H1; apply Z.div_pos; [lia | apply P2]).
    rewrite IH by exact H2. rewrite IH by exact H1.
    rewrite shr_1_half by exact H.
    pose proof (P2 n). rewrite !Z.div_div by lia.
    now rewrite pow2_xI.
  - assert (H1 : 0 <= shr_m (iter_pos shr_1 n mrs))
      by (rewrite IH by exact H; apply Z.div_pos; [lia | apply P2]).
    rewrite IH by exact H1. rewrite IH by exact H.
    pose proof (P2 n). rewrite Z.div_div by lia.
    now rewrite pow2_xO.
  - now rewrite shr_1_half.
Qed.

Lemma shr_record_of_loc_m (m : Z) (l : location) :
  shr_m (shr_record_of_loc m l) = m.
Proof. destruct l as [|[| |]]; reflexivity. Qed.

(** Shifting to the exponent of the format leaves a positive mantissa
    positive and does not lower the exponent. *)
Lemma shr_fexp_pos (p : positive) (e : Z) (l : location) :
  -149 <= e ->
  0 < shr_m (fst (shr_fexp fprec femax (Zpos p) e l))
  /\ e <= snd (shr_fexp fprec femax (Zpos p) e l).
Proof.
  intros He. unfold shr_fexp, shr, fexp, emin, fprec, femax.
  cbn [Zdigits2].
  set (d := Zpos (digits2_pos p)).
  assert (Hd : 1 <= d) by (unfold d; lia).
  pose proof (digits2_pos_lower p) as Low. fold d in Low.
  destruct (Z.max (d + e - 24) (3 - 128 - 24) - e) as [|n|n] eqn:En;
    cbn [fst snd]; rewrite ?shr_record_of_loc_m; try lia.
  rewrite iter_shr_1 by (rewrite shr_record_of_loc_m; lia).
  rewrite shr_record_of_loc_m. split; [|lia].
  assert (Hn : Zpos n <= d - 1) by lia.
  assert (2 ^ Zpos n <= 2 ^ (d - 1)) by (apply Z.pow_le_mono_r; lia).
  assert (0 < 2 ^ Zpos n) by (apply Z.pow_pos_nonneg; lia).
  apply Z.lt_le_trans with 1; [lia|].
  apply Z.div_le_lower_bound; lia.
Qed.

Lemma round_nearest_even_pos (m : Z) (l : location) :
  0 < m -> 0 < round_nearest_even m l.
Proof.
  intros H. destruct l as [|[| |]]; cbn [round_nearest_even]; try lia.
  destruct (Z.even m); lia.
Qed.

Lemma binary_round_aux_pos (sx : bool) (p : positive) (ex : Z)
    (lx : location) :
  -149 <= ex ->
  binary_round_aux fprec femax sx (Zpos p) ex lx = S754_infinity sx
  \/ exists m e,
       binary_round_aux fprec femax sx (Zpos p) ex lx = S754_finite sx m e
       /\ ex <= e.
Proof.
  intros He. unfold binary_round_aux.
  pose proof (shr_fexp_pos p ex lx He) as [M1 E1].
  destruct (shr_fexp fprec femax (Zpos p) ex lx) as [mrs' e'].
  cbn [fst snd] in M1, E1.
  pose proof (round_nearest_even_pos (shr_m mrs') (loc_of_shr_record mrs') M1)
    as R.
  destruct (round_nearest_even (shr_m mrs') (loc_of_shr_record mrs'))
    as [|q|q]; try lia.
  pose proof (shr_fexp_pos q e' loc_Exact ltac:(lia)) as [M2 E2].
  destruct (shr_fexp fprec femax (Zpos q) e' loc_Exact) as [mrs'' e''].
  cbn [fst snd] in M2, E2.
  destruct (shr_m mrs'') as [|m|m]; try lia.
  destruct (e'' <=? femax - fprec); [right | now left].
  exists m, e''. split; [reflexivity | lia].
Qed.

Lemma binary_round_int (sx : bool) (p : positive) :
  binary_round fprec femax sx p 0 = S754_infinity sx
  \/ exists m e, binary_round fprec femax sx p 0 = S754_finite sx m e
                 /\ -23 <= e.
Proof.
  unfold binary_round, shl_align, fexp, emin, fprec, femax.
  set (d := Zpos (digits2_pos p)).
  assert (Hd : 1 <= d) by (unfold d; lia).
  destruct (Z.max (d + 0 - 24) (3 - 128 - 24) - 0) as [|n|n] eqn:En.
  - destruct (binary_round_aux_pos sx p 0 loc_Exact ltac:(lia))
      as [E | (m & e & E & L)]; [now left | right].
    exists m, e. split; [exact E | lia].
  - destruct (binary_round_aux_pos sx p 0 loc_Exact ltac:(lia))
      as [E | (m & e & E & L)]; [now left | right].
    exists m, e. split; [exact E | lia].
  - destruct (binary_round_aux_pos sx (Pos.iter xO p n)
                (Z.max (d + 0 - 24) (3 - 128 - 24)) loc_Exact ltac:(lia))
      as [E | (m & e & E & L)]; [now left | right].
    exists m, e. split; [exact E | lia].
Qed.

(** A non-zero [int] is, as a [float], above [0.1f] in magnitude. *)
Lemma tenth_lt_int (z : Z) :
  SFltb tenth (SFabs (f_of_Z z)) = negb (z =? 0).
Proof.
  unfold f_of_Z, binary_normalize. destruct z as [|p|p].
  - reflexivity.
  - destruct (binary_round_int false p) as [-> | (m & e & -> & L)];
      [reflexivity|].
    change tenth with (S754_finite false 13421773 (-27)).
    unfold SFltb, SFabs, SFcompare.
    destruct (Z.compare_spec (-27) e); try lia. reflexivity.
  - destruct (binary_round_int true p) as [-> | (m & e & -> & L)];
      [reflexivity|].
    change tenth with (S754_finite false 13421773 (-27)).
    unfold SFltb, SFabs, SFcompare.
    destruct (Z.compare_spec (-27) e); try lia. reflexivity.
Qed.

Lemma crossInt_exact (a b c : Point) :
  small a -> small b -> small c ->
  crossInt a b c
  = (px b - px a) * (py c - py a) - (py b - py a) * (px c - px a).
Proof.
  unfold small, crossInt, Int.sub, Int.mul.
  intros [A1 A2] [B1 B2] [C1 C2].
  rewrite (wrap_small (px b - px a)) by (unfold INT_MIN, INT_MAX; lia).
  rewrite (wrap_small (py c - py a)) by (unfold INT_MIN, INT_MAX; lia).
  rewrite (wrap_small (py b - py a)) by (unfold INT_MIN, INT_MAX; lia).
  rewrite (wrap_small (px c - px a)) by (unfold INT_MIN, INT_MAX; lia).
  assert (P : forall u v, Z.abs u < 2 ^ 15 -> Z.abs v < 2 ^ 15 ->
                          Z.abs (u * v) < 2 ^ 30).
  { intros u v Hu Hv. rewrite Z.abs_mul.
    change (2 ^ 30) with (2 ^ 15 * 2 ^ 15).
    pose proof (Z.abs_nonneg u). pose proof (Z.abs_nonneg v). nia. }
  pose proof (P (px b - px a) (py c - py a) ltac:(lia) ltac:(lia)).
  pose proof (P (py b - py a) (px c - px a) ltac:(lia) ltac:(lia)).
  rewrite !(wrap_small (_ * _)) by (unfold INT_MIN, INT_MAX; lia).
  apply wrap_small. unfold INT_MIN, INT_MAX. lia.
Qed.

(** X13: the tolerance [0.1f] of [segmentsOverlap] never applies: since
    [cross] computes an [int], the two tests pass exactly when both cross
    products are zero, so the function says yes exactly when the four
    points are collinear (in [int] arithmetic) and the bounding boxes of
    the two segments meet.  For coordinates below [2^14] in magnitude the
    [int] cross product is the exact one. *)
Theorem segmentsOverlap_exact (p1 q1 p2 q2 : Point) :
  (segmentsOverlap p1 q1 p2 q2 = true <->
   crossInt p1 q1 p2 = 0 /\ crossInt p1 q1 q2 = 0
   /\ Z.min (px p2) (px q2) <= Z.max (px p1) (px q1)
   /\ Z.min (px p1) (px q1) <= Z.max (px p2) (px q2)
   /\ Z.min (py p2) (py q2) <= Z.max (py p1) (py q1)
   /\ Z.min (py p1) (py q1) <= Z.max (py p2) (py q2))
  /\ (small p1 -> small q1 -> small p2 -> small q2 ->
      crossInt p1 q1 p2
      = (px q1 - px p1) * (py p2 - py p1) - (py q1 - py p1) * (px p2 - px p1)
      /\ crossInt p1 q1 q2
         = (px q1 - px p1) * (py q2 - py p1)
           - (py q1 - py p1) * (px q2 - px p1)).
Proof.
  split.
  - unfold segmentsOverlap, cross. rewrite !tenth_lt_int.
    destruct (Z.eqb_spec (crossInt p1 q1 p2) 0) as [E1|E1]; cbn [negb].
    2: { split; [discriminate | intros [? _]; contradiction]. }
    destruct (Z.eqb_spec (crossInt p1 q1 q2) 0) as [E2|E2]; cbn [negb].
    2: { split; [discriminate | intros (_ & ? & _); contradiction]. }
    rewrite andb_true_iff, !negb_true_iff, !orb_false_iff, !Z.ltb_ge.
    tauto.
  - intros S1 S2 S3 S4. split; now apply crossInt_exact.
Qed.

End IntToFloat.

Section ExactMatch.
Import Editor Tools.

(** X14: [wallsExactlyMatch] is an equivalence on walls that ignores the
    direction of a wall, its portal flag and its link: it holds exactly
    when the two walls have the same end points, in the same or in the
    opposite order. *)
Theorem wallsExactlyMatch_equivalence (a b c : Wall) :
  wallsExactlyMatch a a = true
  /\ wallsExactlyMatch a b = wallsExactlyMatch b a
  /\ (wallsExactlyMatch a b = true -> wallsExactlyMatch b c = true ->
      wallsExactlyMatch a c = true)
  /\ wallsExactlyMatch a b
     = wallsExactlyMatch
         (mkWall (p2 a) (p1 a) (isPortal a) (adjoiningSector a)) b
  /\ (wallsExactlyMatch a b = true <->
      (p1 a = p1 b /\ p2 a = p2 b) \/ (p1 a = p2 b /\ p2 a = p1 b)).
Proof.
  assert (Spec : forall u v,
             wallsExactlyMatch u v = true <->
             (p1 u = p1 v /\ p2 u = p2 v) \/ (p1 u = p2 v /\ p2 u = p1 v)).
  { intros [[ax ay] [bx by_] pu lu] [[cx cy] [dx dy] pv lv].
    unfold wallsExactlyMatch. cbn [p1 p2 px py].
    rewrite orb_true_iff, !andb_true_iff, !Z.eqb_eq.
    split.
    - intros [(((-> & ->) & ->) & ->) | (((-> & ->) & ->) & ->)]; auto.
    - intros [[E1 E2] | [E1 E2]]; inversion E1; inversion E2; subst; auto. }
  assert (Sym : forall u v, wallsExactlyMatch u v = true ->
                            wallsExactlyMatch v u = true).
  { intros u v H. apply Spec. apply Spec in H.
    destruct H as [[-> ->] | [-> ->]]; auto. }
  assert (Flip : forall u v,
             wallsExactlyMatch u v = true <->
             wallsExactlyMatch
               (mkWall (p2 u) (p1 u) (isPortal u) (adjoiningSector u)) v
             = true).
  { intros u v. rewrite !Spec. cbn [p1 p2]. tauto. }
  split; [apply Spec; auto|].
  split.
  { destruct (wallsExactlyMatch a b) eqn:E1, (wallsExactlyMatch b a) eqn:E2;
      try reflexivity.
    - apply Sym in E1. congruence.
    - apply Sym in E2. congruence. }
  split.
  { intros H1 H2. apply Spec. apply Spec in H1, H2.
    destruct H1 as [[-> ->] | [-> ->]], H2 as [[-> ->] | [-> ->]]; auto. }
  split; [|apply Spec].
  destruct (wallsExactlyMatch a b) eqn:E1,
    (wallsExactlyMatch (mkWall _ _ _ _) b) eqn:E2; try reflexivity.
  - apply Flip in E1. congruence.
  - apply Flip in E2. congruence.
Qed.

End ExactMatch.

(** ** Editor: linking portals *)

Section AutoLink.
Import Editor Tools.

Lemma partnerIn_scan (wall : Wall) (ws : list Wall) :
  forall j,
    (partnerIn wall j ws = None
     /\ forall o, In o ws -> candidate wall o = false)
    \/ (exists m o,
          partnerIn wall j ws = Some ((j + m)%nat, o)
          /\ nth_error ws m = Some o /\ candidate wall o = true
          /\ forall m' o', (m' < m)%nat -> nth_error ws m' = Some o' ->
                           candidate wall o' = false).
Proof.
  induction ws as [|o ws IH]; intros j; cbn [partnerIn].
  - left. split; [reflexivity | intros o []].
  - assert (C : candidate wall o
                = if isPortal o then false
                  else segmentsOverlap (p1 wall) (p2 wall) (p1 o) (p2 o)).
    { unfold candidate. now destruct (isPortal o). }
    destruct (candidate wall o) eqn:Ho.
    + right. exists 0%nat, o. rewrite Nat.add_0_r.
      destruct (isPortal o); [discriminate|]. rewrite <- C.
      split; [reflexivity|]. split; [reflexivity|]. split; [exact Ho|].
      intros m' o' Hm. lia.
    + assert (E : (if isPortal o then partnerIn wall (S j) ws
                   else if segmentsOverlap (p1 wall) (p2 wall) (p1 o) (p2 o)
                        then Some (j, o) else partnerIn wall (S j) ws)
                  = partnerIn wall (S j) ws).
      { destruct (isPortal o); [reflexivity | now rewrite <- C]. }
      rewrite E.
      destruct (IH (S j)) as [[N F] | (m & o0 & P & Hn & Hc & F)].
      * left. split; [exact N|]. intros o' [<- | Hin]; auto.
      * right. exists (S m), o0. rewrite P.
        split; [do 2 f_equal; lia|]. split; [exact Hn|]. split; [exact Hc|].
        intros [|m'] o' Hm Hn'; cbn in Hn'.
        -- now inversion Hn'; subst.
        -- apply (F m'); [lia | exact Hn'].
Qed.

Lemma partnerFrom_scan (wall : Wall) (sectorIndex : Z) (ss : list Sector) :
  forall i,
    (partnerFrom wall sectorIndex i ss = None
     /\ forall m s o, nth_error ss m = Some s ->
          Z.of_nat (i + m) <> sectorIndex -> In o (walls s) ->
          candidate wall o = false)
    \/ (exists m s j o,
          partnerFrom wall sectorIndex i ss = Some ((i + m)%nat, j, o)
          /\ nth_error ss m = Some s
          /\ Z.of_nat (i + m) <> sectorIndex
          /\ nth_error (walls s) j = Some o /\ candidate wall o = true
          /\ (forall j' o', (j' < j)%nat -> nth_error (walls s) j' = Some o' ->
                            candidate wall o' = false)
          /\ (forall m' s' o', (m' < m)%nat -> nth_error ss m' = Some s' ->
                Z.of_nat (i + m') <> sectorIndex -> In o' (walls s') ->
                candidate wall o' = false)).
Proof.
  induction ss as [|s ss IH]; intros i; cbn [partnerFrom].
  - left. split; [reflexivity|]. intros [|m] s o H; discriminate H.
  - assert (Next :
      (forall o, Z.of_nat i <> sectorIndex -> In o (walls s) ->
                 candidate wall o = false) ->
      (partnerFrom wall sectorIndex (S i) ss = None
       /\ forall m s0 o, nth_error (s :: ss) m = Some s0 ->
            Z.of_nat (i + m) <> sectorIndex -> In o (walls s0) ->
            candidate wall o = false)
      \/ (exists m s0 j o,
            partnerFrom wall sectorIndex (S i) ss = Some ((i + m)%nat, j, o)
            /\ nth_error (s :: ss) m = Some s0
            /\ Z.of_nat (i + m) <> sectorIndex
            /\ nth_error (walls s0) j = Some o /\ candidate wall o = true
            /\ (forall j' o', (j' < j)%nat ->
                  nth_error (walls s0) j' = Some o' ->
                  candidate wall o' = false)
            /\ (forall m' s' o', (m' < m)%nat ->
                  nth_error (s :: ss) m' = Some s' ->
                  Z.of_nat (i + m') <> sectorIndex -> In o' (walls s') ->
                  candidate wall o' = false))).
    { intros Here.
      destruct (IH (S i)) as [[N F] | (m & s0 & j & o & P & Hn & Hne & R)].
      - left. split; [exact N|].
        intros [|m] s0 o Hn Hne Hin; cbn in Hn.
        + inversion Hn; subst s0. rewrite Nat.add_0_r in Hne. now apply Here.
        + apply (F m s0); auto.
          replace (S i + m)%nat with (i + S m)%nat by lia. exact Hne.
      - right. exists (S m), s0, j, o.
        replace (i + S m)%nat with (S i + m)%nat by lia.
        split; [exact P|]. split; [exact Hn|]. split; [exact Hne|].
        destruct R as (Hj & Hc & Fj & Fm).
        split; [exact Hj|]. split; [exact Hc|]. split; [exact Fj|].
        intros [|m'] s' o' Hm Hn' Hne' Hin; cbn in Hn'.
        + inversion Hn'; subst s'. rewrite Nat.add_0_r in Hne'.
          now apply Here.
        + apply (Fm m' s'); auto; [lia|].
          replace (S i + m')%nat with (i + S m')%nat by lia. exact Hne'. }
    destruct (Z.eqb_spec (Z.of_nat i) sectorIndex) as [Eq|Ne].
    + apply Next. intros o Hne. contradiction.
    + destruct (partnerIn_scan wall (walls s) 0)
        as [[N F] | (j & o & P & Hn & Hc & Fj)]; rewrite P || rewrite N.
      * apply Next. intros o _. apply F.
      * right. exists 0%nat, s, j, o. rewrite Nat.add_0_r. cbn [Nat.add].
        split; [reflexivity|]. split; [reflexivity|]. split; [exact Ne|].
        split; [exact Hn|]. split; [exact Hc|]. split; [exact Fj|].
        intros m' s' o' Hm. lia.
Qed.

Lemma editor_sector_at (sectors : list Sector) (i : Z) (s : Sector) :
  sector_at sectors i = Some s <->
  0 <= i /\ nth_error sectors (Z.to_nat i) = Some s.
Proof.
  unfold sector_at. destruct (Z.ltb_spec i 0); split.
  - discriminate.
  - intros [? _]. lia.
  - auto.
  - now intros [_ ?].
Qed.


Lemma partnerFrom_none (wall : Wall) (sectorIndex : Z)
    (sectors : list Sector) :
  (forall m s o, nth_error sectors m = Some s -> Z.of_nat m <> sectorIndex ->
     In o (walls s) -> candidate wall o = false) ->
  partnerFrom wall sectorIndex 0 sectors = None.
Proof.
  intros F.
  destruct (partnerFrom_scan wall sectorIndex sectors 0)
    as [[N _] | (m & s & j & o & _ & Hm & Hne & Hj & Hc & _)]; [exact N|].
  rewrite (F m s o Hm Hne (nth_error_In _ _ Hj)) in Hc. discriminate.
Qed.





(** X16: when no wall of another sector qualifies, [tryAutoLinkPortal]
    changes nothing, and a right click on a solid wall only sets its
    portal flag: the wall keeps its end points and its link (-1 on a wall
    the editor made), and all other walls and sectors stay as they
    were. *)
Theorem portal_without_partner (sectors : list Sector) (sectorIndex : Z)
    (k : nat) (wall : Wall) (cur : Sector) :
  sector_at sectors sectorIndex = Some cur ->
  nth_error (walls cur) k = Some wall ->
  isPortal wall = false ->
  (forall m s o, nth_error sectors m = Some s -> Z.of_nat m <> sectorIndex ->
     In o (walls s) -> candidate wall o = false) ->
  tryAutoLinkPortal sectors sectorIndex k = Some sectors
  /\ exists result cur',
       togglePortal sectors sectorIndex k = Some result
       /\ length result = length sectors
       /\ sector_at result sectorIndex = Some cur'
       /\ walls cur' = updateAt k setPortal (walls cur)
       /\ nth_error (walls cur') k
          = Some (mkWall (p1 wall) (p2 wall) true (adjoiningSector wall))
       /\ forall m, Z.of_nat m <> sectorIndex ->
                    nth_error result m = nth_error sectors m.
Proof.
  intros Hcur Hk Hp F.
  pose proof (proj1 (editor_sector_at _ _ _) Hcur) as [H0 Hn].
  split.
  - unfold tryAutoLinkPortal, wall_at. rewrite Hcur, Hk.
    now rewrite (partnerFrom_none wall sectorIndex sectors F).
  - set (marked := updateAt (Z.to_nat sectorIndex)
                     (setWalls (updateAt k setPortal)) sectors).
    assert (Hcur' : sector_at marked sectorIndex
                    = Some (setWalls (updateAt k setPortal) cur)).
    { apply editor_sector_at. split; [exact H0|]. unfold marked.
      now rewrite updateAt_nth, Nat.eqb_refl, Hn. }
    assert (Hk' : nth_error (updateAt k setPortal (walls cur)) k
                  = Some (setPortal wall))
      by now rewrite updateAt_nth, Nat.eqb_refl, Hk.
    exists marked, (setWalls (updateAt k setPortal) cur).
    split.
    { unfold togglePortal, wall_at. rewrite Hcur, Hk, Hp. cbn [negb].
      fold marked. unfold tryAutoLinkPortal, wall_at.
      rewrite Hcur'. cbn [walls setWalls]. rewrite Hk'.
      rewrite (partnerFrom_none (setPortal wall) sectorIndex marked);
        [reflexivity|].
      intros m s o Hm Hne Hin. unfold marked in Hm.
      rewrite updateAt_nth in Hm.
      destruct (Nat.eqb_spec m (Z.to_nat sectorIndex)); [lia|].
      exact (F m s o Hm Hne Hin). }
    split; [apply updateAt_length|]. split; [exact Hcur'|].
    split; [reflexivity|]. split; [exact Hk'|].
    intros m Hne. unfold marked. rewrite updateAt_nth.
    destruct (Nat.eqb_spec m (Z.to_nat sectorIndex)); [lia | reflexivity].
Qed.

Lemma portal_without_partner_witness :
  tryAutoLinkPortal [Scenes.west] 0 1 = Some [Scenes.west].
Proof.
  apply (portal_without_partner [Scenes.west] 0 1
           (Fixtures.edge 64 0 64 64 false (-1)) Scenes.west).
  - reflexivity.
  - reflexivity.
  - reflexivity.
  - intros [|[|m]] s o H N; [now elim N | discriminate H | discriminate H].
Defined.

End AutoLink.

(** ** Editor: unsetting a portal *)

Section Unset.
Import Editor Tools.

Lemma unlinkFrom_ends (sectorIndex : Z) (w : Wall) :
  p1 (unlinkFrom sectorIndex w) = p1 w /\ p2 (unlinkFrom sectorIndex w) = p2 w.
Proof. unfold unlinkFrom. now destruct (_ && _). Qed.

Lemma unlinkFrom_clear (sectorIndex : Z) (w : Wall) :
  isPortal (unlinkFrom sectorIndex w) = true ->
  adjoiningSector (unlinkFrom sectorIndex w) <> sectorIndex.
Proof.
  unfold unlinkFrom.
  destruct (Z.eqb_spec (adjoiningSector w) sectorIndex) as [E|E];
    destruct (isPortal w) eqn:P; cbn [andb clearPortal isPortal];
    congruence.
Qed.

Lemma updateAt_In {A : Type} (f : A -> A) (l : list A) :
  forall k x, In x (updateAt k f l) -> In x l \/ exists y, In y l /\ x = f y.
Proof.
  induction l as [|y l IH]; intros [|k] x H; cbn [updateAt] in H; auto.
  - destruct H as [<- | H]; [right; exists y; split; [now left | reflexivity]|].
    left. now right.
  - destruct H as [<- | H]; [left; now left|].
    destruct (IH k x H) as [Hin | (z & Hz & ->)].
    + left. now right.
    + right. exists z. split; [now right | reflexivity].
Qed.

Lemma updateAt_map {A B : Type} (g : A -> B) (f : A -> A) (l : list A) :
  (forall x, g (f x) = g x) ->
  forall k, map g (updateAt k f l) = map g l.
Proof.
  intros H. induction l as [|x l IH]; intros [|k]; cbn [updateAt map];
    try reflexivity.
  - now rewrite H.
  - now rewrite IH.
Qed.

(** X17: a right click on a portal unsets it on both sides: the wall
    becomes solid with the link -1, the sector it led to keeps no portal
    back to the sector of the wall, sectors other than these two are
    untouched, and no wall changes its end points and no sector its
    heights. *)
Theorem togglePortal_unsets_both_sides (sectors : list Sector)
    (sectorIndex : Z) (k : nat) (wall : Wall) (cur : Sector) :
  sector_at sectors sectorIndex = Some cur ->
  nth_error (walls cur) k = Some wall ->
  isPortal wall = true ->
  exists result,
    togglePortal sectors sectorIndex k = Some result
    /\ length result = length sectors
    /\ wall_at result sectorIndex k = Some (mkWall (p1 wall) (p2 wall) false (-1))
    /\ (forall linked w,
          sector_at result (adjoiningSector wall) = Some linked ->
          In w (walls linked) -> isPortal w = true ->
          adjoiningSector w <> sectorIndex)
    /\ (forall m, Z.of_nat m <> sectorIndex ->
                  Z.of_nat m <> adjoiningSector wall ->
                  nth_error result m = nth_error sectors m)
    /\ map (fun s => (map (fun w => (p1 w, p2 w)) (walls s),
                      floorHeight s, ceilingHeight s)) result
       = map (fun s => (map (fun w => (p1 w, p2 w)) (walls s),
                        floorHeight s, ceilingHeight s)) sectors.
Proof.
  intros Hcur Hk Hp.
  pose proof (proj1 (editor_sector_at _ _ _) Hcur) as [H0 Hn].
  unfold togglePortal, wall_at. rewrite Hcur, Hk, Hp. cbn [negb].
  set (l := adjoiningSector wall).
  set (valid := (0 <=? l) && (l <? Z.of_nat (length sectors))).
  set (sectors1 :=
         if valid
         then updateAt (Z.to_nat l) (setWalls (map (unlinkFrom sectorIndex)))
                sectors
         else sectors).
  assert (L1 : length sectors1 = length sectors).
  { unfold sectors1. destruct valid; [apply updateAt_length | reflexivity]. }
  (* every sector of [sectors1] is the old one, unlinked or not *)
  assert (S1 : forall m s, nth_error sectors1 m = Some s ->
             exists s0, nth_error sectors m = Some s0
               /\ (s = s0 \/ (s = setWalls (map (unlinkFrom sectorIndex)) s0
                              /\ Z.of_nat m = l))).
  { intros m s Hm. unfold sectors1 in Hm. destruct valid eqn:V.
    - rewrite updateAt_nth in Hm.
      destruct (Nat.eqb_spec m (Z.to_nat l)).
      + destruct (nth_error sectors m) as [s0|]; [|discriminate].
        inversion Hm. exists s0. split; [reflexivity|]. right.
        split; [reflexivity|]. unfold valid in V.
        apply andb_true_iff in V. destruct V as [V _].
        apply Z.leb_le in V. lia.
      + eauto.
    - eauto. }
  destruct (nth_error sectors1 (Z.to_nat sectorIndex)) as [cur1|] eqn:Hc1.
  2: { apply nth_error_None in Hc1. rewrite L1 in Hc1.
       apply nth_error_None in Hc1. congruence. }
  destruct (S1 _ _ Hc1) as (s0 & Hs0 & Hshape). rewrite Hn in Hs0.
  inversion Hs0; subst s0.
  assert (K1 : exists w1, nth_error (walls cur1) k = Some w1
                          /\ p1 w1 = p1 wall /\ p2 w1 = p2 wall).
  { destruct Hshape as [-> | [-> _]].
    - exists wall. auto.
    - exists (unlinkFrom sectorIndex wall). cbn [setWalls walls].
      rewrite nth_error_map, Hk. split; [reflexivity|].
      apply unlinkFrom_ends. }
  destruct K1 as (w1 & Hw1 & E1 & E2).
  eexists. split; [reflexivity|].
  split; [now rewrite updateAt_length|].
  split.
  { rewrite (proj2 (editor_sector_at _ sectorIndex
                      (setWalls (updateAt k clearPortal) cur1))).
    - cbn [setWalls walls]. rewrite updateAt_nth, Nat.eqb_refl, Hw1.
      cbn [option_map]. unfold clearPortal. now rewrite E1, E2.
    - split; [exact H0|]. now rewrite updateAt_nth, Nat.eqb_refl, Hc1. }
  split.
  { intros linked w Hl Hin Pw.
    apply editor_sector_at in Hl. destruct Hl as [Hl0 Hl].
    rewrite updateAt_nth in Hl.
    assert (V : valid = true).
    { unfold valid. apply andb_true_iff. split; [now apply Z.leb_le|].
      apply Z.ltb_lt.
      assert (Z.to_nat l < length sectors1)%nat.
      { apply nth_error_Some.
        destruct (Nat.eqb (Z.to_nat l) (Z.to_nat sectorIndex));
          destruct (nth_error sectors1 (Z.to_nat l)); discriminate || congruence. }
      lia. }
    assert (U : forall s, nth_error sectors1 (Z.to_nat l) = Some s ->
                forall w', In w' (walls s) -> isPortal w' = true ->
                           adjoiningSector w' <> sectorIndex).
    { intros s Hs w' Hin' Pw'. unfold sectors1 in Hs. rewrite V in Hs.
      rewrite updateAt_nth, Nat.eqb_refl in Hs.
      destruct (nth_error sectors (Z.to_nat l)) as [s0|]; [|discriminate].
      inversion Hs; subst s. cbn [setWalls walls] in Hin'.
      apply in_map_iff in Hin'. destruct Hin' as (w0 & <- & _).
      now apply unlinkFrom_clear. }
    destruct (Nat.eqb_spec (Z.to_nat l) (Z.to_nat sectorIndex)) as [E|E].
    - rewrite E in U. specialize (U cur1 Hc1).
      rewrite E, Hc1 in Hl. cbn [option_map] in Hl.
      inversion Hl; subst linked.
      cbn [setWalls walls] in Hin.
      destruct (updateAt_In _ _ _ _ Hin) as [Hin' | (y & _ & ->)].
      + now apply U.
      + discriminate Pw.
    - now apply (U linked Hl). }
  split.
  { intros m Hm1 Hm2. rewrite updateAt_nth.
    destruct (Nat.eqb_spec m (Z.to_nat sectorIndex)); [lia|].
    unfold sectors1. destruct valid eqn:V; [|reflexivity].
    unfold valid in V. apply andb_true_iff in V. destruct V as [V _].
    apply Z.leb_le in V. rewrite updateAt_nth.
    destruct (Nat.eqb_spec m (Z.to_nat l)); [lia | reflexivity]. }
  { set (view := fun s : Sector =>
                   (map (fun w => (p1 w, p2 w)) (walls s),
                    floorHeight s, ceilingHeight s)).
    rewrite updateAt_map.
    - unfold sectors1. destruct valid; [|reflexivity].
      apply updateAt_map. intros s. unfold view.
      cbn [setWalls walls floorHeight ceilingHeight].
      rewrite map_map. do 2 f_equal. apply map_ext. intros w.
      destruct (unlinkFrom_ends sectorIndex w) as [-> ->]. reflexivity.
    - intros s. unfold view. cbn [setWalls walls floorHeight ceilingHeight].
      do 2 f_equal. now apply updateAt_map. }
Qed.

Lemma togglePortal_unsets_both_sides_witness :
  exists result,
    togglePortal Scenes.linked 0 1 = Some result
    /\ wall_at result 0 1 = Some (Fixtures.edge 64 0 64 64 false (-1)).
Proof.
  destruct (togglePortal_unsets_both_sides Scenes.linked 0 1
              (Fixtures.edge 64 0 64 64 true 1)
              (Fixtures.plain
                 [ Fixtures.edge 0 0 64 0 false (-1);
                   Fixtures.edge 64 0 64 64 true 1;
                   Fixtures.edge 64 64 0 64 false (-1);
                   Fixtures.edge 0 64 0 0 false (-1) ]))
    as (result & E & _ & W & _); [reflexivity | reflexivity | reflexivity |].
  exists result. split; [exact E | exact W].
Defined.

End Unset.

(** ** Editor: deleting a sector, closing a sector, picking *)

Section DeleteLinks.
Import Editor Tools Session.

Lemma deleteSector_passes (k : Z) (sectors : list Sector) :
  0 <= k < Z.of_nat (length sectors) ->
  deleteSector k sectors
  = map (mapWalls (renumbered k)) (erase (Z.to_nat k) sectors).
Proof.
  intros Hk. unfold deleteSector.
  destruct (Z.ltb_spec k 0); [lia|].
  destruct (Z.geb_spec k (Z.of_nat (length sectors))); [lia|].
  cbn [orb]. rewrite erase_map, map_map. apply map_ext.
  intros sec. unfold mapWalls. cbn [walls floorHeight ceilingHeight].
  f_equal. rewrite map_map. apply map_ext. apply shiftDown_unlink.
Qed.

Lemma renumbered_ends (k : Z) (w : Wall) :
  p1 (renumbered k w) = p1 w /\ p2 (renumbered k w) = p2 w.
Proof.
  unfold renumbered.
  destruct (negb (isPortal w)), (adjoiningSector w =? k),
    (adjoiningSector w =? k + 1), (k + 1 <? adjoiningSector w); auto.
Qed.

Lemma renumbered_link (k n : Z) (w : Wall) :
  0 <= k < n -> linkInv n w -> linkInv (n - 1) (renumbered k w).
Proof.
  unfold linkInv, renumbered. intros Hk H.
  destruct (isPortal w) eqn:P; cbn [negb]; [|now rewrite P].
  destruct (Z.eqb_spec (adjoiningSector w) k); [reflexivity|].
  destruct (Z.eqb_spec (adjoiningSector w) (k + 1)); cbn [isPortal adjoiningSector];
    [lia|].
  destruct (Z.ltb_spec (k + 1) (adjoiningSector w)); cbn [isPortal adjoiningSector];
    [lia|].
  rewrite P. lia.
Qed.

Lemma erase_length {A : Type} (k : nat) (l : list A) :
  (k < length l)%nat -> length (firstn k l ++ skipn (S k) l) = (length l - 1)%nat.
Proof.
  intros H. rewrite length_app, length_firstn, length_skipn. lia.
Qed.

Lemma erase_Forall (P : Sector -> Prop) (k : nat) (ss : list Sector) :
  Forall P ss -> Forall P (erase k ss).
Proof.
  intros H. unfold erase. rewrite <- (firstn_skipn k ss) in H.
  apply Forall_app in H. destruct H as [H1 H2].
  apply Forall_app. split; [exact H1|].
  replace (skipn (S k) ss) with (skipn 1 (skipn k ss))
    by (rewrite skipn_skipn; f_equal; lia).
  destruct (skipn k ss) as [|x r]; [constructor|].
  cbn [skipn]. now inversion H2.
Qed.

(** X18: [deleteSector] with an index out of range changes nothing.  In
    range it removes that one sector and keeps the end points of every
    other wall and the heights of every other sector; and if every portal
    link was -1 or the index of a sector before, it is so afterwards, for
    the smaller number of sectors. *)
Theorem deleteSector_keeps_links (k : Z) (sectors : list Sector) :
  (k < 0 \/ Z.of_nat (length sectors) <= k -> deleteSector k sectors = sectors)
  /\ (0 <= k < Z.of_nat (length sectors) ->
      Z.of_nat (length (deleteSector k sectors))
      = Z.of_nat (length sectors) - 1
      /\ map (fun s => (map (fun w => (p1 w, p2 w)) (walls s),
                        floorHeight s, ceilingHeight s))
           (deleteSector k sectors)
         = map (fun s => (map (fun w => (p1 w, p2 w)) (walls s),
                          floorHeight s, ceilingHeight s))
             (erase (Z.to_nat k) sectors)
      /\ (Forall (fun s => Forall (linkInv (Z.of_nat (length sectors)))
                             (walls s)) sectors ->
          Forall (fun s => Forall (linkInv (Z.of_nat (length sectors) - 1))
                             (walls s)) (deleteSector k sectors))).
Proof.
  split.
  - intros H. unfold deleteSector.
    destruct (Z.ltb_spec k 0); [reflexivity|].
    destruct (Z.geb_spec k (Z.of_nat (length sectors))); [reflexivity | lia].
  - intros Hk. rewrite (deleteSector_passes k sectors Hk).
    split; [|split].
    + rewrite length_map. unfold erase. rewrite erase_length; lia.
    + rewrite map_map. apply map_ext. intros s. unfold mapWalls.
      cbn [walls floorHeight ceilingHeight]. rewrite map_map.
      do 2 f_equal. apply map_ext. intros w.
      destruct (renumbered_ends k w) as [-> ->]. reflexivity.
    + intros H. apply Forall_map.
      apply (erase_Forall _ (Z.to_nat k)) in H.
      revert H. apply Forall_impl. intros s Hs. unfold mapWalls.
      cbn [walls]. apply Forall_map. revert Hs. apply Forall_impl.
      intros w. now apply renumbered_link.
Qed.

End DeleteLinks.

Section NewSector.
Import Editor Tools Session.

Lemma closedLoop_nth (points : list Point) (i : nat) :
  (i < length points)%nat ->
  nth_error (closedLoop points) i
  = Some (mkWall (nth i points (mkPoint 0 0))
                 (nth ((i + 1) mod length points) points (mkPoint 0 0))
                 false (-1)).
Proof.
  intros H. unfold closedLoop.
  rewrite nth_error_map, nth_error_nth' with (d := 0%nat)
    by (rewrite length_seq; exact H).
  now rewrite seq_nth.
Qed.

Lemma closedLoop_length (points : list Point) :
  length (closedLoop points) = length points.
Proof. unfold closedLoop. now rewrite length_map, length_seq. Qed.

(** X11: the Return key does nothing with fewer than three points.  With
    three or more it appends one sector with the default heights and
    clears the points; the sector has one solid, unlinked wall for every
    point, starting at that point, and each wall ends where the next one
    starts, the last one where the first starts. *)
Theorem keyReturn_closes_loop (st : State) :
  ((length (currentWallPoints st) <= 2)%nat -> keyReturn st = st)
  /\ ((2 < length (currentWallPoints st))%nat ->
      exists sector,
        keyReturn st = mkState (sectors st ++ [sector]) []
        /\ floorHeight sector = f_of_Z 0 /\ ceilingHeight sector = f_of_Z 4
        /\ length (walls sector) = length (currentWallPoints st)
        /\ forall i w,
             nth_error (walls sector) i = Some w ->
             isPortal w = false /\ adjoiningSector w = -1
             /\ nth_error (currentWallPoints st) i = Some (p1 w)
             /\ exists next,
                  nth_error (walls sector)
                    ((i + 1) mod length (currentWallPoints st)) = Some next
                  /\ p1 next = p2 w).
Proof.
  unfold keyReturn. set (pts := currentWallPoints st). split.
  - intros H. destruct (Nat.ltb_spec 2 (length pts)); [lia | reflexivity].
  - intros H. destruct (Nat.ltb_spec 2 (length pts)); [|lia].
    eexists. split; [reflexivity|]. cbn [floorHeight ceilingHeight walls].
    split; [reflexivity|]. split; [reflexivity|].
    split; [apply closedLoop_length|].
    intros i w Hw.
    assert (Hi : (i < length pts)%nat).
    { rewrite <- closedLoop_length. apply nth_error_Some. congruence. }
    rewrite (closedLoop_nth pts i Hi) in Hw. inversion Hw; subst w.
    cbn [isPortal adjoiningSector p1 p2].
    split; [reflexivity|]. split; [reflexivity|].
    split; [now apply nth_error_nth'|].
    assert (Hn : ((i + 1) mod length pts < length pts)%nat)
      by (apply Nat.mod_upper_bound; lia).
    eexists. split; [apply (closedLoop_nth pts _ Hn) | reflexivity].
Qed.

End NewSector.

Section Picking.
Import Editor Tools Session.
Variable pow : double -> double -> double.
Variable hypot : double -> double -> double.
Variable hypotf : float -> float -> float.

(** X12: [findWallAt] and [findHoveredSector] pick the same sector.
    Either no wall of the map is within [HIT_RADIUS] of the point and the
    result is the null reference with sector -1, or the result is the
    first wall within reach, in the order of the sectors and then of their
    walls. *)
Theorem picking_agrees (sectors : list Sector) (x y : Z) :
  sectorIndex (findWallAt pow hypot hypotf sectors x y)
  = findHoveredSector pow hypot hypotf sectors x y
  /\ ((findWallAt pow hypot hypotf sectors x y = mkWallRef None (-1)
       /\ forall s w, In s sectors -> In w (walls s) ->
            hits pow hypot hypotf (mkPoint x y) w = false)
      \/ exists i s k w,
           findWallAt pow hypot hypotf sectors x y
           = mkWallRef (Some k) (Z.of_nat i)
           /\ nth_error sectors i = Some s
           /\ nth_error (walls s) k = Some w
           /\ hits pow hypot hypotf (mkPoint x y) w = true
           /\ (forall k' w', (k' < k)%nat ->
                 nth_error (walls s) k' = Some w' ->
                 hits pow hypot hypotf (mkPoint x y) w' = false)
           /\ (forall i' s' w', (i' < i)%nat ->
                 nth_error sectors i' = Some s' -> In w' (walls s') ->
                 hits pow hypot hypotf (mkPoint x y) w' = false)).
Proof.
  unfold findWallAt, findHoveredSector.
  destruct (findWallFrom_scan pow hypot hypotf (mkPoint x y) sectors 0)
    as [(E1 & E2 & N) | (m & s & k & w & E1 & E2 & R)];
    rewrite E1, E2; cbn [sectorIndex]; (split; [reflexivity|]).
  - left. now split.
  - right. exists m, s, k, w. rewrite Z.add_0_l. now split.
Qed.

End Picking.

(** ** Editor: what every session keeps true *)

Section SessionInvariant.
Import Editor Tools Session.

(** The sectors of a state as the invariant sees them. *)
Let mapInv (ss : list Sector) : Prop :=
  Forall (sectorInv (Z.of_nat (length ss))) ss.

Lemma gridSnap_gridPoint (x y : Z) : gridPoint (gridSnap x y).
Proof. split; apply snap_grid. Qed.

Lemma gridCoord_max (u v : Z) :
  gridCoord u -> gridCoord v -> gridCoord (Z.max u v).
Proof. intros Hu Hv. destruct (Z.max_spec u v) as [[_ ->] | [_ ->]]; auto. Qed.

Lemma gridCoord_min (u v : Z) :
  gridCoord u -> gridCoord v -> gridCoord (Z.min u v).
Proof. intros Hu Hv. destruct (Z.min_spec u v) as [[_ ->] | [_ ->]]; auto. Qed.

Lemma normalized_grid (a b : Point) :
  gridPoint a -> gridPoint b ->
  gridPoint (fst (normalized a b)) /\ gridPoint (snd (normalized a b)).
Proof. intros Ha Hb. unfold normalized. now destruct (_ || _). Qed.

Lemma solid_inv (n : Z) (a b : Point) :
  gridPoint a -> gridPoint b -> wallInv n (mkWall a b false (-1)).
Proof. intros Ga Gb. split; [exact Ga|]. split; [exact Gb | reflexivity]. Qed.

Lemma portal_inv (n : Z) (a b : Point) (link : Z) :
  gridPoint a -> gridPoint b -> -1 <= link < n ->
  wallInv n (mkWall a b true link).
Proof. intros Ga Gb L. split; [exact Ga|]. split; [exact Gb | exact L]. Qed.

Lemma pieces_inv (n : Z) (e1 e2 overlapStart overlapEnd : Point) (link : Z) :
  gridPoint e1 -> gridPoint e2 ->
  gridPoint overlapStart -> gridPoint overlapEnd ->
  -1 <= link < n ->
  Forall (wallInv n) (pieces e1 e2 overlapStart overlapEnd link).
Proof.
  intros G1 G2 Gs Ge L. unfold pieces.
  apply Forall_app. split.
  { destruct (negb _); [|constructor].
    constructor; [now apply solid_inv | constructor]. }
  apply Forall_app. split.
  { constructor; [now apply portal_inv | constructor]. }
  destruct (negb _); [|constructor].
  constructor; [now apply solid_inv | constructor].
Qed.

Lemma linkInv_mono (n n' : Z) (w : Wall) :
  n <= n' -> linkInv n w -> linkInv n' w.
Proof. unfold linkInv. destruct (isPortal w); lia. Qed.

Lemma sectorInv_mono (n n' : Z) (s : Sector) :
  n <= n' -> sectorInv n s -> sectorInv n' s.
Proof.
  intros Hn [W H]. split; [|exact H]. revert W. apply Forall_impl.
  intros w (G1 & G2 & L). repeat split; try apply G1; try apply G2.
  now apply (linkInv_mono n).
Qed.

Lemma setWalls_inv (n : Z) (f : list Wall -> list Wall) (s : Sector) :
  (Forall (wallInv n) (walls s) -> Forall (wallInv n) (f (walls s))) ->
  sectorInv n s -> sectorInv n (setWalls f s).
Proof. intros Hf [W H]. split; [now apply Hf | exact H]. Qed.

(** [tryAutoLinkPortal] never indexes out of range and keeps the invariant. *)
Lemma tryAutoLinkPortal_inv (ss : list Sector) (sectorIndex : Z) (k : nat)
    (wall : Wall) :
  mapInv ss -> wall_at ss sectorIndex k = Some wall ->
  exists result,
    tryAutoLinkPortal ss sectorIndex k = Some result /\ mapInv result.
Proof.
  unfold mapInv. intros Inv Hw. unfold tryAutoLinkPortal. rewrite Hw.
  unfold wall_at in Hw.
  destruct (sector_at ss sectorIndex) as [cur|] eqn:Hcur; [|discriminate].
  apply editor_sector_at in Hcur. destruct Hcur as [H0 Hcur].
  set (n := Z.of_nat (length ss)) in *.
  assert (Hsi : 0 <= sectorIndex < n).
  { assert (Z.to_nat sectorIndex < length ss)%nat
      by (apply nth_error_Some; congruence). lia. }
  rewrite Forall_forall in Inv.
  assert (Gw : wallInv n wall).
  { pose proof (Inv cur (nth_error_In _ _ Hcur)) as [W _].
    rewrite Forall_forall in W. apply W. eapply nth_error_In. exact Hw. }
  destruct (partnerFrom_scan wall sectorIndex ss 0)
    as [[-> _] | (i & s & j & o & -> & Hi & _ & Hj & _)].
  { exists ss. split; [reflexivity|]. now apply Forall_forall. }
  cbn [Nat.add].
  assert (Hin : 0 <= Z.of_nat i < n).
  { assert (i < length ss)%nat by (apply nth_error_Some; congruence). lia. }
  assert (Go : wallInv n o).
  { pose proof (Inv s (nth_error_In _ _ Hi)) as [W _].
    rewrite Forall_forall in W. apply W. eapply nth_error_In. exact Hj. }
  destruct Gw as (Gw1 & Gw2 & _), Go as (Go1 & Go2 & _).
  pose proof (normalized_grid _ _ Gw1 Gw2) as [Ga1 Ga2].
  pose proof (normalized_grid _ _ Go1 Go2) as [Gb1 Gb2].
  destruct (normalized (p1 wall) (p2 wall)) as [a1 a2].
  destruct (normalized (p1 o) (p2 o)) as [b1 b2].
  cbn [fst snd] in *.
  set (os := mkPoint (Z.max (px a1) (px b1)) (Z.max (py a1) (py b1))).
  set (oe := mkPoint (Z.min (px a2) (px b2)) (Z.min (py a2) (py b2))).
  assert (Gs : gridPoint os).
  { split; cbn [px py os]; apply gridCoord_max;
      apply Ga1 || apply Gb1. }
  assert (Ge : gridPoint oe).
  { split; cbn [px py oe]; apply gridCoord_min;
      apply Ga2 || apply Gb2. }
  eexists. split; [reflexivity|].
  rewrite !updateAt_length. fold n.
  apply updateAt_Forall.
  { intros s'. apply setWalls_inv. intros W.
    apply replaceAt_Forall; [exact W|]. apply pieces_inv; auto; lia. }
  apply updateAt_Forall.
  { intros s'. apply setWalls_inv. intros W.
    apply replaceAt_Forall; [exact W|]. apply pieces_inv; auto; lia. }
  now apply Forall_forall.
Qed.

Lemma togglePortal_inv (ss : list Sector) (sectorIndex : Z) (k : nat)
    (wall : Wall) :
  mapInv ss -> wall_at ss sectorIndex k = Some wall ->
  exists result,
    togglePortal ss sectorIndex k = Some result /\ mapInv result.
Proof.
  intros Inv Hw. unfold togglePortal. rewrite Hw.
  pose proof Hw as Hw'. unfold wall_at in Hw'.
  destruct (sector_at ss sectorIndex) as [cur|] eqn:Hcur; [|discriminate].
  apply editor_sector_at in Hcur. destruct Hcur as [H0 Hcur].
  set (n := Z.of_nat (length ss)) in *.
  assert (Hsi : 0 <= sectorIndex < n).
  { assert (Z.to_nat sectorIndex < length ss)%nat
      by (apply nth_error_Some; congruence). lia. }
  destruct (isPortal wall) eqn:P; cbn [negb].
  - (* a portal: unset on both sides *)
    eexists. split; [reflexivity|]. unfold mapInv in *.
    rewrite updateAt_length.
    set (ss1 := if _ && _ then _ else ss).
    assert (L1 : length ss1 = length ss).
    { unfold ss1. destruct (_ && _); [apply updateAt_length | reflexivity]. }
    rewrite L1. fold n.
    apply updateAt_Forall.
    { intros s'. apply setWalls_inv. apply updateAt_Forall.
      intros w (G1 & G2 & _). now apply solid_inv. }
    unfold ss1. destruct (_ && _); [|exact Inv].
    apply updateAt_Forall; [|exact Inv].
    intros s'. apply setWalls_inv. intros W. apply Forall_map.
    revert W. apply Forall_impl. intros w (G1 & G2 & L).
    unfold unlinkFrom. destruct (_ && _); [|exact (conj G1 (conj G2 L))].
    now apply solid_inv.
  - (* a solid wall: flagged, then linked if possible *)
    set (marked := updateAt (Z.to_nat sectorIndex)
                     (setWalls (updateAt k setPortal)) ss).
    assert (Im : mapInv marked).
    { unfold mapInv, marked. rewrite updateAt_length. fold n.
      apply updateAt_Forall; [|exact Inv].
      intros s'. apply setWalls_inv. apply updateAt_Forall.
      intros w (G1 & G2 & L). apply portal_inv; [exact G1 | exact G2 |].
      unfold linkInv in L. destruct (isPortal w); lia. }
    apply (tryAutoLinkPortal_inv marked sectorIndex k (setPortal wall) Im).
    unfold wall_at.
    rewrite (proj2 (editor_sector_at marked sectorIndex
                      (setWalls (updateAt k setPortal) cur))).
    + cbn [setWalls walls]. now rewrite updateAt_nth, Nat.eqb_refl, Hw'.
    + split; [exact H0|]. unfold marked.
      now rewrite updateAt_nth, Nat.eqb_refl, Hcur.
Qed.

Lemma closedLoop_inv (n : Z) (points : list Point) :
  Forall gridPoint points -> Forall (wallInv n) (closedLoop points).
Proof.
  intros G. apply Forall_forall. intros w Hin.
  apply In_nth_error in Hin. destruct Hin as [i Hi].
  assert (Hlt : (i < length points)%nat).
  { rewrite <- closedLoop_length. apply nth_error_Some. congruence. }
  rewrite (closedLoop_nth points i Hlt) in Hi. inversion Hi; subst w.
  rewrite Forall_forall in G.
  assert (Hn : ((i + 1) mod length points < length points)%nat)
    by (apply Nat.mod_upper_bound; lia).
  apply solid_inv; apply G, nth_In; assumption.
Qed.

Section Picking.
Variable pow : double -> double -> double.
Variable hypot : double -> double -> double.
Variable hypotf : float -> float -> float.

Lemma handle_inv (e : Event) (st : State) :
  stateInv st ->
  exists st', handle pow hypot hypotf e st = Some st' /\ stateInv st'.
Proof.
  intros [Is Ip]. destruct e as [x y | x y | | | mx my]; cbn [handle].
  - (* left click *)
    eexists. split; [reflexivity|]. split; [exact Is|].
    cbn [leftClick currentWallPoints]. apply Forall_app. split; [exact Ip|].
    constructor; [apply gridSnap_gridPoint | constructor].
  - (* right click *)
    unfold rightClick, findWallAt.
    destruct (findWallFrom_scan pow hypot hypotf (mkPoint x y) (sectors st) 0)
      as [(-> & _) | (m & s & k & w & -> & _ & Hm & Hk & _)].
    + exists st. split; [reflexivity | now split].
    + rewrite Z.add_0_l.
      destruct (togglePortal_inv (sectors st) (Z.of_nat m) k w Is)
        as (result & -> & Ir).
      { unfold wall_at.
        rewrite (proj2 (editor_sector_at (sectors st) (Z.of_nat m) s));
          [exact Hk|].
        split; [lia|]. now rewrite Nat2Z.id. }
      eexists. split; [reflexivity|]. now split.
  - (* Return *)
    eexists. split; [reflexivity|]. unfold keyReturn.
    destruct (Nat.ltb_spec 2 (length (currentWallPoints st))); [|now split].
    split; [|constructor]. cbn [sectors].
    rewrite length_app. cbn [length].
    apply Forall_app. split.
    + revert Is. apply Forall_impl. intros s. apply sectorInv_mono. lia.
    + constructor; [|constructor]. split; [|now split].
      now apply closedLoop_inv.
  - (* S *)
    exists st. split; [reflexivity | now split].
  - (* D *)
    eexists. split; [reflexivity|]. unfold keyD, findHoveredSector.
    destruct (findWallFrom_scan pow hypot hypotf (mkPoint mx my) (sectors st) 0)
      as [(_ & -> & _) | (m & s & k & w & _ & -> & Hm & _)].
    + cbn. now split.
    + rewrite Z.add_0_l. destruct (Z.geb_spec (Z.of_nat m) 0); [|lia].
      split; [|exact Ip]. cbn [sectors].
      assert (Hlt : (m < length (sectors st))%nat)
        by (apply nth_error_Some; congruence).
      assert (Hk : 0 <= Z.of_nat m < Z.of_nat (length (sectors st))) by lia.
      rewrite (deleteSector_passes _ _ Hk).
      rewrite length_map. unfold erase at 1. rewrite erase_length by lia.
      replace (Z.of_nat (length (sectors st) - 1))
        with (Z.of_nat (length (sectors st)) - 1) by lia.
      apply Forall_map. apply (erase_Forall _ (Z.to_nat (Z.of_nat m))) in Is.
      revert Is. apply Forall_impl. intros s' [W Hh].
      split; [|exact Hh]. unfold mapWalls. cbn [walls]. apply Forall_map.
      revert W. apply Forall_impl. intros w' (G1 & G2 & L).
      split; [|split].
      * now rewrite (proj1 (renumbered_ends (Z.of_nat m) w')).
      * now rewrite (proj2 (renumbered_ends (Z.of_nat m) w')).
      * now apply renumbered_link.
Qed.

Lemma run_inv (events : list Event) :
  forall st, stateInv st ->
    exists st', run pow hypot hypotf events st = Some st' /\ stateInv st'.
Proof.
  induction events as [|e rest IH]; intros st I; cbn [run]; [eauto|].
  destruct (handle_inv e st I) as (st1 & -> & I1). now apply IH.
Qed.

End Picking.

Lemma start_inv : stateInv start.
Proof. split; constructor. Qed.

End SessionInvariant.

Section SessionResults.
Import Editor Tools Session.
Variable pow : double -> double -> double.
Variable hypot : double -> double -> double.
Variable hypotf : float -> float -> float.

(** X20: whatever sequence of clicks and keys the editor is given from an
    empty map, no access goes out of range, and in the state reached every
    pending point and every end point of every wall is a point of the grid
    with [int] coordinates, every solid wall has the link -1, every portal
    has the link -1 or the index of a sector of the map, and every sector
    has the default heights. *)
Theorem session_invariant (events : list Event) :
  exists st,
    run pow hypot hypotf events start = Some st
    /\ Forall gridPoint (currentWallPoints st)
    /\ forall s w, In s (sectors st) -> In w (walls s) ->
         gridPoint (p1 w) /\ gridPoint (p2 w)
         /\ (isPortal w = false -> adjoiningSector w = -1)
         /\ (isPortal w = true ->
             -1 <= adjoiningSector w < Z.of_nat (length (sectors st)))
         /\ floorHeight s = f_of_Z 0 /\ ceilingHeight s = f_of_Z 4.
Proof.
  destruct (run_inv pow hypot hypotf events start start_inv)
    as (st & E & Is & Ip).
  exists st. split; [exact E|]. split; [exact Ip|].
  intros s w Hs Hw. rewrite Forall_forall in Is.
  destruct (Is s Hs) as (W & Hf & Hc). rewrite Forall_forall in W.
  destruct (W w Hw) as (G1 & G2 & L). unfold linkInv in L.
  split; [exact G1|]. split; [exact G2|].
  split; [intros P; now rewrite P in L|].
  split; [intros P; now rewrite P in L|]. now split.
Qed.

Lemma sectorInv_OK (n : Z) (s : Sector) :
  n <= 2 ^ 31 -> Z.of_nat (length (walls s)) <= INT_MAX ->
  sectorInv n s -> sectorOK s /\ heightsOK s /\ requantized s = s.
Proof.
  intros Hn Hl (W & Hf & Hc). split; [|split].
  - split; [|exact Hl]. revert W. apply Forall_impl.
    intros w ((G1 & G2) & (G3 & G4) & L). unfold wallOK.
    repeat split; try apply G1; try apply G2; try apply G3; try apply G4;
      unfold linkInv, INT_MIN, INT_MAX in *; destruct (isPortal w); lia.
  - unfold heightsOK. rewrite Hf, Hc. split; vm_compute; reflexivity.
  - destruct s as [ws f c]. cbn in Hf, Hc. subst f c.
    unfold requantized. cbn [walls floorHeight ceilingHeight].
    f_equal; vm_compute; reflexivity.
Qed.

(** X21: a map built in the editor from an empty one, by any sequence of
    clicks and keys, is read back by [loadMap] exactly as it was saved
    (provided the counts of sectors and walls fit an [int]), whatever was
    loaded before. *)
Theorem session_save_load (events : list Event) (st : State)
    (prev : list Sector) :
  run pow hypot hypotf events start = Some st ->
  Z.of_nat (length (sectors st)) <= 2 ^ 31 ->
  Forall (fun s => Z.of_nat (length (walls s)) <= INT_MAX) (sectors st) ->
  loadMap (Some (saveMap (sectors st))) prev = (true, sectors st).
Proof.
  intros E Hn Hl.
  destruct (run_inv pow hypot hypotf events start start_inv)
    as (st' & E' & Is & _).
  rewrite E in E'. inversion E'; subst st'.
  assert (A : Forall (fun s => sectorOK s /\ heightsOK s /\ requantized s = s)
                (sectors st)).
  { rewrite Forall_forall in *. intros s Hs.
    apply (sectorInv_OK (Z.of_nat (length (sectors st)))); auto. }
  assert (Ok : Forall sectorOK (sectors st))
    by (revert A; apply Forall_impl; tauto).
  assert (Hh : Forall heightsOK (sectors st))
    by (revert A; apply Forall_impl; tauto).
  unfold loadMap, saveMap. rewrite (lines_saveFrom _ 0 Hh).
  rewrite (loadLines_saved (sectors st) 0 []);
    [| lia | unfold INT_MAX; lia | exact Ok | exact Hh].
  cbn [app]. f_equal.
  clear - A. induction A as [|s ss (_ & _ & R) _ IH]; cbn [map];
    [reflexivity|]. now rewrite R, IH.
Qed.

(** X19: the D key leaves the pending points alone.  When no wall is
    within reach of the mouse it changes nothing; otherwise it deletes the
    sector of the first wall within reach, and the map has one sector
    less. *)
Theorem keyD_deletes_hovered (mx my : Z) (st : State) :
  currentWallPoints (keyD pow hypot hypotf mx my st) = currentWallPoints st
  /\ ((findHoveredSector pow hypot hypotf (sectors st) mx my = -1
       /\ (forall s w, In s (sectors st) -> In w (walls s) ->
             hits pow hypot hypotf (mkPoint mx my) w = false)
       /\ keyD pow hypot hypotf mx my st = st)
      \/ exists i,
           findHoveredSector pow hypot hypotf (sectors st) mx my = Z.of_nat i
           /\ (i < length (sectors st))%nat
           /\ sectors (keyD pow hypot hypotf mx my st)
              = deleteSector (Z.of_nat i) (sectors st)
           /\ S (length (sectors (keyD pow hypot hypotf mx my st)))
              = length (sectors st)).
Proof.
  unfold keyD, findHoveredSector.
  destruct (findWallFrom_scan pow hypot hypotf (mkPoint mx my) (sectors st) 0)
    as [(_ & E & N) | (m & s & k & w & _ & E & Hm & _)]; rewrite E.
  - cbn. split; [reflexivity|]. left. now repeat split.
  - rewrite Z.add_0_l. destruct (Z.geb_spec (Z.of_nat m) 0); [|lia].
    cbn [currentWallPoints sectors]. split; [reflexivity|]. right.
    assert (Hlt : (m < length (sectors st))%nat)
      by (apply nth_error_Some; congruence).
    exists m. split; [reflexivity|]. split; [exact Hlt|].
    split; [reflexivity|].
    rewrite (deleteSector_passes (Z.of_nat m) (sectors st)) by lia.
    rewrite length_map.
    unfold erase. rewrite erase_length by lia. lia.
Qed.

End SessionResults.

Section SessionExample.
Import Editor Tools Session.

Lemma session_save_load_witness :
  exists st,
    run Scenes.pow2 Scenes.hypot Scenes.hypotf Scenes.triangle start = Some st
    /\ loadMap (Some (saveMap (sectors st))) [] = (true, sectors st).
Proof.
  eexists. split; [vm_compute; reflexivity|].
  apply (session_save_load Scenes.pow2 Scenes.hypot Scenes.hypotf
           Scenes.triangle _ []).
  - vm_compute. reflexivity.
  - cbn. lia.
  - repeat constructor; cbn; unfold INT_MAX; lia.
Defined.

End SessionExample.
